(** * The leveldb JNI binding (src/jni/leveldbjni.cc) over the storage engine

    The binding marshals Java calls to the native engine.  Its functions are
    embedded below from the source, under their own names, as computations in
    a small state monad over the JNI environment (pending exception, native
    heap, file system).  The engine behind [leveldb/db.h] is not among the
    sources; it is modelled from the specification and every such definition
    says so in its doc comment. *)

From Stdlib Require Import ZArith NArith List Bool Lia.
From Stdlib.Strings Require Import Byte.
From stdpp Require Import base option gmap strings list sorting pretty.

Local Open Scope Z_scope.

(* ===================================================================== *)
(** * Part I: definitions                                                 *)
(* ===================================================================== *)

(** ** Bytes, slices and Java byte arrays *)

(** A [jbyteArray], a [Slice] and a [std::string] all carry a byte sequence. *)
Definition bytes := list byte.

(** Equality of bytes is decidable. *)
#[global] Instance byte_eq_decision : EqDecision byte := Byte.byte_eq_dec.

(** [Slice(ptr, n)]: the first [n] bytes behind [ptr]. *)
Definition Slice (data : bytes) (n : nat) : bytes := firstn n data.

(** [env->GetArrayLength(a)] *)
Definition GetArrayLength (a : bytes) : nat := length a.

(** ** leveldb::Status *)

(** Modelled from the spec: [leveldb/status.h] is not among the sources.  The
    codes are the ones the binding tests for ([ok], [IsNotFound],
    [IsCorruption], [IsInvalidArgument]) and the remaining ones of the
    taxonomy of section 7; [CorruptManifest] is a [kCorruption] status
    returned by [Open]. *)
Inductive Code :=
  kOk | kNotFound | kCorruption | kNotSupported | kInvalidArgument | kIOError.

(** Modelled from the spec: [leveldb/status.h] is not among the sources; a
    status is one code of the taxonomy of section 7 and a message. *)
Record Status := { code : Code; state : string }.

(** Modelled from the spec: [Status::OK()] of the missing [leveldb/status.h],
    the success status. *)
Definition Status_OK : Status := {| code := kOk; state := EmptyString |}.

(** Modelled from the spec: [Status::NotFound(msg)] of the missing
    [leveldb/status.h] (section 7, NotFound). *)
Definition Status_NotFound (m : string) := {| code := kNotFound; state := m |}.

(** Modelled from the spec: [Status::Corruption(msg)] of the missing
    [leveldb/status.h] (section 7, Corruption and CorruptManifest). *)
Definition Status_Corruption (m : string) := {| code := kCorruption; state := m |}.

(** Modelled from the spec: [Status::InvalidArgument(msg)] of the missing
    [leveldb/status.h] (section 7, InvalidArgument). *)
Definition Status_InvalidArgument (m : string) :=
  {| code := kInvalidArgument; state := m |}.

(** Modelled from the spec: [Status::IOError(msg)] of the missing
    [leveldb/status.h] (section 7, IOError). *)
Definition Status_IOError (m : string) := {| code := kIOError; state := m |}.

(** Modelled from the spec: [Status::ok()] of the missing [leveldb/status.h],
    which the binding's [check] calls. *)
Definition ok (s : Status) : bool :=
  match code s with kOk => true | _ => false end.

(** Modelled from the spec: [Status::IsNotFound()] of the missing
    [leveldb/status.h], which the binding calls in [check] and in [get]. *)
Definition IsNotFound (s : Status) : bool :=
  match code s with kNotFound => true | _ => false end.

(** Modelled from the spec: [Status::IsCorruption()] of the missing
    [leveldb/status.h], which the binding's [check] calls. *)
Definition IsCorruption (s : Status) : bool :=
  match code s with kCorruption => true | _ => false end.

(** Modelled from the spec: [Status::IsInvalidArgument()] of the missing
    [leveldb/status.h], which the binding's [init] calls. *)
Definition IsInvalidArgument (s : Status) : bool :=
  match code s with kInvalidArgument => true | _ => false end.

(** Modelled from the spec: [Status::ToString()] of the missing
    [leveldb/status.h]; the binding passes it on as the exception message.
    The text is the kind of section 7 followed by the message. *)
Definition ToString (s : Status) : string :=
  match code s with
  | kOk => "OK"
  | kNotFound => "NotFound: " +:+ state s
  | kCorruption => "Corruption: " +:+ state s
  | kNotSupported => "Not implemented: " +:+ state s
  | kInvalidArgument => "Invalid argument: " +:+ state s
  | kIOError => "IO error: " +:+ state s
  end.

(** ** Comparators *)

(** Modelled from the spec: [leveldb/comparator.h] is not among the sources.
    The interface has the four methods that [JavaComparator] overrides in the
    binding; [Compare] returns an [int] whose sign orders the two keys
    (section 3). *)
Class Comparator := {
  Compare : bytes -> bytes -> Z;
  Name : string;
  FindShortestSeparator : bytes -> bytes -> bytes;
  FindShortSuccessor : bytes -> bytes
}.

(** Modelled from the spec: section 3 asks the comparator to define a total
    order on keys; these are the laws, stated on the sign of [Compare]. *)
Class TotalOrder (C : Comparator) : Prop := {
  Compare_refl : forall a, Compare a a = 0;
  Compare_eq : forall a b, Compare a b = 0 -> Compare b a = 0;
  Compare_lt_gt : forall a b, Compare a b < 0 <-> 0 < Compare b a;
  Compare_trans_lt :
    forall a b c, Compare a b < 0 -> Compare b c <= 0 -> Compare a c < 0;
  Compare_trans_le :
    forall a b c, Compare a b <= 0 -> Compare b c <= 0 -> Compare a c <= 0
}.

(** The Java callback object [org/tron/leveldb/DBComparator]: the four
    methods [JavaComparator] looks up and calls. *)
Record DBComparator := {
  jname : string;
  jcompare : bytes -> bytes -> Z;
  jfindShortestSeparator : bytes -> bytes -> bytes;
  jfindShortSuccessor : bytes -> bytes
}.

(** [class JavaComparator : public Comparator]: every method copies its
    arguments into fresh byte arrays and calls the Java method. *)
Definition JavaComparator (jobj : DBComparator) : Comparator := {|
  Compare a b := jcompare jobj (Slice a (length a)) (Slice b (length b));
  Name := jname jobj;
  FindShortestSeparator start limit :=
    jfindShortestSeparator jobj (Slice start (length start))
                           (Slice limit (length limit));
  FindShortSuccessor key := jfindShortSuccessor jobj (Slice key (length key))
|}.

(** Modelled from the spec: the engine's default comparator is not among the
    sources; section 3 makes it the lexicographic byte order. *)
Fixpoint bytewise_compare (a b : bytes) : Z :=
  match a, b with
  | [], [] => 0
  | [], _ :: _ => -1
  | _ :: _, [] => 1
  | x :: a', y :: b' =>
      match (Byte.to_N x ?= Byte.to_N y)%N with
      | Lt => -1
      | Gt => 1
      | Eq => bytewise_compare a' b'
      end
  end.

(** Modelled from the spec: the default comparator object of the missing
    engine, by its registered name; separators and successors are not
    shortened. *)
Definition BytewiseComparator : Comparator := {|
  Compare := bytewise_compare;
  Name := "leveldb.BytewiseComparator";
  FindShortestSeparator start _ := start;
  FindShortSuccessor key := key
|}.

(** ** Byte coding *)

(** Modelled from the spec: the engine's coding helpers are not among the
    sources.  The low eight bits of a number as a byte. *)
Definition byte_of_N (n : N) : byte :=
  match Byte.of_N (n mod 256) with Some b => b | None => x00 end.

(** Modelled from the spec: section 2 names varint framing: seven bits a byte,
    low bits first, the high bit set on every byte but the last. *)
Fixpoint PutVarint_aux (fuel : nat) (n : N) : bytes :=
  match fuel with
  | O => [byte_of_N n]
  | S f =>
      if (n <? 128)%N then [byte_of_N n]
      else byte_of_N (128 + n mod 128) :: PutVarint_aux f (n / 128)
  end.

(** Modelled from the spec: the varint encoding of a number (section 2), with
    as many steps as the number has bits. *)
Definition PutVarint (n : N) : bytes := PutVarint_aux (N.to_nat (N.size n)) n.

(** Modelled from the spec: the decoder of the varint framing of section 2;
    [None] when the input ends inside a number. *)
Fixpoint GetVarint (l : bytes) : option (N * bytes) :=
  match l with
  | [] => None
  | b :: r =>
      let v := Byte.to_N b in
      if (v <? 128)%N then Some (v, r)
      else match GetVarint r with
           | Some (hi, r') => Some (v - 128 + 128 * hi, r')%N
           | None => None
           end
  end.

(** Modelled from the spec: a 32-bit number in four bytes, low byte first, as
    the checksum field of a log record (section 4.1). *)
Definition PutFixed32 (n : N) : bytes :=
  [byte_of_N n; byte_of_N (n / 256); byte_of_N (n / 65536);
   byte_of_N (n / 16777216)].

(** Modelled from the spec: the decoder of the four-byte field; [None] when
    fewer than four bytes are left. *)
Definition GetFixed32 (l : bytes) : option (N * bytes) :=
  match l with
  | a :: b :: c :: d :: r =>
      Some (Byte.to_N a + 256 * Byte.to_N b + 65536 * Byte.to_N c
            + 16777216 * Byte.to_N d, r)%N
  | _ => None
  end.

(** Modelled from the spec: length-prefixed framing (section 2): the varint
    length, then the bytes. *)
Definition PutLengthPrefixedSlice (s : bytes) : bytes :=
  PutVarint (N.of_nat (length s)) ++ s.

(** Modelled from the spec: the decoder of the length-prefixed framing of
    section 2; [None] when the input is shorter than the length says. *)
Definition GetLengthPrefixedSlice (l : bytes) : option (bytes * bytes) :=
  match GetVarint l with
  | Some (n, r) =>
      if (N.to_nat n <=? length r)%nat
      then Some (firstn (N.to_nat n) r, skipn (N.to_nat n) r)
      else None
  | None => None
  end.

(** Modelled from the spec: the spec does not name the checksum function of
    records and blocks; a 32-bit rolling sum stands for it. *)
Definition Checksum (l : bytes) : N :=
  fold_left (fun acc b => (acc * 31 + Byte.to_N b + 1) mod 4294967296)%N l 0%N.

(** ** Entries and the internal key order *)

(** Modelled from the spec: section 3, the tag of an entry: PUT or DELETE. *)
Inductive ValueType := kTypeDeletion | kTypeValue.

(** Modelled from the spec: section 3, an entry is (userKey, sequence, tag,
    value), the value being empty under a DELETE tag. *)
Record Entry := {
  userKey : bytes;
  sequence : N;
  tag : ValueType;
  value : bytes
}.

(** Modelled from the spec: section 3, internal keys sort by userKey ascending
    under the comparator, then by sequence descending. *)
Definition InternalKeyCompare `{Comparator} (a b : Entry) : comparison :=
  match Compare (userKey a) (userKey b) ?= 0 with
  | Lt => Lt
  | Gt => Gt
  | Eq => (sequence b ?= sequence a)%N
  end.

(** Modelled from the spec: section 4.2, the internal key a lookup of [k] at
    [snapshot] seeks to. *)
Definition LookupKey (k : bytes) (snapshot : N) : Entry :=
  {| userKey := k; sequence := snapshot; tag := kTypeValue; value := [] |}.

(** Modelled from the spec: section 4.2, the test [userKey == target &&
    sequence <= snapshotSeq] of a memtable lookup. *)
Definition visible_at `{Comparator} (k : bytes) (snapshot : N) (e : Entry)
  : bool :=
  (Compare (userKey e) k =? 0) && (sequence e <=? snapshot)%N.

(** Modelled from the spec: section 4.7, what a source answers to a lookup: a
    value, a tombstone, nothing, or (section 4.3) a block that fails its
    checksum. *)
Inductive LookupResult :=
  | Found (v : bytes)
  | Deleted
  | Absent
  | Corrupt.

(** Modelled from the spec: section 4.2, an entry answers with its value under
    a PUT tag and as deleted under a DELETE tag. *)
Definition answer_of (e : Entry) : LookupResult :=
  match tag e with
  | kTypeValue => Found (value e)
  | kTypeDeletion => Deleted
  end.

(** ** Memtable *)

(** Modelled from the spec: section 4.2, the memtable is a sorted container of
    entries; the skip list is left out and a sorted list stands for it. *)
Definition MemTable := list Entry.

(** Modelled from the spec: section 4.2, [Insert] puts the entry at its place
    in the internal key order. *)
Fixpoint MemTable_Insert `{Comparator} (e : Entry) (m : MemTable) : MemTable :=
  match m with
  | [] => [e]
  | x :: m' =>
      match InternalKeyCompare x e with
      | Lt => x :: MemTable_Insert e m'
      | _ => e :: m
      end
  end.

(** Modelled from the spec: section 4.2, [Get] answers with the first entry
    for the user key that the snapshot can see. *)
Definition MemTable_Get `{Comparator} (m : MemTable) (k : bytes) (snapshot : N)
  : LookupResult :=
  match find (visible_at k snapshot) m with
  | Some e => answer_of e
  | None => Absent
  end.

(** Modelled from the spec: section 4.6 compares the size of the memtable with
    [write_buffer_size]; the estimate is key and value bytes and eight bytes
    of tag for each entry. *)
Definition ApproximateMemoryUsage (m : MemTable) : Z :=
  fold_right
    (fun e acc => Z.of_nat (length (userKey e) + length (value e)) + 8 + acc)
    0 m.

(** ** Sorted tables and versions *)

(** Modelled from the spec: section 3, a block of a table: its entries and its
    own checksum.  Compression and restart points do not change what a read
    returns and are left out. *)
Record Block := { block_entries : list Entry; block_checksum : N }.

(** Modelled from the spec: section 3, an immutable numbered file of entries
    partitioned into blocks.  Block cache and filters do not change what a
    read returns and are left out. *)
Record Table := { file_number : N; blocks : list Block }.

(** Modelled from the spec: section 4.3, the bytes of an entry inside a block,
    over which the block checksum is taken. *)
Definition EncodeEntry (e : Entry) : bytes :=
  PutLengthPrefixedSlice (userKey e) ++ PutVarint (sequence e)
  ++ (match tag e with kTypeDeletion => x00 | kTypeValue => x01 end)
  :: PutLengthPrefixedSlice (value e).

(** Modelled from the spec: section 4.3, the checksum of a block over its
    encoded entries. *)
Definition BlockChecksum (es : list Entry) : N :=
  Checksum (flat_map EncodeEntry es).

(** Modelled from the spec: section 4.3, the builder closes a block by storing
    its checksum with it. *)
Definition MakeBlock (es : list Entry) : Block :=
  {| block_entries := es; block_checksum := BlockChecksum es |}.

(** Modelled from the spec: section 4.3, the bytes an entry adds to the block
    under construction. *)
Definition EntrySize (e : Entry) : Z :=
  Z.of_nat (length (userKey e) + length (value e)) + 8.

(** Modelled from the spec: section 4.3, the builder buffers entries into
    blocks up to the configured size. *)
Fixpoint BuildBlocks (block_size : Z) (cur : list Entry) (cur_size : Z)
    (es : list Entry) : list Block :=
  match es with
  | [] => match cur with [] => [] | _ => [MakeBlock (rev cur)] end
  | e :: r =>
      let sz := cur_size + EntrySize e in
      if block_size <=? sz
      then MakeBlock (rev (e :: cur)) :: BuildBlocks block_size [] 0 r
      else BuildBlocks block_size (e :: cur) sz r
  end.

(** Modelled from the spec: section 4.3, a table built from entries in sorted
    order under a file number. *)
Definition BuildTable (block_size : Z) (number : N) (es : list Entry) : Table :=
  {| file_number := number; blocks := BuildBlocks block_size [] 0 es |}.

(** Modelled from the spec: section 4.3, the entries of a table, block after
    block. *)
Definition TableEntries (t : Table) : list Entry :=
  flat_map block_entries (blocks t).

(** Modelled from the spec: section 4.3, the sparse index maps the last key of
    a block to the block: the candidate block of a lookup is the first one
    whose last key is not before the lookup key. *)
Definition block_covers `{Comparator} (target : Entry) (b : Block) : bool :=
  match last (block_entries b) with
  | Some e => match InternalKeyCompare e target with Lt => false | _ => true end
  | None => false
  end.

(** Modelled from the spec: section 4.3, [Get] searches the index for the
    candidate block, verifies its checksum when asked to, and searches the
    block. *)
Definition Table_Get `{Comparator} (verify : bool) (t : Table) (k : bytes)
    (snapshot : N) : LookupResult :=
  match find (block_covers (LookupKey k snapshot)) (blocks t) with
  | None => Absent
  | Some b =>
      if verify && negb (block_checksum b =? BlockChecksum (block_entries b))%N
      then Corrupt
      else MemTable_Get (block_entries b) k snapshot
  end.

(** Modelled from the spec: section 3, a version lists the live tables of
    every level, level 0 first and the newest table of a level first. *)
Definition Version := list (list Table).

(** Modelled from the spec: section 4.7, the tables are asked in order and the
    first match answers; a corrupt block ends the lookup. *)
Fixpoint Tables_Get `{Comparator} (verify : bool) (ts : list Table) (k : bytes)
    (snapshot : N) : LookupResult :=
  match ts with
  | [] => Absent
  | t :: ts' =>
      match Table_Get verify t k snapshot with
      | Absent => Tables_Get verify ts' k snapshot
      | r => r
      end
  end.

(** Modelled from the spec: section 4.7, a lookup in a version goes through
    each level from 0 upward. *)
Definition Version_Get `{Comparator} (verify : bool) (v : Version) (k : bytes)
    (snapshot : N) : LookupResult :=
  Tables_Get verify (concat v) k snapshot.

(** Modelled from the spec: section 4.4, a table added to a level of a version
    goes in front of the tables of that level; missing levels are created
    empty. *)
Fixpoint add_to_level {A} (level : nat) (x : A) (ls : list (list A))
  : list (list A) :=
  match level, ls with
  | O, [] => [[x]]
  | O, l :: r => (x :: l) :: r
  | S n, [] => [] :: add_to_level n x []
  | S n, l :: r => l :: add_to_level n x r
  end.

(** ** Write batches and the write-ahead log *)

(** Modelled from the spec: section 3, the operations of a write batch: Put
    and Delete. *)
Inductive Op :=
  | OpPut (key val : bytes)
  | OpDelete (key : bytes).

(** Modelled from the spec: section 3, a write batch is an ordered sequence of
    operations; the binding holds it behind a [WriteBatch*]. *)
Definition WriteBatch := list Op.

(** Modelled from the spec: [WriteBatch::Put] of the missing
    [leveldb/write_batch.h] appends a Put to the batch. *)
Definition WriteBatch_Put (b : WriteBatch) (k v : bytes) : WriteBatch :=
  b ++ [OpPut k v].

(** Modelled from the spec: [WriteBatch::Delete] of the missing
    [leveldb/write_batch.h] appends a Delete to the batch. *)
Definition WriteBatch_Delete (b : WriteBatch) (k : bytes) : WriteBatch :=
  b ++ [OpDelete k].

(** Modelled from the spec: section 4.1, an operation in the log: a tag byte,
    the length-prefixed key and, for a Put, the length-prefixed value. *)
Definition EncodeOp (o : Op) : bytes :=
  match o with
  | OpPut k v => x01 :: PutLengthPrefixedSlice k ++ PutLengthPrefixedSlice v
  | OpDelete k => x00 :: PutLengthPrefixedSlice k
  end.

(** Modelled from the spec: section 4.1, the payload of a batch: first
    sequence number, count, operations. *)
Definition EncodeBatch (seq : N) (ops : WriteBatch) : bytes :=
  PutVarint seq ++ PutVarint (N.of_nat (length ops)) ++ flat_map EncodeOp ops.

(** Modelled from the spec: the decoder of one logged operation, as recovery
    reads it (section 4.1); [None] on input that is not an operation. *)
Definition DecodeOp (l : bytes) : option (Op * bytes) :=
  match l with
  | t :: r =>
      if decide (t = x01) then
        match GetLengthPrefixedSlice r with
        | Some (k, r1) =>
            match GetLengthPrefixedSlice r1 with
            | Some (v, r2) => Some (OpPut k v, r2)
            | None => None
            end
        | None => None
        end
      else if decide (t = x00) then
        match GetLengthPrefixedSlice r with
        | Some (k, r1) => Some (OpDelete k, r1)
        | None => None
        end
      else None
  | [] => None
  end.

(** Modelled from the spec: the decoder of the [count] operations of a
    payload; the payload ends with the last of them. *)
Fixpoint DecodeOps (count : nat) (l : bytes) : option (list Op) :=
  match count with
  | O => match l with [] => Some [] | _ => None end
  | S n =>
      match DecodeOp l with
      | Some (o, r) =>
          match DecodeOps n r with
          | Some os => Some (o :: os)
          | None => None
          end
      | None => None
      end
  end.

(** Modelled from the spec: the decoder of a batch payload (section 4.1):
    first sequence number, count, operations. *)
Definition DecodeBatch (l : bytes) : option (N * WriteBatch) :=
  match GetVarint l with
  | Some (seq, r) =>
      match GetVarint r with
      | Some (count, r1) =>
          match DecodeOps (N.to_nat count) r1 with
          | Some ops => Some (seq, ops)
          | None => None
          end
      | None => None
      end
  | None => None
  end.

(** Modelled from the spec: section 4.1, a log record is its payload framed
    with a length and a checksum.  The split of long records into block
    fragments is left out. *)
Definition LogRecord (payload : bytes) : bytes :=
  PutVarint (N.of_nat (length payload)) ++ PutFixed32 (Checksum payload)
  ++ payload.

(** Modelled from the spec: section 4.1, what reading a record gives: the
    payload and the rest of the log, or a record that is corrupt or
    incomplete. *)
Inductive ReadResult :=
  | GoodRecord (payload rest : bytes)
  | BadRecord.

(** Modelled from the spec: section 4.1, reading one record: input too short
    for its header or its length, and a checksum mismatch, are a [BadRecord]. *)
Definition ReadRecord (l : bytes) : ReadResult :=
  match GetVarint l with
  | Some (n, r) =>
      match GetFixed32 r with
      | Some (crc, r1) =>
          if (N.to_nat n <=? length r1)%nat then
            let p := firstn (N.to_nat n) r1 in
            if (Checksum p =? crc)%N then GoodRecord p (skipn (N.to_nat n) r1)
            else BadRecord
          else BadRecord
      | None => BadRecord
      end
  | None => BadRecord
  end.

(** Modelled from the spec: section 4.6, the entry an operation becomes under
    its sequence number. *)
Definition EntryOf (seq : N) (o : Op) : Entry :=
  match o with
  | OpPut k v =>
      {| userKey := k; sequence := seq; tag := kTypeValue; value := v |}
  | OpDelete k =>
      {| userKey := k; sequence := seq; tag := kTypeDeletion; value := [] |}
  end.

(** Modelled from the spec: section 4.6, the operations of a batch take
    consecutive sequence numbers and are inserted in order. *)
Fixpoint ApplyBatch `{Comparator} (seq : N) (ops : WriteBatch) (m : MemTable)
  : MemTable :=
  match ops with
  | [] => m
  | o :: r => ApplyBatch (seq + 1)%N r (MemTable_Insert (EntryOf seq o) m)
  end.

(** ** Options *)

(** Modelled from the spec: section 6, [leveldb/options.h] is not among the
    sources; the fields are the ones [Java_org_tron_leveldb_DB_init] assigns. *)
Record Options := {
  comparator : Comparator;
  create_if_missing : bool;
  error_if_exists : bool;
  paranoid_checks : bool;
  info_log : Z;
  write_buffer_size : Z;
  max_open_files : Z;
  block_cache : Z;
  block_size : Z;
  compression : Z
}.

(** Modelled from the spec: the values of a default-constructed [Options] of
    the missing [leveldb/options.h]. *)
Definition Options_default : Options := {|
  comparator := BytewiseComparator;
  create_if_missing := false;
  error_if_exists := false;
  paranoid_checks := false;
  info_log := 0;
  write_buffer_size := 4194304;
  max_open_files := 1000;
  block_cache := 0;
  block_size := 4096;
  compression := 1
|}.

(** Modelled from the spec: the two fields of [ReadOptions] of the missing
    [leveldb/options.h] that the binding assigns. *)
Record ReadOptions := { verify_checksums : bool; fill_cache : bool }.

(** Modelled from the spec: the values of a default-constructed [ReadOptions]. *)
Definition ReadOptions_default : ReadOptions :=
  {| verify_checksums := false; fill_cache := true |}.

(** Modelled from the spec: the field of [WriteOptions] of the missing
    [leveldb/options.h] that the binding assigns (section 4.1, sync). *)
Record WriteOptions := { sync : bool }.

(** Modelled from the spec: a default-constructed [WriteOptions] does not
    sync. *)
Definition WriteOptions_default : WriteOptions := {| sync := false |}.

(** ** The database directory *)

(** Modelled from the spec: sections 3 and 4.4, the manifest is a log of
    version edits; [EditMalformed] is an entry that does not decode. *)
Inductive VersionEdit :=
  | EditComparator (name : string)
  | EditLastSequence (s : N)
  | EditAddFile (level : nat) (number : N)
  | EditDeleteFile (level : nat) (number : N)
  | EditMalformed.

(** Modelled from the spec: section 3, the files of one database: manifest,
    numbered table files and the write-ahead log with the length of its
    fsynced prefix.  The log holds the records of the writes that no table
    covers yet. *)
Record Disk := {
  manifest : list VersionEdit;
  table_files : list Table;
  log_file : bytes;
  log_synced : nat
}.

(** Modelled from the spec: section 4.4, what replaying the manifest rebuilds:
    comparator name, last sequence number and the tables of every level. *)
Record Recovered := {
  r_comparator : string;
  r_last_sequence : N;
  r_levels : Version
}.

(** Modelled from the spec: section 4.4, edits name tables by file number. *)
Definition has_number (n : N) (t : Table) : bool := (file_number t =? n)%N.

(** Modelled from the spec: section 4.4, an edit that deletes a table takes it
    out of its level; [None] when the level does not hold it. *)
Fixpoint remove_from_level (level : nat) (n : N) (ls : Version)
  : option Version :=
  match level, ls with
  | _, [] => None
  | O, l :: r =>
      if existsb (has_number n) l
      then Some (filter (fun t => negb (has_number n t)) l :: r)
      else None
  | S lv, l :: r =>
      match remove_from_level lv n r with
      | Some r' => Some (l :: r')
      | None => None
      end
  end.

(** Modelled from the spec: section 4.4, one edit applied to the state under
    recovery; an edit that is malformed or names a table that does not exist
    makes the manifest corrupt. *)
Definition ApplyEdit (files : list Table) (e : VersionEdit) (r : Recovered)
  : option Recovered :=
  match e with
  | EditComparator name =>
      Some {| r_comparator := name;
              r_last_sequence := r_last_sequence r; r_levels := r_levels r |}
  | EditLastSequence s =>
      Some {| r_comparator := r_comparator r;
              r_last_sequence := s; r_levels := r_levels r |}
  | EditAddFile level n =>
      match find (has_number n) files with
      | Some t =>
          Some {| r_comparator := r_comparator r;
                  r_last_sequence := r_last_sequence r;
                  r_levels := add_to_level level t (r_levels r) |}
      | None => None
      end
  | EditDeleteFile level n =>
      match remove_from_level level n (r_levels r) with
      | Some ls =>
          Some {| r_comparator := r_comparator r;
                  r_last_sequence := r_last_sequence r; r_levels := ls |}
      | None => None
      end
  | EditMalformed => None
  end.

(** Modelled from the spec: section 4.4, recovery replays the edits of the
    manifest in order; [None] is a corrupt manifest. *)
Fixpoint ReplayManifest (files : list Table) (edits : list VersionEdit)
    (r : Recovered) : option Recovered :=
  match edits with
  | [] => Some r
  | e :: es =>
      match ApplyEdit files e r with
      | Some r' => ReplayManifest files es r'
      | None => None
      end
  end.

(** Modelled from the spec: section 4.4, the state the replay of a manifest
    starts from. *)
Definition Recovered_empty : Recovered :=
  {| r_comparator := EmptyString; r_last_sequence := 0; r_levels := [] |}.

(** Modelled from the spec: section 4.1, recovery reads the log record by
    record and stops at the first corrupt or incomplete one; what follows is
    discarded.  The second component counts the bytes of the records read. *)
Fixpoint ReadBatches (fuel : nat) (l : bytes)
  : list (N * WriteBatch) * nat :=
  match fuel with
  | O => ([], O)
  | S f =>
      match ReadRecord l with
      | GoodRecord p rest =>
          match DecodeBatch p with
          | Some b =>
              let '(bs, n) := ReadBatches f rest in
              (b :: bs, (length l - length rest + n)%nat)
          | None => ([], O)
          end
      | BadRecord => ([], O)
      end
  end.

(** Modelled from the spec: section 4.1, the batches of a log and the length
    of its readable prefix; a log has fewer records than bytes. *)
Definition RecoverLog (l : bytes) : list (N * WriteBatch) * nat :=
  ReadBatches (length l) l.

(** Modelled from the spec: section 4.6, the last sequence number of a batch
    that starts at its first one. *)
Definition LastSequenceOf (b : N * WriteBatch) : N :=
  (fst b + N.of_nat (length (snd b)) - 1)%N.

(** Modelled from the spec: section 4.1, recovery applies the batches of the
    log to a memtable and advances the last sequence number. *)
Definition ReplayBatches `{Comparator} (bs : list (N * WriteBatch))
    (m : MemTable) (last : N) : MemTable * N :=
  fold_left
    (fun acc b => (ApplyBatch (fst b) (snd b) (fst acc),
                   N.max (snd acc) (LastSequenceOf b)))
    bs (m, last).

(** ** The database object *)

(** Modelled from the spec: sections 3, 4.6 and 4.7, the state behind a [DB*]:
    memtable, memtable pending flush with the length of the log prefix that
    holds its records, current version, last sequence number, and the
    directory it owns. *)
Record DBImpl := {
  dbname_ : string;
  options_ : Options;
  mem_ : MemTable;
  imm_ : option MemTable;
  imm_log_end_ : nat;
  current_ : Version;
  last_sequence_ : N;
  disk_ : Disk
}.

(** Modelled from the spec: section 4.4, a new table takes a file number above
    those in use. *)
Definition NewFileNumber (d : Disk) : N :=
  (1 + fold_right (fun t acc => N.max (file_number t) acc) 0 (table_files d))%N.

(** Modelled from the spec: sections 2 and 4.4, the memtable pending flush
    becomes a new level-0 table, the edit that adds it goes to the manifest,
    and the part of the log that the table now covers is dropped. *)
Definition WriteLevel0Table (db : DBImpl) : DBImpl :=
  match imm_ db with
  | None => db
  | Some m =>
      let d := disk_ db in
      let number := NewFileNumber d in
      let t := BuildTable (block_size (options_ db)) number m in
      {| dbname_ := dbname_ db; options_ := options_ db; mem_ := mem_ db;
         imm_ := None; imm_log_end_ := 0;
         current_ := add_to_level 0 t (current_ db);
         last_sequence_ := last_sequence_ db;
         disk_ := {| manifest := manifest d
                       ++ [EditAddFile 0 number;
                           EditLastSequence (last_sequence_ db)];
                     table_files := t :: table_files d;
                     log_file := skipn (imm_log_end_ db) (log_file d);
                     log_synced := log_synced d - imm_log_end_ db |} |}
  end.

(** Modelled from the spec: section 4.6, when the memtable exceeds its budget
    after a write it is swapped for an empty one and queued for flush; a flush
    still pending is waited for first. *)
Definition MakeRoomForWrite (db : DBImpl) : DBImpl :=
  if ApproximateMemoryUsage (mem_ db) <=? write_buffer_size (options_ db)
  then db
  else
    let db1 := WriteLevel0Table db in
    {| dbname_ := dbname_ db1; options_ := options_ db1; mem_ := [];
       imm_ := Some (mem_ db1);
       imm_log_end_ := length (log_file (disk_ db1));
       current_ := current_ db1; last_sequence_ := last_sequence_ db1;
       disk_ := disk_ db1 |}.

(** Modelled from the spec: sections 4.1 and 4.6, the batch is appended to the
    log as one record, fsynced when [sync] is set, given a contiguous block of
    sequence numbers and applied to the memtable. *)
Definition LogAndInsert (wo : WriteOptions) (updates : WriteBatch)
    (db : DBImpl) : DBImpl :=
  let C := comparator (options_ db) in
  let seq := (last_sequence_ db + 1)%N in
  let d := disk_ db in
  let log' := log_file d ++ LogRecord (EncodeBatch seq updates) in
  {| dbname_ := dbname_ db; options_ := options_ db;
     mem_ := ApplyBatch seq updates (mem_ db);
     imm_ := imm_ db; imm_log_end_ := imm_log_end_ db;
     current_ := current_ db;
     last_sequence_ := (last_sequence_ db + N.of_nat (length updates))%N;
     disk_ := {| manifest := manifest d; table_files := table_files d;
                 log_file := log';
                 log_synced :=
                   if sync wo then length log' else log_synced d |} |}.

(** Modelled from the spec: sections 4.1 and 4.6, when the storage fails the
    append fails with IOError and nothing is applied; otherwise the batch is
    logged and applied, and room is made for the next write. *)
Definition DBImpl_Write (io_ok : bool) (wo : WriteOptions)
    (updates : WriteBatch) (db : DBImpl) : Status * DBImpl :=
  if negb io_ok then (Status_IOError "log append failed", db)
  else (Status_OK, MakeRoomForWrite (LogAndInsert wo updates db)).

(** Modelled from the spec: section 6, [DB::Put] of the missing engine is a
    [Write] of a batch of one Put. *)
Definition DBImpl_Put (io_ok : bool) (wo : WriteOptions) (k v : bytes)
    (db : DBImpl) : Status * DBImpl :=
  DBImpl_Write io_ok wo (WriteBatch_Put [] k v) db.

(** Modelled from the spec: section 6, [DB::Delete] of the missing engine is a
    [Write] of a batch of one Delete. *)
Definition DBImpl_Delete (io_ok : bool) (wo : WriteOptions) (k : bytes)
    (db : DBImpl) : Status * DBImpl :=
  DBImpl_Write io_ok wo (WriteBatch_Delete [] k) db.

(** Modelled from the spec: section 4.7, [Get] checks the active memtable,
    then the memtable pending flush, then each level from 0 upward, and
    answers with the first match. *)
Definition DBImpl_Lookup (verify : bool) (k : bytes) (db : DBImpl)
  : LookupResult :=
  let C := comparator (options_ db) in
  let snapshot := last_sequence_ db in
  match MemTable_Get (mem_ db) k snapshot with
  | Absent =>
      match
        match imm_ db with
        | Some m => MemTable_Get m k snapshot
        | None => Absent
        end
      with
      | Absent => Version_Get verify (current_ db) k snapshot
      | r => r
      end
  | r => r
  end.

(** Modelled from the spec: sections 4.7 and 7, [DB::Get] of the missing
    engine: the value with an OK status, NotFound for a key that is absent or
    deleted, Corruption for a block that fails its checksum. *)
Definition DBImpl_Get (ro : ReadOptions) (k : bytes) (db : DBImpl)
  : Status * bytes :=
  let verify := verify_checksums ro || paranoid_checks (options_ db) in
  match DBImpl_Lookup verify k db with
  | Found v => (Status_OK, v)
  | Deleted | Absent => (Status_NotFound EmptyString, [])
  | Corrupt => (Status_Corruption "block checksum mismatch", [])
  end.

(** ** Opening, crashing and recovering *)

(** Modelled from the spec: section 6, the directory and state of a database
    that [Open] creates: a manifest that records the comparator, no tables and
    an empty log. *)
Definition NewDB (name : string) (options : Options) : DBImpl :=
  {| dbname_ := name; options_ := options; mem_ := []; imm_ := None;
     imm_log_end_ := 0; current_ := []; last_sequence_ := 0;
     disk_ := {| manifest := [EditComparator (@Name (comparator options));
                              EditLastSequence 0];
                 table_files := []; log_file := []; log_synced := 0 |} |}.

(** Modelled from the spec: sections 4.1, 4.4 and 6, [Open] fails with IOError
    when the storage fails, with InvalidArgument on bad options or a
    comparator mismatch, and with a Corruption status (CorruptManifest) when
    the manifest does not replay; otherwise the version is rebuilt from the
    manifest, the log is replayed into a new memtable, and what follows the
    last good record is discarded. *)
Definition DBImpl_Open (io_ok : bool) (options : Options) (name : string)
    (dir : option Disk) : Status * option DBImpl :=
  if negb io_ok then (Status_IOError name, None)
  else
    match dir with
    | None =>
        if create_if_missing options
        then (Status_OK, Some (NewDB name options))
        else (Status_InvalidArgument
                (name +:+ ": does not exist (create_if_missing is false)"),
              None)
    | Some d =>
        if error_if_exists options
        then (Status_InvalidArgument
                (name +:+ ": exists (error_if_exists is true)"), None)
        else
          match ReplayManifest (table_files d) (manifest d) Recovered_empty
          with
          | None => (Status_Corruption "corrupt manifest", None)
          | Some r =>
              if negb (String.eqb (r_comparator r)
                                  (@Name (comparator options)))
              then (Status_InvalidArgument
                      (r_comparator r
                       +:+ " does not match existing comparator"), None)
              else
                let C := comparator options in
                let rec := RecoverLog (log_file d) in
                let replayed :=
                  ReplayBatches (fst rec) [] (r_last_sequence r) in
                let kept := snd rec in
                (Status_OK,
                 Some {| dbname_ := name; options_ := options;
                         mem_ := fst replayed; imm_ := None;
                         imm_log_end_ := 0;
                         current_ := r_levels r;
                         last_sequence_ := snd replayed;
                         disk_ := {| manifest := manifest d;
                                     table_files := table_files d;
                                     log_file := firstn kept (log_file d);
                                     log_synced :=
                                       Nat.min (log_synced d) kept |} |})
          end
    end.

(** Modelled from the spec: section 4.1, what a crash leaves of a directory:
    manifest and tables are durable; of the log, the fsynced prefix survives
    and, of the rest, the bytes that had reached the disk, [keep] of them
    counted from the start of the file. *)
Definition CrashImage (keep : nat) (d : Disk) : Disk :=
  let n := Nat.max (log_synced d) (Nat.min keep (length (log_file d))) in
  {| manifest := manifest d; table_files := table_files d;
     log_file := firstn n (log_file d); log_synced := n |}.

(** Modelled from the spec: section 4.1, the directory at a crash in the
    middle of [Write]: only the first [written] bytes of the batch's record
    have been appended. *)
Definition TornWrite (written : nat) (updates : WriteBatch) (db : DBImpl)
  : Disk :=
  let d := disk_ db in
  let record := LogRecord (EncodeBatch (last_sequence_ db + 1)%N updates) in
  {| manifest := manifest d; table_files := table_files d;
     log_file := log_file d ++ firstn written record;
     log_synced := log_synced d |}.

(** ** Iterators *)

(** Modelled from the spec: section 3, [a] is not after [b] in the internal
    key order. *)
Definition ikey_le `{Comparator} : relation Entry :=
  fun a b => InternalKeyCompare a b <> Gt.

(** Modelled from the spec: the internal key order of section 3 is decided by
    [InternalKeyCompare]. *)
#[global] Instance ikey_le_dec `{Comparator} : RelDecision ikey_le.
Proof.
  intros a b. unfold ikey_le.
  destruct (InternalKeyCompare a b);
    [left; discriminate | left; discriminate
     | right; intros E; apply E; reflexivity].
Defined.

(** Modelled from the spec: section 4.7, the merging iterator returns the
    entries of two sources in internal key order; on a tie the entry of the
    newer source comes first. *)
Definition MergeEntries `{Comparator} (a b : list Entry) : list Entry :=
  list_merge ikey_le a b.

(** Modelled from the spec: section 4.7, the sources of a read, newest first:
    memtable, memtable pending flush, tables of each level from 0 upward. *)
Definition Sources (db : DBImpl) : list (list Entry) :=
  mem_ db
  :: match imm_ db with Some m => [m] | None => [] end
  ++ map TableEntries (concat (current_ db)).

(** Modelled from the spec: section 4.7, the merging iterator over all
    sources. *)
Definition MergeSources `{Comparator} (srcs : list (list Entry)) : list Entry :=
  fold_right MergeEntries [] srcs.

(** Modelled from the spec: section 4.7, whether [k] is the user key the
    iterator has already answered for. *)
Definition same_user_key `{Comparator} (skip : option bytes) (k : bytes)
  : bool :=
  match skip with
  | Some s => Compare k s =? 0
  | None => false
  end.

(** Modelled from the spec: section 4.7, entries above the snapshot are
    skipped, the versions of one user key collapse to the newest visible one,
    and a user key whose newest visible entry is a DELETE is skipped. *)
Fixpoint Collapse `{Comparator} (snapshot : N) (skip : option bytes)
    (l : list Entry) : list (bytes * bytes) :=
  match l with
  | [] => []
  | e :: r =>
      if (sequence e <=? snapshot)%N && negb (same_user_key skip (userKey e))
      then
        match tag e with
        | kTypeValue =>
            (userKey e, value e) :: Collapse snapshot (Some (userKey e)) r
        | kTypeDeletion => Collapse snapshot (Some (userKey e)) r
        end
      else Collapse snapshot skip r
  end.

(** Modelled from the spec: section 4.7, the state behind an [Iterator*]: the
    view fixed at creation and the index of the current entry; an index past
    the end is not valid. *)
Record Iterator := {
  it_comparator : Comparator;
  it_view : list (bytes * bytes);
  it_pos : nat
}.

(** Modelled from the spec: section 4.7, [DB::NewIterator] of the missing
    engine fixes the view at the current sequence number; the new iterator is
    not valid until it is positioned. *)
Definition DBImpl_NewIterator (ro : ReadOptions) (db : DBImpl) : Iterator :=
  let C := comparator (options_ db) in
  let view := Collapse (last_sequence_ db) None (MergeSources (Sources db)) in
  {| it_comparator := C; it_view := view; it_pos := length view |}.

(** Modelled from the spec: [Iterator::Valid] of the missing
    [leveldb/iterator.h]: the iterator is at an entry. *)
Definition Iterator_Valid (it : Iterator) : bool :=
  (it_pos it <? length (it_view it))%nat.

(** Modelled from the spec: the iterator moved to the index [pos] of its view. *)
Definition Iterator_at (it : Iterator) (pos : nat) : Iterator :=
  {| it_comparator := it_comparator it; it_view := it_view it; it_pos := pos |}.

(** Modelled from the spec: [Iterator::SeekToFirst] of the missing
    [leveldb/iterator.h]: the first entry, not valid on an empty view. *)
Definition Iterator_SeekToFirst (it : Iterator) : Iterator := Iterator_at it 0.

(** Modelled from the spec: [Iterator::SeekToLast] of the missing
    [leveldb/iterator.h]: the last entry, not valid on an empty view. *)
Definition Iterator_SeekToLast (it : Iterator) : Iterator :=
  Iterator_at it (length (it_view it) - 1).

(** Modelled from the spec: section 4.7, the index of the first entry whose
    key is at or after the target. *)
Fixpoint first_at_or_after `{Comparator} (target : bytes)
    (l : list (bytes * bytes)) : nat :=
  match l with
  | [] => O
  | kv :: r =>
      if 0 <=? Compare (fst kv) target then O
      else S (first_at_or_after target r)
  end.

(** Modelled from the spec: [Iterator::Seek] of the missing
    [leveldb/iterator.h]: the first entry at or after the target. *)
Definition Iterator_Seek (target : bytes) (it : Iterator) : Iterator :=
  Iterator_at it (@first_at_or_after (it_comparator it) target (it_view it)).

(** Modelled from the spec: [Iterator::Next] of the missing
    [leveldb/iterator.h] requires a valid iterator; [None] is the failed
    requirement. *)
Definition Iterator_Next (it : Iterator) : option Iterator :=
  if Iterator_Valid it then Some (Iterator_at it (S (it_pos it))) else None.

(** Modelled from the spec: [Iterator::Prev] of the missing
    [leveldb/iterator.h] requires a valid iterator; before the first entry the
    iterator is not valid. *)
Definition Iterator_Prev (it : Iterator) : option Iterator :=
  if Iterator_Valid it then
    Some (Iterator_at it
            (match it_pos it with
             | O => length (it_view it)
             | S p => p
             end))
  else None.

(** Modelled from the spec: [Iterator::key] of the missing
    [leveldb/iterator.h] requires a valid iterator; [None] is the failed
    requirement. *)
Definition Iterator_key (it : Iterator) : option bytes :=
  fst <$> it_view it !! it_pos it.

(** Modelled from the spec: [Iterator::value] of the missing
    [leveldb/iterator.h] requires a valid iterator; [None] is the failed
    requirement. *)
Definition Iterator_value (it : Iterator) : option bytes :=
  snd <$> it_view it !! it_pos it.

(** ** Properties *)

(** Modelled from the spec: section 6, the level a property name ends with. *)
Definition digit_of (s : string) : option nat :=
  if String.eqb s "0" then Some 0%nat else if String.eqb s "1" then Some 1%nat
  else if String.eqb s "2" then Some 2%nat
  else if String.eqb s "3" then Some 3%nat
  else if String.eqb s "4" then Some 4%nat
  else if String.eqb s "5" then Some 5%nat
  else if String.eqb s "6" then Some 6%nat else None.

(** Modelled from the spec: section 6, diagnostic counters by name; the table
    count of a level is the one modelled. *)
Definition DBImpl_GetProperty (name : string) (db : DBImpl) : bool * string :=
  let prefix := "leveldb.num-files-at-level" in
  if String.prefix prefix name then
    match digit_of (String.substring (String.length prefix)
                      (String.length name - String.length prefix) name) with
    | Some level =>
        (true, pretty (length (nth level (current_ db) [])))
    | None => (false, EmptyString)
    end
  else (false, EmptyString).

(** ** The JNI environment *)

(** A Java exception raised by [ThrowNew]; it is delivered to the Java
    caller when the native method returns. *)
Record Throwable := { exception_class : string; message : string }.

(** The objects behind the [jlong] handles kept in Java fields. *)
Inductive NativeObject :=
  | ObjDB (db : DBImpl)
  | ObjIterator (it : Iterator)
  | ObjWriteBatch (b : WriteBatch)
  | ObjComparator (c : DBComparator)
  | ObjLogger (jobj : Z).

(** What a native method can see and change: the pending Java exception, the
    native heap behind the [jlong] handles, the directories on disk, the
    directories held open, and whether the storage fails. *)
Record JNIEnv := {
  pending : option Throwable;
  heap : gmap Z NativeObject;
  filesystem : gmap string Disk;
  locks : gset string;
  storage_failing : bool
}.

(** Native code runs in a state monad over the environment; [None] is
    undefined behaviour (a wild pointer, a failed [REQUIRES]). *)
Definition JNI (A : Type) : Type := JNIEnv -> option (A * JNIEnv).

(** [return a;] *)
#[global] Instance JNI_ret : MRet JNI := fun A a env => Some (a, env).

(** Sequencing of two statements; undefined behaviour propagates. *)
#[global] Instance JNI_bind : MBind JNI := fun A B f c env =>
  match c env with
  | Some (a, env') => f a env'
  | None => None
  end.

(** The environment with its pending exception replaced. *)
Definition set_pending (t : option Throwable) (env : JNIEnv) : JNIEnv :=
  {| pending := t; heap := heap env; filesystem := filesystem env;
     locks := locks env; storage_failing := storage_failing env |}.

(** The environment with its native heap replaced. *)
Definition set_heap (h : gmap Z NativeObject) (env : JNIEnv) : JNIEnv :=
  {| pending := pending env; heap := h; filesystem := filesystem env;
     locks := locks env; storage_failing := storage_failing env |}.

(** [env->ThrowNew(env->FindClass(cls), msg)] *)
Definition ThrowNew (cls msg : string) : JNI unit := fun env =>
  Some (tt, set_pending (Some {| exception_class := cls; message := msg |}) env).

(** [new T(...)]: a fresh non-null address. *)
Definition new_object (o : NativeObject) : JNI Z := fun env =>
  let p := fresh ({[0]} ∪ dom (heap env)) in
  Some (p, set_heap (<[p := o]> (heap env)) env).

(** [delete p] *)
Definition delete_object (p : Z) : JNI unit := fun env =>
  Some (tt, set_heap (delete p (heap env)) env).

(** [reinterpret_cast<DB*>(p)] followed by a call through it: defined only
    when [p] is the non-null address of a live database. *)
Definition as_DB (p : Z) : JNI DBImpl := fun env =>
  match heap env !! p with
  | Some (ObjDB db) => if decide (p = 0) then None else Some (db, env)
  | _ => None
  end.

(** [reinterpret_cast<Iterator*>(p)] followed by a call through it: defined
    only when [p] is the non-null address of a live iterator. *)
Definition as_Iterator (p : Z) : JNI Iterator := fun env =>
  match heap env !! p with
  | Some (ObjIterator it) => if decide (p = 0) then None else Some (it, env)
  | _ => None
  end.

(** [reinterpret_cast<WriteBatch*>(p)] followed by a call through it: defined
    only when [p] is the non-null address of a live batch. *)
Definition as_WriteBatch (p : Z) : JNI WriteBatch := fun env =>
  match heap env !! p with
  | Some (ObjWriteBatch b) => if decide (p = 0) then None else Some (b, env)
  | _ => None
  end.

(** The object at address [p] after a method has changed it. *)
Definition store (p : Z) (o : NativeObject) : JNI unit := fun env =>
  Some (tt, set_heap (<[p := o]> (heap env)) env).

(** Undefined behaviour. *)
Definition undefined {A} : JNI A := fun _ => None.

(** Modelled from the spec: whether the storage accepts writes (section 4.1:
    [Append] fails with IOError on disk write failure). *)
Definition io_ok : JNI bool := fun env =>
  Some (negb (storage_failing env), env).

(** ** The engine's entry points, called through a [DB*] *)

(** Modelled from the spec: [DB::Open(options, name, &db)] of the missing
    engine, run on the directory [name] of the file system; the new database
    lives at a fresh address.  The spec does not say what opening a directory
    twice does: here a directory has one owner and a second [Open] fails as a
    storage failure. *)
Definition DB_Open (options : Options) (name : string) : JNI (Status * Z) :=
  fun env =>
    if decide (name ∈ locks env)
    then Some ((Status_IOError ("lock " +:+ name +:+ ": already held"), 0), env)
    else
      match DBImpl_Open (negb (storage_failing env)) options name
                        (filesystem env !! name) with
      | (s, Some db) =>
          let p := fresh ({[0]} ∪ dom (heap env)) in
          Some ((s, p),
                {| pending := pending env;
                   heap := <[p := ObjDB db]> (heap env);
                   filesystem := filesystem env;
                   locks := {[name]} ∪ locks env;
                   storage_failing := storage_failing env |})
      | (s, None) => Some ((s, 0), env)
      end.

(** Modelled from the spec: [delete db] of the missing engine (section 6,
    Close releases all resources): the directory goes back to the file system
    and is free to be opened again. *)
Definition DB_delete (p : Z) : JNI unit := fun env =>
  match heap env !! p with
  | Some (ObjDB db) =>
      if decide (p = 0) then None
      else
        Some (tt,
              {| pending := pending env;
                 heap := delete p (heap env);
                 filesystem := <[dbname_ db := disk_ db]> (filesystem env);
                 locks := locks env ∖ {[dbname_ db]};
                 storage_failing := storage_failing env |})
  | _ => None
  end.

(** Modelled from the spec: [db->Write(options, batch)] through a [DB*]:
    [DBImpl_Write] on the database at [p]. *)
Definition DB_Write (p : Z) (wo : WriteOptions) (updates : WriteBatch)
  : JNI Status :=
  db ← as_DB p;
  good ← io_ok;
  let r := DBImpl_Write good wo updates db in
  _ ← store p (ObjDB (snd r));
  mret (fst r).

(** Modelled from the spec: [db->Put(options, key, value)] through a [DB*]:
    [DBImpl_Put] on the database at [p]. *)
Definition DB_Put (p : Z) (wo : WriteOptions) (k v : bytes) : JNI Status :=
  db ← as_DB p;
  good ← io_ok;
  let r := DBImpl_Put good wo k v db in
  _ ← store p (ObjDB (snd r));
  mret (fst r).

(** Modelled from the spec: [db->Delete(options, key)] through a [DB*]:
    [DBImpl_Delete] on the database at [p]. *)
Definition DB_Delete (p : Z) (wo : WriteOptions) (k : bytes) : JNI Status :=
  db ← as_DB p;
  good ← io_ok;
  let r := DBImpl_Delete good wo k db in
  _ ← store p (ObjDB (snd r));
  mret (fst r).

(** Modelled from the spec: [db->Get(options, key, &value)] through a [DB*]:
    [DBImpl_Get] on the database at [p]. *)
Definition DB_Get (p : Z) (ro : ReadOptions) (k : bytes)
  : JNI (Status * bytes) :=
  db ← as_DB p;
  mret (DBImpl_Get ro k db).

(** Modelled from the spec: [db->NewIterator(options)] through a [DB*]: the
    iterator of [DBImpl_NewIterator] at a fresh address. *)
Definition DB_NewIterator (p : Z) (ro : ReadOptions) : JNI Z :=
  db ← as_DB p;
  new_object (ObjIterator (DBImpl_NewIterator ro db)).

(** Modelled from the spec: [db->GetProperty(name, &value)] through a [DB*]:
    [DBImpl_GetProperty] on the database at [p]. *)
Definition DB_GetProperty (p : Z) (name : string) : JNI (bool * string) :=
  db ← as_DB p;
  mret (DBImpl_GetProperty name db).

(** A call through an [Iterator*] that moves the iterator; a failed
    requirement of the method is undefined behaviour. *)
Definition Iter_update (p : Z) (f : Iterator -> option Iterator) : JNI unit :=
  it ← as_Iterator p;
  match f it return JNI unit with
  | Some it' => store p (ObjIterator it')
  | None => undefined
  end.

(** A call through an [Iterator*] that reads from the iterator; a failed
    requirement of the method is undefined behaviour. *)
Definition Iter_read {A} (p : Z) (f : Iterator -> option A) : JNI A :=
  it ← as_Iterator p;
  match f it return JNI A with
  | Some a => mret a
  | None => undefined
  end.

(** ** The Java objects *)

(** The fields of [org.tron.leveldb.DB] the binding reads and writes. *)
Record JavaDB := {
  nativeDb : Z;
  nativeComparator : Z;
  nativeLogger : Z;
  verifyChecksumsSet : bool
}.

(** [org.tron.leveldb.Options]; [comparator] and [logger] may be null. *)
Record JavaOptions := {
  createIfMissing : bool;
  paranoidChecks : bool;
  compressionType_persistentId : Z;
  blockSize : Z;
  writeBufferSize : Z;
  cacheSize : Z;
  maxOpenFiles : Z;
  jcomparator : option DBComparator;
  jlogger : option Z
}.

(** [org.tron.leveldb.ReadOptions]: the two fields [getReadOptions] reads. *)
Record JavaReadOptions := { verifyChecksums : bool; fillCache : bool }.

(** [org.tron.leveldb.DBIterator]: its [nativeHandle] field. *)
Record JavaDBIterator := { iter_nativeHandle : Z }.

(** [org.tron.leveldb.WriteBatch]: its [nativeHandle] field. *)
Record JavaWriteBatch := { batch_nativeHandle : Z }.

(** A [jint] or [jlong] assigned to a [size_t]. *)
Definition to_size_t (z : Z) : Z := z mod 18446744073709551616.

(** [env->SetLongField(jdb, nativeDb, p)] *)
Definition set_nativeDb (p : Z) (jdb : JavaDB) : JavaDB :=
  {| nativeDb := p; nativeComparator := nativeComparator jdb;
     nativeLogger := nativeLogger jdb;
     verifyChecksumsSet := verifyChecksumsSet jdb |}.

(** [env->SetLongField(jdb, nativeComparator, p)] *)
Definition set_nativeComparator (p : Z) (jdb : JavaDB) : JavaDB :=
  {| nativeDb := nativeDb jdb; nativeComparator := p;
     nativeLogger := nativeLogger jdb;
     verifyChecksumsSet := verifyChecksumsSet jdb |}.

(** [env->SetLongField(jdb, nativeLogger, p)] *)
Definition set_nativeLogger (p : Z) (jdb : JavaDB) : JavaDB :=
  {| nativeDb := nativeDb jdb; nativeComparator := nativeComparator jdb;
     nativeLogger := p; verifyChecksumsSet := verifyChecksumsSet jdb |}.

(** [options.comparator = ptr] *)
Definition set_comparator (c : Comparator) (o : Options) : Options :=
  {| comparator := c; create_if_missing := create_if_missing o;
     error_if_exists := error_if_exists o;
     paranoid_checks := paranoid_checks o; info_log := info_log o;
     write_buffer_size := write_buffer_size o;
     max_open_files := max_open_files o; block_cache := block_cache o;
     block_size := block_size o; compression := compression o |}.

(** [options.info_log = ptr] *)
Definition set_info_log (p : Z) (o : Options) : Options :=
  {| comparator := comparator o; create_if_missing := create_if_missing o;
     error_if_exists := error_if_exists o;
     paranoid_checks := paranoid_checks o; info_log := p;
     write_buffer_size := write_buffer_size o;
     max_open_files := max_open_files o; block_cache := block_cache o;
     block_size := block_size o; compression := compression o |}.

(** ** The binding: src/jni/leveldbjni.cc *)

(** [static bool check(JNIEnv* env, const Status& status)] (line 134): true on
    an OK status; otherwise raises FileNotFoundException on NotFound,
    IOException on Corruption and RuntimeException on anything else, and
    returns false. *)
Definition check (status : Status) : JNI bool :=
  if ok status then mret true
  else if IsNotFound status then
    _ ← ThrowNew "java/io/FileNotFoundException" (ToString status);
    mret false
  else if IsCorruption status then
    _ ← ThrowNew "java/io/IOException" (ToString status);
    mret false
  else
    _ ← ThrowNew "java/lang/RuntimeException" (ToString status);
    mret false.

(** [Java_org_tron_leveldb_DB_init] (line 152): copies the Java options into
    an [Options], wraps comparator and logger when they are not null, opens
    the database and stores its address in [nativeDb]; an InvalidArgument
    status is raised as FileNotFoundException, any other failure goes through
    [check]. *)
Definition Java_org_tron_leveldb_DB_init (jdb : JavaDB) (jfile : string)
    (joptions : JavaOptions) : JNI JavaDB :=
  let options :=
    {| comparator := comparator Options_default;
       create_if_missing := createIfMissing joptions;
       error_if_exists := error_if_exists Options_default;
       paranoid_checks := paranoidChecks joptions;
       info_log := info_log Options_default;
       write_buffer_size := to_size_t (writeBufferSize joptions);
       max_open_files := maxOpenFiles joptions;
       block_cache := to_size_t (cacheSize joptions);
       block_size := to_size_t (blockSize joptions);
       compression := compressionType_persistentId joptions |} in
  r1 ← match jcomparator joptions return JNI (JavaDB * Options) with
       | Some jc =>
           ptr ← new_object (ObjComparator jc);
           mret (set_nativeComparator ptr jdb,
                 set_comparator (JavaComparator jc) options)
       | None => mret (jdb, options)
       end;
  r2 ← match jlogger joptions return JNI (JavaDB * Options) with
       | Some jl =>
           ptr ← new_object (ObjLogger jl);
           mret (set_nativeLogger ptr (fst r1), set_info_log ptr (snd r1))
       | None => mret r1
       end;
  let path := jfile in
  r ← DB_Open (snd r2) path;
  let status := fst r in
  if IsInvalidArgument status then
    _ ← ThrowNew "java/io/FileNotFoundException" (ToString status);
    mret (fst r2)
  else
    good ← check status;
    if good : bool then mret (set_nativeDb (snd r) (fst r2))
    else mret (fst r2).

(** [ReadOptions getReadOptions(JNIEnv* env, jobject jread_options)] (line
    223) *)
Definition getReadOptions (jread_options : JavaReadOptions) : ReadOptions :=
  {| verify_checksums := verifyChecksums jread_options;
     fill_cache := fillCache jread_options |}.

(** [void throw_not_open(JNIEnv* env)] (line 234) *)
Definition throw_not_open : JNI unit :=
  ThrowNew "java/lang/IllegalStateException" "DB is not open".

(** [Java_org_tron_leveldb_DB_iterator] (line 239) *)
Definition Java_org_tron_leveldb_DB_iterator (jdb : JavaDB)
    (jread_options : JavaReadOptions) : JNI (option JavaDBIterator) :=
  let db := nativeDb jdb in
  if decide (db = 0) then
    _ ← throw_not_open;
    mret None
  else
    let read_options := getReadOptions jread_options in
    iterator ← DB_NewIterator db read_options;
    mret (Some {| iter_nativeHandle := iterator |}).

(** [Java_org_tron_leveldb_DB_close] (line 257): deletes the database when the
    handle is not null, and zeroes the handle. *)
Definition Java_org_tron_leveldb_DB_close (jdb : JavaDB) : JNI JavaDB :=
  let db := nativeDb jdb in
  _ ← (if decide (db = 0) then mret tt else DB_delete db);
  mret (set_nativeDb 0 jdb).

(** [Java_org_tron_leveldb_DB_put___3B_3B] (line 266): [put(key, value)] with
    default write options.  The status that [db->Put] returns is dropped (line
    282). *)
Definition Java_org_tron_leveldb_DB_put___3B_3B (jdb : JavaDB)
    (key data : bytes) : JNI unit :=
  let db := nativeDb jdb in
  if decide (db = 0) then throw_not_open
  else
    let key_slice := Slice key (GetArrayLength key) in
    let data_slice := Slice data (GetArrayLength data) in
    _ ← DB_Put db WriteOptions_default key_slice data_slice;
    mret tt.

(** [Java_org_tron_leveldb_DB_put___3B_3BZ] (line 291): [put(key, value,
    sync)].  The status that [db->Put] returns is dropped (line 311). *)
Definition Java_org_tron_leveldb_DB_put___3B_3BZ (jdb : JavaDB)
    (key data : bytes) (jsync : bool) : JNI unit :=
  let db := nativeDb jdb in
  if decide (db = 0) then throw_not_open
  else
    let key_slice := Slice key (GetArrayLength key) in
    let data_slice := Slice data (GetArrayLength data) in
    let options := {| sync := jsync |} in
    _ ← DB_Put db options key_slice data_slice;
    mret tt.

(** [Java_org_tron_leveldb_DB_get] (line 319): NotFound returns [NULL] before
    [check] is reached. *)
Definition Java_org_tron_leveldb_DB_get (jdb : JavaDB) (key : bytes)
  : JNI (option bytes) :=
  let db := nativeDb jdb in
  if decide (db = 0) then
    _ ← throw_not_open;
    mret None
  else
    let options :=
      if verifyChecksumsSet jdb
      then {| verify_checksums := true;
              fill_cache := fill_cache ReadOptions_default |}
      else ReadOptions_default in
    let key_slice := Slice key (GetArrayLength key) in
    r ← DB_Get db options key_slice;
    let status := fst r in
    let value := snd r in
    if IsNotFound status then mret None
    else
      good ← check status;
      if good : bool then mret (Some (Slice value (length value)))
      else mret None.

(** [Java_org_tron_leveldb_DB_delete] (line 357).  The status that
    [db->Delete] returns is dropped (line 373). *)
Definition Java_org_tron_leveldb_DB_delete (jdb : JavaDB) (key : bytes)
    (jsync : bool) : JNI unit :=
  let db := nativeDb jdb in
  if decide (db = 0) then throw_not_open
  else
    let key_slice := Slice key (GetArrayLength key) in
    let options := {| sync := jsync |} in
    _ ← DB_Delete db options key_slice;
    mret tt.

(** [Java_org_tron_leveldb_DB_createWriteBatch] (line 379) *)
Definition Java_org_tron_leveldb_DB_createWriteBatch (jdb : JavaDB)
  : JNI (option JavaWriteBatch) :=
  let db := nativeDb jdb in
  if decide (db = 0) then
    _ ← throw_not_open;
    mret None
  else
    batch ← new_object (ObjWriteBatch []);
    mret (Some {| batch_nativeHandle := batch |}).

(** [Java_org_tron_leveldb_DB_write] (line 397): the batch handle is used
    without a null test; the status goes through [check]. *)
Definition Java_org_tron_leveldb_DB_write (jdb : JavaDB)
    (jbatch : JavaWriteBatch) (jsync : bool) : JNI unit :=
  let db := nativeDb jdb in
  if decide (db = 0) then throw_not_open
  else
    batch ← as_WriteBatch (batch_nativeHandle jbatch);
    let options := {| sync := jsync |} in
    status ← DB_Write db options batch;
    _ ← check status;
    mret tt.

(** [Java_org_tron_leveldb_DB_getProperty] (line 417): the boolean that
    [db->GetProperty] returns is dropped. *)
Definition Java_org_tron_leveldb_DB_getProperty (jdb : JavaDB)
    (jname : string) : JNI (option string) :=
  let db := nativeDb jdb in
  if decide (db = 0) then
    _ ← throw_not_open;
    mret None
  else
    r ← DB_GetProperty db jname;
    mret (Some (snd r)).

(** [void throw_it_not_open(JNIEnv* env)] (line 435) *)
Definition throw_it_not_open : JNI unit :=
  ThrowNew "java/lang/IllegalStateException" "DB iterator is not open".

(** [Java_org_tron_leveldb_DBIterator_close] (line 440) *)
Definition Java_org_tron_leveldb_DBIterator_close (jiter : JavaDBIterator)
  : JNI JavaDBIterator :=
  let iter := iter_nativeHandle jiter in
  _ ← (if decide (iter = 0) then mret tt
       else _ ← as_Iterator iter; delete_object iter);
  mret {| iter_nativeHandle := 0 |}.

(** [Java_org_tron_leveldb_DBIterator_seekToFirst] (line 451) *)
Definition Java_org_tron_leveldb_DBIterator_seekToFirst
    (jiter : JavaDBIterator) : JNI unit :=
  let iter := iter_nativeHandle jiter in
  if decide (iter = 0) then throw_it_not_open
  else Iter_update iter (fun it => Some (Iterator_SeekToFirst it)).

(** [Java_org_tron_leveldb_DBIterator_hasNext] (line 462): [iter->Valid()] *)
Definition Java_org_tron_leveldb_DBIterator_hasNext (jiter : JavaDBIterator)
  : JNI bool :=
  let iter := iter_nativeHandle jiter in
  if decide (iter = 0) then
    _ ← throw_it_not_open;
    mret false
  else Iter_read iter (fun it => Some (Iterator_Valid it)).

(** [Java_org_tron_leveldb_DBIterator_next] (line 473): reads [key()] and
    [value()], then calls [Next()]. *)
Definition Java_org_tron_leveldb_DBIterator_next (jiter : JavaDBIterator)
  : JNI (option (bytes * bytes)) :=
  let iter := iter_nativeHandle jiter in
  if decide (iter = 0) then
    _ ← throw_it_not_open;
    mret None
  else
    key_array ← Iter_read iter Iterator_key;
    value_array ← Iter_read iter Iterator_value;
    _ ← Iter_update iter Iterator_Next;
    mret (Some (Slice key_array (length key_array),
                Slice value_array (length value_array))).

(** [Java_org_tron_leveldb_DBIterator_peekNext] (line 500): reads [key()] and
    [value()] and does not move. *)
Definition Java_org_tron_leveldb_DBIterator_peekNext (jiter : JavaDBIterator)
  : JNI (option (bytes * bytes)) :=
  let iter := iter_nativeHandle jiter in
  if decide (iter = 0) then
    _ ← throw_it_not_open;
    mret None
  else
    key_array ← Iter_read iter Iterator_key;
    value_array ← Iter_read iter Iterator_value;
    mret (Some (Slice key_array (length key_array),
                Slice value_array (length value_array))).

(** [Java_org_tron_leveldb_DBIterator_seekToLast] (line 524) *)
Definition Java_org_tron_leveldb_DBIterator_seekToLast
    (jiter : JavaDBIterator) : JNI unit :=
  let iter := iter_nativeHandle jiter in
  if decide (iter = 0) then throw_it_not_open
  else Iter_update iter (fun it => Some (Iterator_SeekToLast it)).

(** [Java_org_tron_leveldb_DBIterator_hasPrev] (line 537): [iter->Valid()] *)
Definition Java_org_tron_leveldb_DBIterator_hasPrev (jiter : JavaDBIterator)
  : JNI bool :=
  let iter := iter_nativeHandle jiter in
  if decide (iter = 0) then
    _ ← throw_it_not_open;
    mret false
  else Iter_read iter (fun it => Some (Iterator_Valid it)).

(** [Java_org_tron_leveldb_DBIterator_prev] (line 550): calls [Prev()] and
    returns nothing. *)
Definition Java_org_tron_leveldb_DBIterator_prev (jiter : JavaDBIterator)
  : JNI unit :=
  let iter := iter_nativeHandle jiter in
  if decide (iter = 0) then throw_it_not_open
  else Iter_update iter Iterator_Prev.

(** [Java_org_tron_leveldb_DBIterator_peekPrev] (line 563): reads [key()] and
    [value()] and does not move. *)
Definition Java_org_tron_leveldb_DBIterator_peekPrev (jiter : JavaDBIterator)
  : JNI (option (bytes * bytes)) :=
  let iter := iter_nativeHandle jiter in
  if decide (iter = 0) then
    _ ← throw_it_not_open;
    mret None
  else
    key_array ← Iter_read iter Iterator_key;
    value_array ← Iter_read iter Iterator_value;
    mret (Some (Slice key_array (length key_array),
                Slice value_array (length value_array))).

(** [Java_org_tron_leveldb_DBIterator_seek] (line 587) *)
Definition Java_org_tron_leveldb_DBIterator_seek (jiter : JavaDBIterator)
    (key : bytes) : JNI unit :=
  let iter := iter_nativeHandle jiter in
  if decide (iter = 0) then throw_it_not_open
  else
    let key_slice := Slice key (GetArrayLength key) in
    Iter_update iter (fun it => Some (Iterator_Seek key_slice it)).

(** [Java_org_tron_leveldb_WriteBatch_close] (line 608) *)
Definition Java_org_tron_leveldb_WriteBatch_close (jbatch : JavaWriteBatch)
  : JNI JavaWriteBatch :=
  let batch := batch_nativeHandle jbatch in
  _ ← (if decide (batch = 0) then mret tt
       else _ ← as_WriteBatch batch; delete_object batch);
  mret {| batch_nativeHandle := 0 |}.

(** [void throw_batch_not_open(JNIEnv* env)] (line 618) *)
Definition throw_batch_not_open : JNI unit :=
  ThrowNew "java/lang/IllegalStateException" "WriteBatch is not open".

(** [Java_org_tron_leveldb_WriteBatch_put] (line 623) *)
Definition Java_org_tron_leveldb_WriteBatch_put (jbatch : JavaWriteBatch)
    (key val : bytes) : JNI unit :=
  let batch := batch_nativeHandle jbatch in
  if decide (batch = 0) then throw_batch_not_open
  else
    let key_slice := Slice key (GetArrayLength key) in
    let value_slice := Slice val (GetArrayLength val) in
    b ← as_WriteBatch batch;
    store batch (ObjWriteBatch (WriteBatch_Put b key_slice value_slice)).

(** [Java_org_tron_leveldb_WriteBatch_delete] (line 650) *)
Definition Java_org_tron_leveldb_WriteBatch_delete (jbatch : JavaWriteBatch)
    (key : bytes) : JNI unit :=
  let batch := batch_nativeHandle jbatch in
  if decide (batch = 0) then throw_batch_not_open
  else
    let key_slice := Slice key (GetArrayLength key) in
    b ← as_WriteBatch batch;
    store batch (ObjWriteBatch (WriteBatch_Delete b key_slice)).

(** ** Vocabulary of the statements *)

(** The Java object [jdb] holds the handle of the live database [db]. *)
Definition is_open (jdb : JavaDB) (env : JNIEnv) (db : DBImpl) : Prop :=
  nativeDb jdb <> 0 /\ heap env !! nativeDb jdb = Some (ObjDB db).

(** The Java object [jiter] holds the handle of the live iterator [it]. *)
Definition iter_open (jiter : JavaDBIterator) (env : JNIEnv) (it : Iterator)
  : Prop :=
  iter_nativeHandle jiter <> 0
  /\ heap env !! iter_nativeHandle jiter = Some (ObjIterator it).

(** The exception the binding raises on a closed database. *)
Definition IllegalState : Throwable :=
  {| exception_class := "java/lang/IllegalStateException";
     message := "DB is not open" |}.

(** The read options [Java_org_tron_leveldb_DB_get] hands to the engine. *)
Definition get_options (jdb : JavaDB) : ReadOptions :=
  if verifyChecksumsSet jdb
  then {| verify_checksums := true;
          fill_cache := fill_cache ReadOptions_default |}
  else ReadOptions_default.

(** The first half of [Java_org_tron_leveldb_DB_init]: the engine options
    built from the Java options, with the comparator and logger wrappers
    allocated and recorded in the Java object. *)
Definition init_options (jdb : JavaDB) (joptions : JavaOptions)
  : JNI (JavaDB * Options) :=
  let options :=
    {| comparator := comparator Options_default;
       create_if_missing := createIfMissing joptions;
       error_if_exists := error_if_exists Options_default;
       paranoid_checks := paranoidChecks joptions;
       info_log := info_log Options_default;
       write_buffer_size := to_size_t (writeBufferSize joptions);
       max_open_files := maxOpenFiles joptions;
       block_cache := to_size_t (cacheSize joptions);
       block_size := to_size_t (blockSize joptions);
       compression := compressionType_persistentId joptions |} in
  r1 ← match jcomparator joptions return JNI (JavaDB * Options) with
       | Some jc =>
           ptr ← new_object (ObjComparator jc);
           mret (set_nativeComparator ptr jdb,
                 set_comparator (JavaComparator jc) options)
       | None => mret (jdb, options)
       end;
  match jlogger joptions return JNI (JavaDB * Options) with
  | Some jl =>
      ptr ← new_object (ObjLogger jl);
      mret (set_nativeLogger ptr (fst r1), set_info_log ptr (snd r1))
  | None => mret r1
  end.

(** The exception class an InvalidArgument or NotFound status is raised as. *)
Definition FileNotFoundException : string := "java/io/FileNotFoundException".

(** The exception class a Corruption status is raised as. *)
Definition IOException : string := "java/io/IOException".

(** The exception class any other failure is raised as. *)
Definition RuntimeException : string := "java/lang/RuntimeException".

(** How a Java client walks an iterator forwards: [seekToFirst], then
    [next] for as long as [hasNext] answers true.  [fuel] bounds the number
    of steps. *)
Fixpoint scan_forward (fuel : nat) (jiter : JavaDBIterator)
  : JNI (list (bytes * bytes)) :=
  match fuel with
  | O => mret []
  | S f =>
      more ← Java_org_tron_leveldb_DBIterator_hasNext jiter;
      if more : bool then
        e ← Java_org_tron_leveldb_DBIterator_next jiter;
        rest ← scan_forward f jiter;
        mret (match e with Some kv => kv :: rest | None => rest end)
      else mret []
  end.

(** Forward iteration from [seekToFirst]. *)
Definition iterate_forward (fuel : nat) (jiter : JavaDBIterator)
  : JNI (list (bytes * bytes)) :=
  _ ← Java_org_tron_leveldb_DBIterator_seekToFirst jiter;
  scan_forward fuel jiter.

(** Backwards: [seekToLast], then [peekPrev] and [prev] for as long as
    [hasPrev] answers true ([prev] itself returns nothing). *)
Fixpoint scan_backward (fuel : nat) (jiter : JavaDBIterator)
  : JNI (list (bytes * bytes)) :=
  match fuel with
  | O => mret []
  | S f =>
      more ← Java_org_tron_leveldb_DBIterator_hasPrev jiter;
      if more : bool then
        e ← Java_org_tron_leveldb_DBIterator_peekPrev jiter;
        _ ← Java_org_tron_leveldb_DBIterator_prev jiter;
        rest ← scan_backward f jiter;
        mret (match e with Some kv => kv :: rest | None => rest end)
      else mret []
  end.

(** Backward iteration from [seekToLast]. *)
Definition iterate_backward (fuel : nat) (jiter : JavaDBIterator)
  : JNI (list (bytes * bytes)) :=
  _ ← Java_org_tron_leveldb_DBIterator_seekToLast jiter;
  scan_backward fuel jiter.

(** Every source of the store (memtables and tables) is in internal key
    order: the memtable keeps it on insertion and the table builder only
    accepts entries in that order (sections 4.2 and 4.3). *)
Definition sorted_sources (db : DBImpl) : Prop :=
  Forall (Sorted (@ikey_le (comparator (options_ db)))) (Sources db).

(** The user key [a] is strictly before [b] in comparator order. *)
Definition key_lt `{Comparator} : relation bytes := fun a b => Compare a b < 0.

(** The user keys of a sequence of entries are strictly increasing in
    comparator order. *)
Definition strictly_increasing `{Comparator} (l : list (bytes * bytes)) : Prop :=
  StronglySorted key_lt (map fst l).

(** The key an operation of a batch writes. *)
Definition op_key (o : Op) : bytes :=
  match o with OpPut k _ => k | OpDelete k => k end.

(** What a lookup answers once the operation is the newest one for its key. *)
Definition op_answer (o : Op) : LookupResult :=
  match o with OpPut _ v => Found v | OpDelete _ => Deleted end.

(** The last operation of a batch on the user key [k], if any. *)
Fixpoint last_op_on `{Comparator} (k : bytes) (ops : WriteBatch) : option Op :=
  match ops with
  | [] => None
  | o :: r =>
      match last_op_on k r with
      | Some o' => Some o'
      | None => if Compare (op_key o) k =? 0 then Some o else None
      end
  end.

(** What the Java caller of [get] receives for a lookup answer. *)
Definition java_value (r : LookupResult) : option bytes :=
  match r with Found v => Some v | _ => None end.

(** The log reads to its end from position [start]. *)
Definition boundary (start : nat) (d : Disk) : Prop :=
  (start <= length (log_file d))%nat
  /\ snd (RecoverLog (skipn start (log_file d)))
     = (length (log_file d) - start)%nat.

(** The batches in the log from position [start] carry no sequence number
    above [last]. *)
Definition batches_bounded (start : nat) (last : N) (d : Disk) : Prop :=
  Forall (fun b => (LastSequenceOf b <= last)%N)
         (fst (RecoverLog (skipn start (log_file d)))).

(** The consistency of a live database with its directory: the manifest
    replays and names the comparator in use; the log reads to its end, also
    from the position up to which the memtable pending flush covers it; the
    fsynced prefix lies within the log; and no sequence number in the
    manifest, the log or the memtable is above the last one handed out. *)
Definition consistent (db : DBImpl) : Prop :=
  let d := disk_ db in
  exists r,
    ReplayManifest (table_files d) (manifest d) Recovered_empty = Some r
    /\ r_comparator r = @Name (comparator (options_ db))
    /\ boundary 0 d
    /\ batches_bounded 0 (last_sequence_ db) d
    /\ (imm_ db <> None ->
        boundary (imm_log_end_ db) d
        /\ batches_bounded (imm_log_end_ db) (last_sequence_ db) d)
    /\ (log_synced d <= length (log_file d))%nat
    /\ (r_last_sequence r <= last_sequence_ db)%N
    /\ Forall (fun e => (sequence e <= last_sequence_ db)%N) (mem_ db).

(** Every table file of the directory is in internal key order, as the
    table builder leaves it (section 4.3). *)
Definition tables_sorted `{Comparator} (d : Disk) : Prop :=
  Forall (fun t => Sorted ikey_le (TableEntries t)) (table_files d).

(** Modelled from the spec: the process kill of section 8.  Java objects and
    native heap are gone, no directory is held open any more, and every open
    database leaves the crash image of its directory in the file system. *)
Definition Crash (keep : nat) (env : JNIEnv) : JNIEnv :=
  {| pending := None;
     heap := ∅;
     filesystem :=
       map_fold
         (fun _ o fs =>
            match o with
            | ObjDB db => <[dbname_ db := CrashImage keep (disk_ db)]> fs
            | _ => fs
            end)
         (filesystem env) (heap env);
     locks := ∅;
     storage_failing := storage_failing env |}.

(** ** A concrete store *)

(** The bytes of a string literal. *)
Definition key (s : string) : bytes := String.list_byte_of_string s.

(** Options with a write buffer small enough for a few writes to fill it. *)
Definition example_options : Options :=
  {| comparator := BytewiseComparator; create_if_missing := true;
     error_if_exists := false; paranoid_checks := false; info_log := 0;
     write_buffer_size := 64; max_open_files := 1000; block_cache := 0;
     block_size := 4096; compression := 1 |}.

(** A table that a compaction has moved to level 1; it holds an older value
    of the key "a". *)
Definition example_table : Table :=
  BuildTable 4096 1
    [ {| userKey := key "a"; sequence := 1; tag := kTypeValue;
         value := key "old" |};
      {| userKey := key "c"; sequence := 2; tag := kTypeValue;
         value := key "3" |} ].

(** An open store over that table: the key b is in the memtable and in the
    log, not yet fsynced. *)
Definition example_db : DBImpl :=
  {| dbname_ := "/data/db"; options_ := example_options;
     mem_ := [ {| userKey := key "b"; sequence := 3; tag := kTypeValue;
                  value := key "2" |} ];
     imm_ := None; imm_log_end_ := 0;
     current_ := [[]; [example_table]];
     last_sequence_ := 3;
     disk_ := {| manifest := [EditComparator "leveldb.BytewiseComparator";
                              EditAddFile 1 1; EditLastSequence 2];
                 table_files := [example_table];
                 log_file :=
                   LogRecord (EncodeBatch 3 [OpPut (key "b") (key "2")]);
                 log_synced := 0 |} |}.

(** The batch of the scenario of section 8. *)
Definition example_batch : WriteBatch :=
  [OpPut (key "x") (key "1"); OpPut (key "y") (key "2")].

(** An iterator over the store, at its first entry. *)
Definition example_iterator : Iterator :=
  Iterator_SeekToFirst (DBImpl_NewIterator ReadOptions_default example_db).

(** The native heap: the store at address 1, the batch at 2, the iterator at
    3. *)
Definition example_heap : gmap Z NativeObject :=
  <[3 := ObjIterator example_iterator]>
    (<[2 := ObjWriteBatch example_batch]> (<[1 := ObjDB example_db]> ∅)).

(** The environment of the running process; the storage works. *)
Definition example_env : JNIEnv :=
  {| pending := None; heap := example_heap; filesystem := ∅;
     locks := {["/data/db"]}; storage_failing := false |}.

(** The same environment with a storage that fails. *)
Definition example_env_failing : JNIEnv :=
  {| pending := None; heap := example_heap; filesystem := ∅;
     locks := {["/data/db"]}; storage_failing := true |}.

(** The Java object of the store. *)
Definition example_jdb : JavaDB :=
  {| nativeDb := 1; nativeComparator := 0; nativeLogger := 0;
     verifyChecksumsSet := false |}.

(** The Java object of the batch. *)
Definition example_jbatch : JavaWriteBatch := {| batch_nativeHandle := 2 |}.

(** The Java object of the iterator. *)
Definition example_jiter : JavaDBIterator := {| iter_nativeHandle := 3 |}.

(** Java options that create the directory when it is missing. *)
Definition example_joptions : JavaOptions :=
  {| createIfMissing := true; paranoidChecks := false;
     compressionType_persistentId := 1; blockSize := 4096;
     writeBufferSize := 64; cacheSize := 0; maxOpenFiles := 1000;
     jcomparator := None; jlogger := None |}.

(** A fresh process over an empty file system. *)
Definition empty_env : JNIEnv :=
  {| pending := None; heap := ∅; filesystem := ∅; locks := ∅;
     storage_failing := false |}.

(** A Java object of class DB before [init]. *)
Definition new_jdb : JavaDB :=
  {| nativeDb := 0; nativeComparator := 0; nativeLogger := 0;
     verifyChecksumsSet := false |}.

(** What a run returns, without the environment it leaves. *)
Definition value_of {A} (r : option (A * JNIEnv)) : option A :=
  match r with Some (a, _) => Some a | None => None end.

(** The exception a run leaves pending, by class name. *)
Definition raised {A} (r : option (A * JNIEnv)) : option string :=
  match r with
  | Some (_, env) =>
      match pending env with
      | Some t => Some (exception_class t)
      | None => None
      end
  | None => None
  end.

(** Run [first] from [env], kill the process, and run [second] on what the
    crash left. *)
Definition after_crash {A B} (keep : nat) (first : JNI A) (second : JNI B)
    (env : JNIEnv) : option (B * JNIEnv) :=
  match first env with
  | Some (_, env1) => second (Crash keep env1)
  | None => None
  end.

(** Opening the directory of the examples. *)
Definition open_example : JNI JavaDB :=
  Java_org_tron_leveldb_DB_init new_jdb "/data/db" example_joptions.

(** A directory whose manifest has an entry that does not decode. *)
Definition corrupt_directory : Disk :=
  {| manifest := [EditComparator "leveldb.BytewiseComparator"; EditMalformed];
     table_files := []; log_file := []; log_synced := 0 |}.

(** A fresh process over a file system that holds the directory [d]. *)
Definition env_with (d : Disk) (failing : bool) : JNIEnv :=
  {| pending := None; heap := ∅; filesystem := {["/data/db" := d]};
     locks := ∅; storage_failing := failing |}.

(** ** The logger wrapper *)

(** [vsnprintf(buffer, size, format, ap)]: what the buffer holds before its
    terminating NUL, [text] being the full expansion of [format] with [ap].
    The expansion itself is the C library's and is taken as given. *)
Definition vsnprintf (size : nat) (text : bytes) : bytes :=
  firstn (size - 1) text.

(** [env->NewStringUTF(buffer)]: the bytes of the C string in [buffer], up
    to its first NUL. *)
Fixpoint NewStringUTF (buffer : bytes) : bytes :=
  match buffer with
  | [] => []
  | c :: r => if decide (c = x00) then [] else c :: NewStringUTF r
  end.

(** [JavaLogger::Logv] (line 125): formats into [char buffer[1024]] and
    hands the result to the Java method [log]; the value is the string that
    [log] receives. *)
Definition JavaLogger_Logv (text : bytes) : bytes :=
  let buffer := vsnprintf 1024 text in
  let jstr := NewStringUTF buffer in
  jstr.

(** ** Vocabulary of the further properties *)

(** The Java object [jbatch] holds the handle of the live batch [b]. *)
Definition batch_open (jbatch : JavaWriteBatch) (env : JNIEnv) (b : WriteBatch)
  : Prop :=
  batch_nativeHandle jbatch <> 0
  /\ heap env !! batch_nativeHandle jbatch = Some (ObjWriteBatch b).

(** The exception the binding raises on a closed iterator. *)
Definition IteratorNotOpen : Throwable :=
  {| exception_class := "java/lang/IllegalStateException";
     message := "DB iterator is not open" |}.

(** The exception the binding raises on a closed batch. *)
Definition BatchNotOpen : Throwable :=
  {| exception_class := "java/lang/IllegalStateException";
     message := "WriteBatch is not open" |}.

(** The Java call that adds the operation [o] to a batch. *)
Definition batch_add (jbatch : JavaWriteBatch) (o : Op) : JNI unit :=
  match o with
  | OpPut k v => Java_org_tron_leveldb_WriteBatch_put jbatch k v
  | OpDelete k => Java_org_tron_leveldb_WriteBatch_delete jbatch k
  end.

(** The order laws of a Java comparator, on the [int] its [compare]
    returns. *)
Definition java_total_order (jc : DBComparator) : Prop :=
  (forall a, jcompare jc a a = 0)
  /\ (forall a b, jcompare jc a b = 0 -> jcompare jc b a = 0)
  /\ (forall a b, jcompare jc a b < 0 <-> 0 < jcompare jc b a)
  /\ (forall a b c,
         jcompare jc a b < 0 -> jcompare jc b c <= 0 -> jcompare jc a c < 0)
  /\ (forall a b c,
         jcompare jc a b <= 0 -> jcompare jc b c <= 0 -> jcompare jc a c <= 0).

(** The values of a Java [int]. *)
Definition jint (z : Z) : Prop := -2147483648 <= z < 2147483648.

(** The values of a Java [long]. *)
Definition jlong (z : Z) : Prop :=
  -9223372036854775808 <= z < 9223372036854775808.

(** A Java [int] or [long] as the [size_t] it converts to: negative values
    wrap around. *)
Definition as_unsigned (z : Z) : Z :=
  if 0 <=? z then z else 18446744073709551616 + z.

(** A Java comparator that orders keys as the default one does, under a
    name of its own. *)
Definition example_jcomparator : DBComparator :=
  {| jname := "example.Bytewise";
     jcompare := bytewise_compare;
     jfindShortestSeparator := fun start _ => start;
     jfindShortSuccessor := fun k => k |}.

(** Java options that name that comparator. *)
Definition example_joptions_comparator : JavaOptions :=
  {| createIfMissing := true; paranoidChecks := false;
     compressionType_persistentId := 1; blockSize := -1;
     writeBufferSize := 64; cacheSize := 0; maxOpenFiles := 1000;
     jcomparator := Some example_jcomparator; jlogger := None |}.

(** A table whose only block does not match its checksum. *)
Definition corrupt_table : Table :=
  {| file_number := 1;
     blocks := [ {| block_entries :=
                      [ {| userKey := key "a"; sequence := 1;
                           tag := kTypeValue; value := key "old" |} ];
                    block_checksum := 0 |} ] |}.

(** An open store over that table. *)
Definition corrupt_db : DBImpl :=
  {| dbname_ := "/data/db"; options_ := example_options;
     mem_ := []; imm_ := None; imm_log_end_ := 0;
     current_ := [[]; [corrupt_table]];
     last_sequence_ := 1;
     disk_ := {| manifest := [EditComparator "leveldb.BytewiseComparator";
                              EditAddFile 1 1; EditLastSequence 1];
                 table_files := [corrupt_table];
                 log_file := []; log_synced := 0 |} |}.

(** The environment of a process that holds that store open. *)
Definition corrupt_env : JNIEnv :=
  {| pending := None; heap := <[1 := ObjDB corrupt_db]> ∅; filesystem := ∅;
     locks := {["/data/db"]}; storage_failing := false |}.

(** A Java object of the store that asks for checksums to be verified. *)
Definition verifying_jdb : JavaDB :=
  {| nativeDb := 1; nativeComparator := 0; nativeLogger := 0;
     verifyChecksumsSet := true |}.

(* ===================================================================== *)
(** * Part II: lemmas and theorems                                        *)
(* ===================================================================== *)

Ltac jni_simpl :=
  unfold mbind, mret, JNI_bind, JNI_ret, throw_not_open, throw_it_not_open,
    ThrowNew, as_DB, as_Iterator, as_WriteBatch, store, io_ok, undefined,
    Iter_read, Iter_update, DB_Put, DB_Delete, DB_Write, DB_Get,
    DB_NewIterator, DB_GetProperty, new_object, delete_object in *;
  simpl in *.

Lemma Slice_all (s : bytes) : Slice s (length s) = s.
Proof. unfold Slice. apply firstn_all. Qed.

(** *** Running the primitives *)

Lemma bind_run {A B} (c : JNI A) (f : A -> JNI B) (env env' : JNIEnv) (a : A) :
  c env = Some (a, env') -> (c ≫= f) env = f a env'.
Proof. intros H. unfold mbind, JNI_bind. rewrite H. reflexivity. Qed.

Lemma as_DB_open (jdb : JavaDB) (env : JNIEnv) (db : DBImpl) :
  is_open jdb env db -> as_DB (nativeDb jdb) env = Some (db, env).
Proof.
  intros [Hnz Hdb]. unfold as_DB. rewrite Hdb.
  destruct (decide (nativeDb jdb = 0)); [contradiction | reflexivity].
Qed.

Lemma as_Iterator_open (jiter : JavaDBIterator) (env : JNIEnv) (it : Iterator) :
  iter_open jiter env it ->
  as_Iterator (iter_nativeHandle jiter) env = Some (it, env).
Proof.
  intros [Hnz Hit]. unfold as_Iterator. rewrite Hit.
  destruct (decide (iter_nativeHandle jiter = 0)); [contradiction | reflexivity].
Qed.

Lemma Iter_read_open {A} (jiter : JavaDBIterator) (env : JNIEnv)
    (it : Iterator) (f : Iterator -> option A) (a : A) :
  iter_open jiter env it -> f it = Some a ->
  Iter_read (iter_nativeHandle jiter) f env = Some (a, env).
Proof.
  intros Hopen Hf. unfold Iter_read.
  rewrite (bind_run _ _ _ _ _ (as_Iterator_open _ _ _ Hopen)), Hf. reflexivity.
Qed.

Lemma Iter_update_open (jiter : JavaDBIterator) (env : JNIEnv)
    (it it' : Iterator) (f : Iterator -> option Iterator) :
  iter_open jiter env it -> f it = Some it' ->
  Iter_update (iter_nativeHandle jiter) f env
  = Some (tt, set_heap (<[iter_nativeHandle jiter := ObjIterator it']>
                          (heap env)) env).
Proof.
  intros Hopen Hf. unfold Iter_update.
  rewrite (bind_run _ _ _ _ _ (as_Iterator_open _ _ _ Hopen)), Hf. reflexivity.
Qed.

Lemma iter_open_update (jiter : JavaDBIterator) (env : JNIEnv)
    (it' : Iterator) :
  iter_nativeHandle jiter <> 0 ->
  iter_open jiter
    (set_heap (<[iter_nativeHandle jiter := ObjIterator it']> (heap env)) env)
    it'.
Proof. intros Hnz. split; [exact Hnz |]. simpl. apply lookup_insert_eq. Qed.

Ltac not_null :=
  match goal with
  | |- context [decide (?p = 0)] =>
      destruct (decide (p = 0)) as [? | _];
      [ solve [ contradiction
              | match goal with H : is_open _ _ _ |- _ =>
                  destruct H; contradiction end
              | match goal with H : iter_open _ _ _ |- _ =>
                  destruct H; contradiction end ] | ]
  end.

(** ** The closed database *)

Lemma close_result (jdb : JavaDB) (env : JNIEnv) (db : DBImpl) :
  is_open jdb env db ->
  Java_org_tron_leveldb_DB_close jdb env
  = Some (set_nativeDb 0 jdb,
          {| pending := pending env;
             heap := delete (nativeDb jdb) (heap env);
             filesystem := <[dbname_ db := disk_ db]> (filesystem env);
             locks := locks env ∖ {[dbname_ db]};
             storage_failing := storage_failing env |}).
Proof.
  intros [Hnz Hdb]. unfold Java_org_tron_leveldb_DB_close, DB_delete.
  jni_simpl. destruct (decide (nativeDb jdb = 0)) as [E | _]; [contradiction |].
  rewrite Hdb. destruct (decide (nativeDb jdb = 0)); [contradiction | reflexivity].
Qed.

(** C3: on an open store [Close] succeeds, and afterwards each of put (both
    overloads), get, delete, write, iterator creation, createWriteBatch and
    getProperty raises IllegalStateException, returns nothing and leaves the
    environment otherwise as [Close] left it. *)
Theorem closed_store_operations_fail
    (jdb : JavaDB) (env : JNIEnv) (db : DBImpl) :
  is_open jdb env db ->
  exists jdb' env',
    Java_org_tron_leveldb_DB_close jdb env = Some (jdb', env')
    /\ nativeDb jdb' = 0
    /\ let thrown := set_pending (Some IllegalState) env' in
       (forall key data,
           Java_org_tron_leveldb_DB_put___3B_3B jdb' key data env'
           = Some (tt, thrown))
       /\ (forall key data jsync,
           Java_org_tron_leveldb_DB_put___3B_3BZ jdb' key data jsync env'
           = Some (tt, thrown))
       /\ (forall key,
           Java_org_tron_leveldb_DB_get jdb' key env' = Some (None, thrown))
       /\ (forall key jsync,
           Java_org_tron_leveldb_DB_delete jdb' key jsync env'
           = Some (tt, thrown))
       /\ (forall jbatch jsync,
           Java_org_tron_leveldb_DB_write jdb' jbatch jsync env'
           = Some (tt, thrown))
       /\ (forall jread_options,
           Java_org_tron_leveldb_DB_iterator jdb' jread_options env'
           = Some (None, thrown))
       /\ Java_org_tron_leveldb_DB_createWriteBatch jdb' env'
          = Some (None, thrown)
       /\ (forall jname,
           Java_org_tron_leveldb_DB_getProperty jdb' jname env'
           = Some (None, thrown)).
Proof.
  intros Hopen. eexists _, _. split; [apply (close_result _ _ _ Hopen) |].
  split; [reflexivity |]. cbv zeta. repeat split; reflexivity.
Qed.

(** ** Reading *)

Lemma get_result (jdb : JavaDB) (env : JNIEnv) (db : DBImpl) (key : bytes) :
  is_open jdb env db ->
  Java_org_tron_leveldb_DB_get jdb key env
  = match DBImpl_Lookup (verifyChecksumsSet jdb
                         || paranoid_checks (options_ db)) key db with
    | Found v => Some (Some v, env)
    | Deleted | Absent => Some (None, env)
    | Corrupt =>
        Some (None,
              set_pending
                (Some {| exception_class := "java/io/IOException";
                         message := "Corruption: block checksum mismatch" |})
                env)
    end.
Proof.
  intros [Hnz Hdb]. unfold Java_org_tron_leveldb_DB_get, GetArrayLength.
  rewrite Slice_all.
  destruct (decide (nativeDb jdb = 0)) as [E | _]; [contradiction |].
  unfold DB_Get, as_DB, mbind, JNI_bind. rewrite Hdb.
  destruct (decide (nativeDb jdb = 0)) as [E | _]; [contradiction |].
  unfold mret, JNI_ret, DBImpl_Get.
  replace (verify_checksums _ || paranoid_checks (options_ db))
    with (verifyChecksumsSet jdb || paranoid_checks (options_ db))
    by (destruct (verifyChecksumsSet jdb); reflexivity).
  destruct (DBImpl_Lookup _ key db); simpl; rewrite ?Slice_all; reflexivity.
Qed.

(** C4: on an open store, when the engine's [Get] answers NotFound for a key
    (the key is absent), the binding returns null, raises no exception and
    leaves the environment as it was. *)
Theorem get_absent_key_returns_null
    (jdb : JavaDB) (env : JNIEnv) (db : DBImpl) (key : bytes) :
  is_open jdb env db ->
  IsNotFound (fst (DBImpl_Get (get_options jdb) key db)) = true ->
  Java_org_tron_leveldb_DB_get jdb key env = Some (None, env).
Proof.
  intros Hopen Hnf. rewrite (get_result _ _ _ _ Hopen).
  unfold DBImpl_Get in Hnf.
  replace (verify_checksums _ || paranoid_checks (options_ db))
    with (verifyChecksumsSet jdb || paranoid_checks (options_ db)) in Hnf
    by (unfold get_options; destruct (verifyChecksumsSet jdb); reflexivity).
  destruct (DBImpl_Lookup _ key db); try reflexivity; discriminate Hnf.
Qed.

(** ** Iterator positions *)

(** [hasNext] and [hasPrev] both report whether the iterator is at a valid
    entry. *)
Lemma hasNext_is_Valid (jiter : JavaDBIterator) (env : JNIEnv) (it : Iterator) :
  iter_open jiter env it ->
  Java_org_tron_leveldb_DBIterator_hasNext jiter env
  = Some (Iterator_Valid it, env).
Proof.
  intros Hopen. unfold Java_org_tron_leveldb_DBIterator_hasNext. not_null.
  apply (Iter_read_open _ _ _ _ _ Hopen). reflexivity.
Qed.

Lemma hasPrev_is_Valid (jiter : JavaDBIterator) (env : JNIEnv) (it : Iterator) :
  iter_open jiter env it ->
  Java_org_tron_leveldb_DBIterator_hasPrev jiter env
  = Some (Iterator_Valid it, env).
Proof.
  intros Hopen. unfold Java_org_tron_leveldb_DBIterator_hasPrev. not_null.
  apply (Iter_read_open _ _ _ _ _ Hopen). reflexivity.
Qed.

Lemma Valid_lookup (it : Iterator) :
  Iterator_Valid it = true ->
  exists kv, it_view it !! it_pos it = Some kv.
Proof.
  unfold Iterator_Valid. intros H. apply Nat.ltb_lt in H.
  apply lookup_lt_is_Some_2 in H. destruct H as [kv H]. eauto.
Qed.

Lemma lookup_Valid (it : Iterator) (kv : bytes * bytes) :
  it_view it !! it_pos it = Some kv -> Iterator_Valid it = true.
Proof.
  intros H. unfold Iterator_Valid. apply Nat.ltb_lt.
  apply lookup_lt_is_Some_1. eauto.
Qed.

(** C10: [hasNext] and [hasPrev] return the same boolean in every state
    of every iterator, open or closed, and leave the same environment
    behind.  On an open iterator that boolean is [Valid()] for both: it is
    true exactly when the iterator is at an entry of its view, whatever the
    direction of the iteration, and nothing changes; on a closed iterator
    both return false and raise IllegalStateException. *)
Theorem hasNext_hasPrev_agree (jiter : JavaDBIterator) (env : JNIEnv) :
  Java_org_tron_leveldb_DBIterator_hasNext jiter env
  = Java_org_tron_leveldb_DBIterator_hasPrev jiter env
  /\ (forall it,
        iter_open jiter env it ->
        Java_org_tron_leveldb_DBIterator_hasNext jiter env
        = Some (Iterator_Valid it, env)
        /\ Java_org_tron_leveldb_DBIterator_hasPrev jiter env
           = Some (Iterator_Valid it, env)
        /\ (Iterator_Valid it = true
            <-> exists kv, it_view it !! it_pos it = Some kv))
  /\ (iter_nativeHandle jiter = 0 ->
      Java_org_tron_leveldb_DBIterator_hasNext jiter env
      = Some (false, set_pending (Some IteratorNotOpen) env)
      /\ Java_org_tron_leveldb_DBIterator_hasPrev jiter env
         = Some (false, set_pending (Some IteratorNotOpen) env)).
Proof.
  split; [| split].
  - unfold Java_org_tron_leveldb_DBIterator_hasNext,
      Java_org_tron_leveldb_DBIterator_hasPrev.
    destruct (decide (iter_nativeHandle jiter = 0)); reflexivity.
  - intros it Hopen.
    split; [apply (hasNext_is_Valid _ _ _ Hopen) |].
    split; [apply (hasPrev_is_Valid _ _ _ Hopen) |].
    split; [apply Valid_lookup |].
    intros [kv Hkv]. apply (lookup_Valid _ _ Hkv).
  - intros Hclosed.
    unfold Java_org_tron_leveldb_DBIterator_hasNext,
      Java_org_tron_leveldb_DBIterator_hasPrev.
    destruct (decide (iter_nativeHandle jiter = 0)); [| contradiction].
    split; reflexivity.
Qed.

Lemma peekNext_result (jiter : JavaDBIterator) (env : JNIEnv) (it : Iterator)
    (kv : bytes * bytes) :
  iter_open jiter env it ->
  it_view it !! it_pos it = Some kv ->
  Java_org_tron_leveldb_DBIterator_peekNext jiter env = Some (Some kv, env).
Proof.
  intros Hopen Hkv. unfold Java_org_tron_leveldb_DBIterator_peekNext. not_null.
  erewrite bind_run
    by (apply (Iter_read_open _ _ _ _ (fst kv) Hopen);
        unfold Iterator_key; rewrite Hkv; reflexivity).
  erewrite bind_run
    by (apply (Iter_read_open _ _ _ _ (snd kv) Hopen);
        unfold Iterator_value; rewrite Hkv; reflexivity).
  rewrite !Slice_all. destruct kv; reflexivity.
Qed.

Lemma peekPrev_result (jiter : JavaDBIterator) (env : JNIEnv) (it : Iterator)
    (kv : bytes * bytes) :
  iter_open jiter env it ->
  it_view it !! it_pos it = Some kv ->
  Java_org_tron_leveldb_DBIterator_peekPrev jiter env = Some (Some kv, env).
Proof. apply peekNext_result. Qed.

Lemma next_result (jiter : JavaDBIterator) (env : JNIEnv) (it : Iterator)
    (kv : bytes * bytes) :
  iter_open jiter env it ->
  it_view it !! it_pos it = Some kv ->
  Java_org_tron_leveldb_DBIterator_next jiter env
  = Some (Some kv,
          set_heap (<[iter_nativeHandle jiter
                      := ObjIterator (Iterator_at it (S (it_pos it)))]>
                      (heap env)) env).
Proof.
  intros Hopen Hkv. unfold Java_org_tron_leveldb_DBIterator_next. not_null.
  erewrite bind_run
    by (apply (Iter_read_open _ _ _ _ (fst kv) Hopen);
        unfold Iterator_key; rewrite Hkv; reflexivity).
  erewrite bind_run
    by (apply (Iter_read_open _ _ _ _ (snd kv) Hopen);
        unfold Iterator_value; rewrite Hkv; reflexivity).
  erewrite bind_run
    by (eapply (Iter_update_open _ _ _ _ _ Hopen);
        unfold Iterator_Next; rewrite (lookup_Valid _ _ Hkv); reflexivity).
  rewrite !Slice_all. destruct kv; reflexivity.
Qed.

(** C9: at a valid position of an open iterator, [peekNext] returns the
    current entry and changes nothing; [next] returns the same entry and
    moves the position on by one; so [peekNext] followed by [next] yields
    that entry twice. *)
Theorem peekNext_then_next
    (jiter : JavaDBIterator) (env : JNIEnv) (it : Iterator) :
  iter_open jiter env it ->
  Iterator_Valid it = true ->
  exists kv env',
    it_view it !! it_pos it = Some kv
    /\ Java_org_tron_leveldb_DBIterator_peekNext jiter env = Some (Some kv, env)
    /\ Java_org_tron_leveldb_DBIterator_next jiter env = Some (Some kv, env')
    /\ iter_open jiter env' (Iterator_at it (S (it_pos it)))
    /\ (a ← Java_org_tron_leveldb_DBIterator_peekNext jiter;
        b ← Java_org_tron_leveldb_DBIterator_next jiter;
        mret (a, b)) env = Some ((Some kv, Some kv), env').
Proof.
  intros Hopen Hvalid. destruct (Valid_lookup _ Hvalid) as [kv Hkv].
  exists kv. eexists. split; [exact Hkv |].
  pose proof (peekNext_result _ _ _ _ Hopen Hkv) as Hpeek.
  pose proof (next_result _ _ _ _ Hopen Hkv) as Hnext.
  split; [exact Hpeek |]. split; [exact Hnext |]. split.
  - apply iter_open_update. destruct Hopen as [Hnz _]. exact Hnz.
  - rewrite (bind_run _ _ _ _ _ Hpeek), (bind_run _ _ _ _ _ Hnext).
    reflexivity.
Qed.

(** ** Writing one key *)

Lemma set_heap_same (env : JNIEnv) : set_heap (heap env) env = env.
Proof. destruct env; reflexivity. Qed.

Lemma DB_Write_open (jdb : JavaDB) (env : JNIEnv) (db : DBImpl)
    (wo : WriteOptions) (updates : WriteBatch) :
  is_open jdb env db ->
  DB_Write (nativeDb jdb) wo updates env
  = let r := DBImpl_Write (negb (storage_failing env)) wo updates db in
    Some (fst r,
          set_heap (<[nativeDb jdb := ObjDB (snd r)]> (heap env)) env).
Proof.
  intros Hopen. unfold DB_Write.
  rewrite (bind_run _ _ _ _ _ (as_DB_open _ _ _ Hopen)). reflexivity.
Qed.

Lemma DB_Put_open (jdb : JavaDB) (env : JNIEnv) (db : DBImpl)
    (wo : WriteOptions) (k v : bytes) :
  is_open jdb env db ->
  DB_Put (nativeDb jdb) wo k v env
  = let r := DBImpl_Put (negb (storage_failing env)) wo k v db in
    Some (fst r,
          set_heap (<[nativeDb jdb := ObjDB (snd r)]> (heap env)) env).
Proof.
  intros Hopen. unfold DB_Put.
  rewrite (bind_run _ _ _ _ _ (as_DB_open _ _ _ Hopen)). reflexivity.
Qed.

Lemma DB_Delete_open (jdb : JavaDB) (env : JNIEnv) (db : DBImpl)
    (wo : WriteOptions) (k : bytes) :
  is_open jdb env db ->
  DB_Delete (nativeDb jdb) wo k env
  = let r := DBImpl_Delete (negb (storage_failing env)) wo k db in
    Some (fst r,
          set_heap (<[nativeDb jdb := ObjDB (snd r)]> (heap env)) env).
Proof.
  intros Hopen. unfold DB_Delete.
  rewrite (bind_run _ _ _ _ _ (as_DB_open _ _ _ Hopen)). reflexivity.
Qed.

Lemma is_open_update (jdb : JavaDB) (env : JNIEnv) (db db' : DBImpl) :
  is_open jdb env db ->
  is_open jdb (set_heap (<[nativeDb jdb := ObjDB db']> (heap env)) env) db'.
Proof.
  intros [Hnz _]. split; [exact Hnz |]. simpl. apply lookup_insert_eq.
Qed.

(** What the three writing entry points of the binding do on an open store:
    the engine is called with the [sync] flag handed in (the default options
    for the two-argument put) and its status is dropped. *)
Lemma put_result (jdb : JavaDB) (env : JNIEnv) (db : DBImpl) (k v : bytes) :
  is_open jdb env db ->
  Java_org_tron_leveldb_DB_put___3B_3B jdb k v env
  = Some (tt,
          set_heap
            (<[nativeDb jdb
               := ObjDB (snd (DBImpl_Put (negb (storage_failing env))
                                WriteOptions_default k v db))]> (heap env))
            env).
Proof.
  intros Hopen. unfold Java_org_tron_leveldb_DB_put___3B_3B, GetArrayLength.
  not_null. rewrite !Slice_all.
  erewrite bind_run by (apply DB_Put_open, Hopen). reflexivity.
Qed.

Lemma put_sync_result (jdb : JavaDB) (env : JNIEnv) (db : DBImpl)
    (k v : bytes) (jsync : bool) :
  is_open jdb env db ->
  Java_org_tron_leveldb_DB_put___3B_3BZ jdb k v jsync env
  = Some (tt,
          set_heap
            (<[nativeDb jdb
               := ObjDB (snd (DBImpl_Put (negb (storage_failing env))
                                {| sync := jsync |} k v db))]> (heap env))
            env).
Proof.
  intros Hopen. unfold Java_org_tron_leveldb_DB_put___3B_3BZ, GetArrayLength.
  not_null. rewrite !Slice_all.
  erewrite bind_run by (apply DB_Put_open, Hopen). reflexivity.
Qed.

Lemma delete_result (jdb : JavaDB) (env : JNIEnv) (db : DBImpl)
    (k : bytes) (jsync : bool) :
  is_open jdb env db ->
  Java_org_tron_leveldb_DB_delete jdb k jsync env
  = Some (tt,
          set_heap
            (<[nativeDb jdb
               := ObjDB (snd (DBImpl_Delete (negb (storage_failing env))
                                {| sync := jsync |} k db))]> (heap env))
            env).
Proof.
  intros Hopen. unfold Java_org_tron_leveldb_DB_delete, GetArrayLength.
  not_null. rewrite !Slice_all.
  erewrite bind_run by (apply DB_Delete_open, Hopen). reflexivity.
Qed.

(** The entry inserted last is the one a lookup at its own sequence number
    meets first. *)
Lemma MemTable_Get_Insert `{Comparator} (e : Entry) (m : MemTable) :
  Compare (userKey e) (userKey e) = 0 ->
  MemTable_Get (MemTable_Insert e m) (userKey e) (sequence e) = answer_of e.
Proof.
  intros Hrefl. unfold MemTable_Get.
  assert (Hvis : visible_at (userKey e) (sequence e) e = true).
  { unfold visible_at. rewrite Hrefl, N.leb_refl. reflexivity. }
  induction m as [| x m IH]; simpl.
  - rewrite Hvis. reflexivity.
  - destruct (InternalKeyCompare x e) eqn:Hcmp; simpl;
      try (rewrite Hvis; reflexivity).
    replace (visible_at (userKey e) (sequence e) x) with false; [exact IH |].
    symmetry. unfold visible_at. unfold InternalKeyCompare in Hcmp.
    destruct (Z.compare_spec (Compare (userKey x) (userKey e)) 0)
      as [Heq | Hlt | Hgt]; try discriminate.
    + rewrite Heq. simpl. apply N.leb_gt. apply N.compare_lt_iff in Hcmp.
      exact Hcmp.
    + destruct (Z.eqb_spec (Compare (userKey x) (userKey e)) 0);
        [lia | reflexivity].
Qed.

Lemma Lookup_after_Write_one (verify : bool) (wo : WriteOptions) (o : Op)
    (db : DBImpl) :
  let e := EntryOf (last_sequence_ db + 1)%N o in
  @Compare (comparator (options_ db)) (userKey e) (userKey e) = 0 ->
  DBImpl_Lookup verify (userKey e) (snd (DBImpl_Write true wo [o] db))
  = answer_of e.
Proof.
  intros e Hrefl. unfold DBImpl_Write, LogAndInsert. simpl negb. cbv iota.
  simpl snd. unfold MakeRoomForWrite. simpl ApplyBatch. fold e.
  assert (Hseq : (last_sequence_ db + N.of_nat 1)%N = sequence e)
    by (unfold e; destruct o; reflexivity).
  assert (Hans : answer_of e <> Absent)
    by (unfold e; destruct o; discriminate).
  match goal with |- context [if ?c then _ else _] => destruct c end.
  - unfold DBImpl_Lookup. simpl. rewrite Hseq.
    rewrite (MemTable_Get_Insert (H := comparator (options_ db)) e _ Hrefl).
    destruct (answer_of e); try reflexivity. contradiction.
  - unfold DBImpl_Lookup, WriteLevel0Table.
    destruct (imm_ db); simpl; rewrite Hseq;
      rewrite (MemTable_Get_Insert (H := comparator (options_ db)) e _ Hrefl);
      destruct (answer_of e); try reflexivity; contradiction.
Qed.

(** C1: on an open store whose storage accepts the write, [Put(k, v)]
    followed by [Get(k)] returns [v], and [Delete(k)] followed by [Get(k)]
    returns null (NotFound); neither raises an exception.  The store is
    arbitrary: [k] may have older entries in the memtables and in tables of
    any level. *)
Theorem put_get_delete_get
    (jdb : JavaDB) (env : JNIEnv) (db : DBImpl) (k v : bytes) (jsync : bool) :
  is_open jdb env db ->
  storage_failing env = false ->
  TotalOrder (comparator (options_ db)) ->
  (exists env1,
      Java_org_tron_leveldb_DB_put___3B_3B jdb k v env = Some (tt, env1)
      /\ Java_org_tron_leveldb_DB_get jdb k env1 = Some (Some v, env1)
      /\ pending env1 = pending env)
  /\ (exists env2,
      Java_org_tron_leveldb_DB_delete jdb k jsync env = Some (tt, env2)
      /\ Java_org_tron_leveldb_DB_get jdb k env2 = Some (None, env2)
      /\ pending env2 = pending env).
Proof.
  intros Hopen Hio HC. split.
  - eexists. split; [apply put_result, Hopen |].
    split; [| reflexivity].
    rewrite (get_result _ _ _ _ (is_open_update _ _ _ _ Hopen)).
    rewrite Hio. unfold DBImpl_Put, WriteBatch_Put. simpl app.
    pose proof (Lookup_after_Write_one
                  (verifyChecksumsSet jdb
                   || paranoid_checks
                        (options_ (snd (DBImpl_Write true WriteOptions_default
                                          [OpPut k v] db))))
                  WriteOptions_default (OpPut k v) db) as HL.
    cbv zeta in HL. simpl userKey in HL. simpl negb.
    rewrite HL by apply Compare_refl. reflexivity.
  - eexists. split; [apply delete_result, Hopen |].
    split; [| reflexivity].
    rewrite (get_result _ _ _ _ (is_open_update _ _ _ _ Hopen)).
    rewrite Hio. unfold DBImpl_Delete, WriteBatch_Delete. simpl app.
    pose proof (Lookup_after_Write_one
                  (verifyChecksumsSet jdb
                   || paranoid_checks
                        (options_ (snd (DBImpl_Write true {| sync := jsync |}
                                          [OpDelete k] db))))
                  {| sync := jsync |} (OpDelete k) db) as HL.
    cbv zeta in HL. simpl userKey in HL. simpl negb.
    rewrite HL by apply Compare_refl. reflexivity.
Qed.

(** ** Engine failures *)

Lemma set_heap_insert_id (jdb : JavaDB) (env : JNIEnv) (db : DBImpl) :
  is_open jdb env db ->
  set_heap (<[nativeDb jdb := ObjDB db]> (heap env)) env = env.
Proof.
  intros [_ Hdb]. rewrite (insert_id _ _ _ Hdb). apply set_heap_same.
Qed.

Lemma write_failing_result (jdb : JavaDB) (env : JNIEnv) (db : DBImpl)
    (jbatch : JavaWriteBatch) (b : WriteBatch) (jsync : bool) :
  is_open jdb env db ->
  storage_failing env = true ->
  batch_nativeHandle jbatch <> 0 ->
  heap env !! batch_nativeHandle jbatch = Some (ObjWriteBatch b) ->
  Java_org_tron_leveldb_DB_write jdb jbatch jsync env
  = Some (tt,
          set_pending
            (Some {| exception_class := "java/lang/RuntimeException";
                     message := "IO error: log append failed" |}) env).
Proof.
  intros Hopen Hio Hnz Hb.
  unfold Java_org_tron_leveldb_DB_write. not_null.
  erewrite bind_run; cycle 1.
  { unfold as_WriteBatch. rewrite Hb.
    destruct (decide (batch_nativeHandle jbatch = 0));
      [contradiction | reflexivity]. }
  erewrite bind_run by (apply DB_Write_open, Hopen).
  rewrite Hio. simpl. rewrite (set_heap_insert_id _ _ _ Hopen).
  reflexivity.
Qed.

(** C5 (defect): when the storage fails, the engine's [Put] and [Delete]
    answer IOError, yet both put overloads and delete of the binding return
    normally: no exception is raised and the environment is as before.  The
    sibling [write] raises RuntimeException in the same situation. *)
Theorem put_delete_discard_engine_failure
    (jdb : JavaDB) (env : JNIEnv) (db : DBImpl) (k v : bytes) (jsync : bool)
    (jbatch : JavaWriteBatch) (b : WriteBatch) :
  is_open jdb env db ->
  storage_failing env = true ->
  batch_nativeHandle jbatch <> 0 ->
  heap env !! batch_nativeHandle jbatch = Some (ObjWriteBatch b) ->
  code (fst (DBImpl_Put false WriteOptions_default k v db)) = kIOError
  /\ code (fst (DBImpl_Delete false {| sync := jsync |} k db)) = kIOError
  /\ Java_org_tron_leveldb_DB_put___3B_3B jdb k v env = Some (tt, env)
  /\ Java_org_tron_leveldb_DB_put___3B_3BZ jdb k v jsync env = Some (tt, env)
  /\ Java_org_tron_leveldb_DB_delete jdb k jsync env = Some (tt, env)
  /\ Java_org_tron_leveldb_DB_write jdb jbatch jsync env
     = Some (tt,
             set_pending
               (Some {| exception_class := "java/lang/RuntimeException";
                        message := "IO error: log append failed" |}) env).
Proof.
  intros Hopen Hio Hnz Hb.
  split; [reflexivity |]. split; [reflexivity |].
  split; [| split; [| split]].
  - rewrite (put_result _ _ _ _ _ Hopen), Hio. simpl.
    rewrite (set_heap_insert_id _ _ _ Hopen). reflexivity.
  - rewrite (put_sync_result _ _ _ _ _ _ Hopen), Hio. simpl.
    rewrite (set_heap_insert_id _ _ _ Hopen). reflexivity.
  - rewrite (delete_result _ _ _ _ _ Hopen), Hio. simpl.
    rewrite (set_heap_insert_id _ _ _ Hopen). reflexivity.
  - apply (write_failing_result _ _ _ _ _ _ Hopen Hio Hnz Hb).
Qed.

(** ** Opening *)

Lemma DBImpl_Open_cases (good : bool) (options : Options) (name : string)
    (dir : option Disk) :
  (exists db, DBImpl_Open good options name dir = (Status_OK, Some db))
  \/ (exists s, DBImpl_Open good options name dir = (s, None)
               /\ (code s = kInvalidArgument \/ code s = kIOError
                   \/ code s = kCorruption)).
Proof.
  unfold DBImpl_Open. destruct good; simpl.
  - destruct dir as [d |].
    + destruct (error_if_exists options); [right; eexists; eauto |].
      destruct (ReplayManifest _ _ _) as [r |]; [| right; eexists; eauto].
      destruct (negb _); [right; eexists; eauto | left; eexists; eauto].
    + destruct (create_if_missing options);
        [left; eexists; eauto | right; eexists; eauto].
  - right; eexists; eauto.
Qed.

Lemma DB_Open_cases (options : Options) (name : string) (env : JNIEnv) :
  (exists db p,
      p <> 0 /\ heap env !! p = None
      /\ DB_Open options name env
         = Some ((Status_OK, p),
                 {| pending := pending env;
                    heap := <[p := ObjDB db]> (heap env);
                    filesystem := filesystem env;
                    locks := {[name]} ∪ locks env;
                    storage_failing := storage_failing env |}))
  \/ (exists s, DB_Open options name env = Some ((s, 0), env)
               /\ (code s = kInvalidArgument \/ code s = kIOError
                   \/ code s = kCorruption)).
Proof.
  unfold DB_Open. destruct (decide (name ∈ locks env)).
  { right. eexists. split; [reflexivity |]. right. left. reflexivity. }
  destruct (DBImpl_Open_cases (negb (storage_failing env)) options name
              (filesystem env !! name)) as [[db H] | [s [H Hs]]]; rewrite H.
  - left. exists db, (fresh ({[0]} ∪ dom (heap env))).
    pose proof (is_fresh ({[0]} ∪ dom (heap env))) as Hfresh.
    split; [| split; [| reflexivity]].
    + intros E. apply Hfresh. rewrite E. set_solver.
    + apply not_elem_of_dom. intros E. apply Hfresh. set_solver.
  - right. exists s. split; [reflexivity | exact Hs].
Qed.

Lemma init_options_runs (jdb : JavaDB) (joptions : JavaOptions) (env : JNIEnv) :
  exists r env',
    init_options jdb joptions env = Some (r, env')
    /\ nativeDb (fst r) = nativeDb jdb /\ pending env' = pending env.
Proof.
  unfold init_options.
  destruct (jcomparator joptions), (jlogger joptions);
    eexists _, _; (split; [reflexivity | split; reflexivity]).
Qed.

Lemma init_unfold (jdb : JavaDB) (jfile : string) (joptions : JavaOptions) :
  Java_org_tron_leveldb_DB_init jdb jfile joptions
  = (r2 ← init_options jdb joptions;
     r ← DB_Open (snd r2) jfile;
     if IsInvalidArgument (fst r) then
       _ ← ThrowNew FileNotFoundException (ToString (fst r));
       mret (fst r2)
     else
       good ← check (fst r);
       if good : bool then mret (set_nativeDb (snd r) (fst r2))
       else mret (fst r2)).
Proof.
  unfold Java_org_tron_leveldb_DB_init, init_options.
  destruct (jcomparator joptions), (jlogger joptions); reflexivity.
Qed.

(** C8: [Java_org_tron_leveldb_DB_init] always returns, and in exactly one
    of four ways: the engine's [Open] succeeded and the Java object holds
    the handle of a live database, with no exception raised; or [Open]
    failed with InvalidArgument, IOError or Corruption (the corrupt
    manifest), the handle is left as it was, and the failure is raised as
    FileNotFoundException, RuntimeException or IOException respectively,
    three different exception classes. *)
Theorem init_opens_or_raises
    (jdb : JavaDB) (jfile : string) (joptions : JavaOptions) (env : JNIEnv) :
  exists r2 env2 status p env3 jdb' env',
    init_options jdb joptions env = Some (r2, env2)
    /\ DB_Open (snd r2) jfile env2 = Some ((status, p), env3)
    /\ Java_org_tron_leveldb_DB_init jdb jfile joptions env
       = Some (jdb', env')
    /\ ((code status = kOk
         /\ (exists db, is_open jdb' env' db)
         /\ pending env' = pending env)
        \/ (nativeDb jdb' = nativeDb jdb
            /\ exists cls,
                pending env'
                = Some {| exception_class := cls;
                          message := ToString status |}
                /\ ((code status = kInvalidArgument
                     /\ cls = FileNotFoundException)
                    \/ (code status = kIOError /\ cls = RuntimeException)
                    \/ (code status = kCorruption /\ cls = IOException))))
    /\ FileNotFoundException <> RuntimeException
    /\ FileNotFoundException <> IOException
    /\ RuntimeException <> IOException.
Proof.
  destruct (init_options_runs jdb joptions env) as (r2 & env2 & Hr2 & Hdb & Hp).
  rewrite init_unfold. exists r2, env2.
  destruct (DB_Open_cases (snd r2) jfile env2)
    as [(db & p & Hnz & Hfree & Hopen) | (s & Hopen & Hs)].
  - eexists Status_OK, p, _, _, _. split; [exact Hr2 |].
    split; [exact Hopen |].
    rewrite (bind_run _ _ _ _ _ Hr2), (bind_run _ _ _ _ _ Hopen).
    split; [reflexivity |]. split; [| repeat split; discriminate].
    left. split; [reflexivity |]. split; [| exact Hp].
    exists db. split; [exact Hnz |]. simpl. apply lookup_insert_eq.
  - exists s, 0, env2. 
    rewrite (bind_run _ _ _ _ _ Hr2), (bind_run _ _ _ _ _ Hopen).
    destruct s as [c m]. simpl in Hs. unfold IsInvalidArgument, check, ok,
      IsNotFound, IsCorruption. simpl.
    destruct Hs as [-> | [-> | ->]]; simpl;
      (eexists _, _; split; [exact Hr2 |]; split; [exact Hopen |];
       split; [reflexivity |]; split; [| repeat split; discriminate];
       right; split; [exact Hdb |]; eexists; split; [reflexivity |]).
    + left. split; reflexivity.
    + right. left. split; reflexivity.
    + right. right. split; reflexivity.
Qed.

(** ** The internal key order *)

Section Order.
Context `{C : Comparator} {TO : TotalOrder C}.

Lemma Compare_le_lt (a b c : bytes) :
  Compare a b <= 0 -> Compare b c < 0 -> Compare a c < 0.
Proof.
  intros Hab Hbc.
  destruct (Z.lt_trichotomy (Compare a c) 0) as [H | [H | H]]; [exact H | |].
  - apply Compare_eq in H.
    assert (Compare b a < 0) by (apply (Compare_trans_lt b c a); lia).
    apply Compare_lt_gt in H0. lia.
  - assert (Hca : Compare c a < 0) by (apply Compare_lt_gt; lia).
    assert (Compare c b < 0) by (apply (Compare_trans_lt c a b); lia).
    apply Compare_lt_gt in H0. lia.
Qed.

Lemma ikey_le_user (a b : Entry) :
  ikey_le a b -> Compare (userKey a) (userKey b) <= 0.
Proof.
  unfold ikey_le, InternalKeyCompare.
  destruct (Z.compare_spec (Compare (userKey a) (userKey b)) 0) as [E | E | E];
    intros Hle; try lia. contradiction.
Qed.

Lemma ikey_le_iff (a b : Entry) :
  ikey_le a b <->
  Compare (userKey a) (userKey b) < 0
  \/ (Compare (userKey a) (userKey b) = 0 /\ (sequence b <= sequence a)%N).
Proof.
  unfold ikey_le, InternalKeyCompare.
  destruct (Z.compare_spec (Compare (userKey a) (userKey b)) 0) as [E | E | E].
  - rewrite N.compare_gt_iff. split.
    + intros H. right. split; [exact E | lia].
    + intros [H | [_ H]]; lia.
  - split; [intros _; left; exact E | discriminate].
  - split; [intros H; contradiction | intros [H | [H _]]; lia].
Qed.

#[local] Instance ikey_le_trans : Transitive ikey_le.
Proof.
  intros a b c Hab Hbc. apply ikey_le_iff in Hab, Hbc. apply ikey_le_iff.
  destruct Hab as [Hab | [Hab Sab]], Hbc as [Hbc | [Hbc Sbc]].
  - left. apply (Compare_trans_lt _ (userKey b)); lia.
  - left. apply (Compare_trans_lt _ (userKey b)); lia.
  - left. apply (Compare_le_lt _ (userKey b)); lia.
  - assert (Hac : Compare (userKey a) (userKey c) <= 0)
      by (apply (Compare_trans_le _ (userKey b)); lia).
    destruct (Z.eq_dec (Compare (userKey a) (userKey c)) 0) as [E | NE];
      [right; split; [exact E | lia] | left; lia].
Qed.

#[local] Instance ikey_le_total : Total ikey_le.
Proof.
  intros a b.
  destruct (Z.lt_trichotomy (Compare (userKey a) (userKey b)) 0)
    as [H | [H | H]].
  - left. apply ikey_le_iff. left. exact H.
  - destruct (N.le_ge_cases (sequence b) (sequence a)).
    + left. apply ikey_le_iff. right. split; assumption.
    + right. apply ikey_le_iff. right. split; [apply Compare_eq, H | lia].
  - right. apply ikey_le_iff. left. apply Compare_lt_gt. lia.
Qed.

Lemma ikey_not_lt_le (x e : Entry) :
  InternalKeyCompare x e <> Lt -> ikey_le e x.
Proof.
  intros H. destruct (ikey_le_total e x) as [Hle | Hle]; [exact Hle |].
  apply ikey_le_iff. apply ikey_le_iff in Hle.
  unfold InternalKeyCompare in H.
  destruct (Z.compare_spec (Compare (userKey x) (userKey e)) 0) as [E | E | E].
  - right. split; [apply Compare_eq, E |].
    destruct (N.compare_spec (sequence e) (sequence x)); try lia.
    contradiction.
  - contradiction.
  - left. apply Compare_lt_gt. lia.
Qed.

(** Insertion keeps a memtable sorted. *)
Lemma MemTable_Insert_HdRel (e a : Entry) (m : MemTable) :
  ikey_le a e -> HdRel ikey_le a m -> HdRel ikey_le a (MemTable_Insert e m).
Proof.
  intros Hae Hhd. destruct m as [| x m]; simpl; [constructor; exact Hae |].
  inversion Hhd; subst.
  destruct (InternalKeyCompare x e); constructor; assumption.
Qed.

Lemma MemTable_Insert_Sorted (e : Entry) (m : MemTable) :
  Sorted ikey_le m -> Sorted ikey_le (MemTable_Insert e m).
Proof.
  induction 1 as [| x m Hs IH Hhd]; simpl.
  - repeat constructor.
  - destruct (InternalKeyCompare x e) eqn:Hcmp.
    + constructor; [constructor; assumption |].
      constructor. apply ikey_not_lt_le. rewrite Hcmp. discriminate.
    + constructor; [exact IH |].
      apply MemTable_Insert_HdRel; [| exact Hhd].
      unfold ikey_le. rewrite Hcmp. discriminate.
    + constructor; [constructor; assumption |].
      constructor. apply ikey_not_lt_le. rewrite Hcmp. discriminate.
Qed.

Lemma ApplyBatch_Sorted (ops : WriteBatch) (seq : N) (m : MemTable) :
  Sorted ikey_le m -> Sorted ikey_le (ApplyBatch seq ops m).
Proof.
  revert seq m. induction ops as [| o ops IH]; intros seq m Hm; simpl;
    [exact Hm | apply IH, MemTable_Insert_Sorted, Hm].
Qed.

Lemma MergeSources_Sorted (srcs : list (list Entry)) :
  Forall (Sorted ikey_le) srcs -> Sorted ikey_le (MergeSources srcs).
Proof.
  induction 1 as [| src srcs Hsrc _ IH]; simpl; [constructor |].
  unfold MergeEntries.
  apply Sorted_list_merge; first [assumption | apply ikey_le_total].
Qed.

(** Collapsing a sorted run of entries yields strictly increasing user
    keys, all of them after the key being skipped. *)
Lemma Collapse_increasing (snapshot : N) (l : list Entry) :
  forall skip : option bytes,
    StronglySorted ikey_le l ->
    (forall s, skip = Some s ->
               Forall (fun e => Compare s (userKey e) <= 0) l) ->
    StronglySorted key_lt (map fst (Collapse snapshot skip l))
    /\ (forall s, skip = Some s ->
                  Forall (fun k => Compare s k < 0)
                         (map fst (Collapse snapshot skip l))).
Proof.
  induction l as [| e r IH]; intros skip Hsorted Hskip; simpl.
  { split; [constructor | intros; constructor]. }
  apply StronglySorted_inv in Hsorted. destruct Hsorted as [Hr He].
  assert (Hafter : Forall (fun e' => Compare (userKey e) (userKey e') <= 0) r).
  { eapply Forall_impl; [exact He |]. intros e' H. apply ikey_le_user, H. }
  assert (Htail : forall s, skip = Some s ->
                    Forall (fun e => Compare s (userKey e) <= 0) r).
  { intros s Hs. specialize (Hskip s Hs). inversion Hskip; assumption. }
  destruct ((sequence e <=? snapshot)%N
            && negb (same_user_key skip (userKey e))) eqn:Hvis;
    [| apply IH; assumption].
  apply andb_true_iff in Hvis. destruct Hvis as [_ Hnew].
  apply negb_true_iff in Hnew.
  destruct (IH (Some (userKey e)) Hr) as [IHs IHk].
  { intros s Hs. inversion Hs; subst. exact Hafter. }
  specialize (IHk _ eq_refl).
  assert (Hbeyond : forall s, skip = Some s -> Compare s (userKey e) < 0).
  { intros s Hs. specialize (Hskip s Hs). inversion Hskip; subst.
    simpl in Hnew. destruct (Z.eqb_spec (Compare (userKey e) s) 0);
      [discriminate |].
    destruct (Z.eq_dec (Compare s (userKey e)) 0) as [E | NE]; [| lia].
    apply Compare_eq in E. contradiction. }
  assert (Hrest : forall s, skip = Some s ->
            Forall (fun k => Compare s k < 0)
                   (map fst (Collapse snapshot (Some (userKey e)) r))).
  { intros s Hs. eapply Forall_impl; [exact IHk |]. intros k Hk. simpl in Hk.
    apply (Compare_trans_lt _ (userKey e)); [apply Hbeyond, Hs | lia]. }
  destruct (tag e); simpl.
  - split; [exact IHs | exact Hrest].
  - split.
    + constructor; [exact IHs | exact IHk].
    + intros s Hs. constructor; [apply Hbeyond, Hs | apply Hrest, Hs].
Qed.
End Order.

(** The view of a new iterator is strictly increasing in user key order. *)
Lemma NewIterator_view_increasing (ro : ReadOptions) (db : DBImpl) :
  TotalOrder (comparator (options_ db)) ->
  sorted_sources db ->
  @strictly_increasing (comparator (options_ db))
    (it_view (DBImpl_NewIterator ro db)).
Proof.
  intros TO Hsorted. unfold strictly_increasing, DBImpl_NewIterator.
  cbn [it_view]. apply Collapse_increasing; [| discriminate].
  apply Sorted_StronglySorted; [apply ikey_le_trans |].
  apply MergeSources_Sorted, Hsorted.
Qed.

(** ** Walking an iterator *)

Lemma seekToFirst_result (jiter : JavaDBIterator) (env : JNIEnv)
    (it : Iterator) :
  iter_open jiter env it ->
  Java_org_tron_leveldb_DBIterator_seekToFirst jiter env
  = Some (tt, set_heap (<[iter_nativeHandle jiter
                          := ObjIterator (Iterator_at it 0)]> (heap env)) env).
Proof.
  intros Hopen. unfold Java_org_tron_leveldb_DBIterator_seekToFirst. not_null.
  apply (Iter_update_open _ _ _ _ _ Hopen). reflexivity.
Qed.

Lemma seekToLast_result (jiter : JavaDBIterator) (env : JNIEnv)
    (it : Iterator) :
  iter_open jiter env it ->
  Java_org_tron_leveldb_DBIterator_seekToLast jiter env
  = Some (tt, set_heap (<[iter_nativeHandle jiter
                          := ObjIterator
                               (Iterator_at it (length (it_view it) - 1))]>
                          (heap env)) env).
Proof.
  intros Hopen. unfold Java_org_tron_leveldb_DBIterator_seekToLast. not_null.
  apply (Iter_update_open _ _ _ _ _ Hopen). reflexivity.
Qed.

Lemma prev_result (jiter : JavaDBIterator) (env : JNIEnv) (it : Iterator) :
  iter_open jiter env it ->
  Iterator_Valid it = true ->
  Java_org_tron_leveldb_DBIterator_prev jiter env
  = Some (tt, set_heap
                (<[iter_nativeHandle jiter
                   := ObjIterator
                        (Iterator_at it
                           (match it_pos it with
                            | O => length (it_view it)
                            | S p => p
                            end))]> (heap env)) env).
Proof.
  intros Hopen Hvalid. unfold Java_org_tron_leveldb_DBIterator_prev. not_null.
  apply (Iter_update_open _ _ _ _ _ Hopen).
  unfold Iterator_Prev. rewrite Hvalid. reflexivity.
Qed.

Lemma scan_forward_from (jiter : JavaDBIterator) (fuel : nat) :
  forall (env : JNIEnv) (it : Iterator),
    iter_open jiter env it ->
    (length (it_view it) - it_pos it < fuel)%nat ->
    exists env',
      scan_forward fuel jiter env = Some (drop (it_pos it) (it_view it), env').
Proof.
  induction fuel as [| fuel IH]; intros env it Hopen Hfuel; [lia |].
  simpl. rewrite (bind_run _ _ _ _ _ (hasNext_is_Valid _ _ _ Hopen)).
  destruct (Iterator_Valid it) eqn:Hvalid.
  - destruct (Valid_lookup _ Hvalid) as [kv Hkv].
    rewrite (bind_run _ _ _ _ _ (next_result _ _ _ _ Hopen Hkv)).
    destruct Hopen as [Hnz Hit].
    destruct (IH _ (Iterator_at it (S (it_pos it)))
                 (iter_open_update jiter env _ Hnz)) as [env' Hrest].
    { unfold Iterator_Valid in Hvalid. apply Nat.ltb_lt in Hvalid.
      simpl. lia. }
    rewrite (bind_run _ _ _ _ _ Hrest). simpl.
    exists env'. rewrite (drop_S _ _ _ Hkv). reflexivity.
  - exists env. unfold Iterator_Valid in Hvalid. apply Nat.ltb_ge in Hvalid.
    rewrite drop_ge by exact Hvalid. reflexivity.
Qed.

Lemma scan_backward_invalid (jiter : JavaDBIterator) (fuel : nat)
    (env : JNIEnv) (it : Iterator) :
  iter_open jiter env it ->
  Iterator_Valid it = false ->
  scan_backward fuel jiter env = Some ([], env).
Proof.
  intros Hopen Hinv. destruct fuel as [| fuel]; cbn [scan_backward];
    [reflexivity |].
  rewrite (bind_run _ _ _ _ _ (hasPrev_is_Valid _ _ _ Hopen)), Hinv.
  reflexivity.
Qed.

Lemma scan_backward_from (jiter : JavaDBIterator) (fuel : nat) :
  forall (env : JNIEnv) (it : Iterator),
    iter_open jiter env it ->
    Iterator_Valid it = true ->
    (it_pos it < fuel)%nat ->
    exists env',
      scan_backward fuel jiter env
      = Some (rev (take (S (it_pos it)) (it_view it)), env').
Proof.
  induction fuel as [| fuel IH]; intros env it Hopen Hvalid Hfuel; [lia |].
  cbn [scan_backward].
  rewrite (bind_run _ _ _ _ _ (hasPrev_is_Valid _ _ _ Hopen)), Hvalid.
  destruct (Valid_lookup _ Hvalid) as [kv Hkv].
  rewrite (bind_run _ _ _ _ _ (peekPrev_result _ _ _ _ Hopen Hkv)).
  rewrite (bind_run _ _ _ _ _ (prev_result _ _ _ Hopen Hvalid)).
  rewrite (take_S_r _ _ _ Hkv), rev_app_distr. cbn [rev app].
  destruct Hopen as [Hnz Hit].
  set (it' := Iterator_at it (match it_pos it with
                              | O => length (it_view it)
                              | S p => p
                              end)).
  pose proof (iter_open_update jiter env it' Hnz) as Hopen'.
  unfold Iterator_Valid in Hvalid. apply Nat.ltb_lt in Hvalid.
  destruct (it_pos it) as [| p] eqn:Hpos.
  - (* the first entry: [prev] leaves the iterator not valid *)
    assert (Hinv : Iterator_Valid it' = false)
      by (unfold Iterator_Valid, it'; simpl; apply Nat.ltb_irrefl).
    rewrite (bind_run _ _ _ _ _ (scan_backward_invalid _ fuel _ _ Hopen' Hinv)).
    eexists. reflexivity.
  - destruct (IH _ _ Hopen') as [env' Hrest].
    + unfold Iterator_Valid, it'. simpl. apply Nat.ltb_lt. lia.
    + unfold it'. simpl. lia.
    + rewrite (bind_run _ _ _ _ _ Hrest). exists env'. reflexivity.
Qed.

Lemma iterate_forward_all (jiter : JavaDBIterator) (env : JNIEnv)
    (it : Iterator) (fuel : nat) :
  iter_open jiter env it ->
  (length (it_view it) < fuel)%nat ->
  exists env', iterate_forward fuel jiter env = Some (it_view it, env').
Proof.
  intros Hopen Hfuel. unfold iterate_forward.
  rewrite (bind_run _ _ _ _ _ (seekToFirst_result _ _ _ Hopen)).
  destruct Hopen as [Hnz _].
  destruct (scan_forward_from jiter fuel _ _
              (iter_open_update jiter env (Iterator_at it 0) Hnz))
    as [env' H]; [simpl; lia |].
  exists env'. exact H.
Qed.

Lemma iterate_backward_all (jiter : JavaDBIterator) (env : JNIEnv)
    (it : Iterator) (fuel : nat) :
  iter_open jiter env it ->
  (length (it_view it) < fuel)%nat ->
  exists env', iterate_backward fuel jiter env = Some (rev (it_view it), env').
Proof.
  intros Hopen Hfuel. unfold iterate_backward.
  rewrite (bind_run _ _ _ _ _ (seekToLast_result _ _ _ Hopen)).
  destruct Hopen as [Hnz _].
  set (it' := Iterator_at it (length (it_view it) - 1)).
  pose proof (iter_open_update jiter env it' Hnz) as Hopen'.
  destruct (Nat.eq_dec (length (it_view it)) 0%nat) as [Hempty | Hne].
  - assert (Hinv : Iterator_Valid it' = false).
    { unfold Iterator_Valid, it'. simpl. apply Nat.ltb_ge. lia. }
    rewrite (scan_backward_invalid _ fuel _ _ Hopen' Hinv).
    apply length_zero_iff_nil in Hempty. rewrite Hempty. eexists. reflexivity.
  - destruct (scan_backward_from jiter fuel _ _ Hopen') as [env' H].
    + unfold Iterator_Valid, it'. simpl. apply Nat.ltb_lt. lia.
    + unfold it'. simpl. lia.
    + exists env'. rewrite H. unfold it'. simpl it_view. simpl it_pos.
      replace (S (length (it_view it) - 1)) with (length (it_view it)) by lia.
      rewrite firstn_all. reflexivity.
Qed.

Lemma increasing_NoDup `{C : Comparator} {TO : TotalOrder C} (l : list bytes) :
  StronglySorted key_lt l -> NoDup l.
Proof.
  induction 1 as [| k l _ IH Hall]; constructor; [| exact IH].
  intros Hin. rewrite Forall_forall in Hall. specialize (Hall _ Hin).
  unfold key_lt in Hall. rewrite Compare_refl in Hall. lia.
Qed.

Lemma DB_iterator_result (jdb : JavaDB) (env : JNIEnv) (db : DBImpl)
    (jro : JavaReadOptions) :
  is_open jdb env db ->
  exists jiter env',
    Java_org_tron_leveldb_DB_iterator jdb jro env = Some (Some jiter, env')
    /\ iter_open jiter env' (DBImpl_NewIterator (getReadOptions jro) db)
    /\ is_open jdb env' db.
Proof.
  intros Hopen. unfold Java_org_tron_leveldb_DB_iterator. not_null.
  pose proof (is_fresh ({[0]} ∪ dom (heap env))) as Hfresh.
  set (p := fresh ({[0]} ∪ dom (heap env))) in *.
  set (it := DBImpl_NewIterator (getReadOptions jro) db).
  assert (Hnew : DB_NewIterator (nativeDb jdb) (getReadOptions jro) env
                 = Some (p, set_heap (<[p := ObjIterator it]> (heap env)) env)).
  { unfold DB_NewIterator.
    rewrite (bind_run _ _ _ _ _ (as_DB_open _ _ _ Hopen)). reflexivity. }
  rewrite (bind_run _ _ _ _ _ Hnew).
  eexists _, _. split; [reflexivity |].
  assert (Hp0 : p <> 0) by (intros E; apply Hfresh; rewrite E; set_solver).
  split.
  - split; [exact Hp0 |]. simpl. apply lookup_insert_eq.
  - destruct Hopen as [Hnz Hdb]. split; [exact Hnz |]. simpl.
    rewrite lookup_insert_ne; [exact Hdb |].
    intros E. apply Hfresh. rewrite E.
    apply elem_of_union_r, elem_of_dom. eauto.
Qed.

(** C7: on an open store whose sources are in internal key order, under a
    comparator that is a total order, an iterator walked forwards from
    [seekToFirst] yields user keys strictly increasing in comparator order,
    none of them twice, and walked backwards from [seekToLast] it yields
    exactly the reverse sequence.  Both walks end: any fuel above the
    number of entries is enough. *)
Theorem iteration_order
    (jdb : JavaDB) (env : JNIEnv) (db : DBImpl) (jro : JavaReadOptions) :
  is_open jdb env db ->
  TotalOrder (comparator (options_ db)) ->
  sorted_sources db ->
  exists jiter env1 view,
    Java_org_tron_leveldb_DB_iterator jdb jro env = Some (Some jiter, env1)
    /\ (forall fuel, (length view < fuel)%nat ->
          exists env2, iterate_forward fuel jiter env1 = Some (view, env2))
    /\ @strictly_increasing (comparator (options_ db)) view
    /\ NoDup (map fst view)
    /\ (forall fuel, (length view < fuel)%nat ->
          exists env3,
            iterate_backward fuel jiter env1 = Some (rev view, env3)).
Proof.
  intros Hopen TO Hsorted.
  destruct (DB_iterator_result _ _ _ jro Hopen) as (jiter & env1 & Hit & Hio & _).
  exists jiter, env1, (it_view (DBImpl_NewIterator (getReadOptions jro) db)).
  pose proof (NewIterator_view_increasing (getReadOptions jro) db TO Hsorted)
    as Hinc.
  split; [exact Hit |]. split; [| split; [exact Hinc | split]].
  - intros fuel Hfuel. apply (iterate_forward_all _ _ _ _ Hio Hfuel).
  - apply (increasing_NoDup (C := comparator (options_ db))). exact Hinc.
  - intros fuel Hfuel. apply (iterate_backward_all _ _ _ _ Hio Hfuel).
Qed.

(** ** The default comparator is a total order *)

Lemma bytewise_compare_refl (a : bytes) : bytewise_compare a a = 0.
Proof.
  induction a as [| x a IH]; simpl; [reflexivity |].
  rewrite N.compare_refl. exact IH.
Qed.

Lemma bytewise_compare_antisym (a : bytes) :
  forall b, bytewise_compare b a = - bytewise_compare a b.
Proof.
  induction a as [| x a IH]; intros [| y b]; simpl; try reflexivity.
  rewrite (N.compare_antisym (Byte.to_N x) (Byte.to_N y)).
  destruct (Byte.to_N x ?= Byte.to_N y)%N; simpl; [apply IH | reflexivity ..].
Qed.

Lemma bytewise_compare_trans (a : bytes) :
  forall b c,
    (bytewise_compare a b < 0 -> bytewise_compare b c <= 0 ->
     bytewise_compare a c < 0)
    /\ (bytewise_compare a b <= 0 -> bytewise_compare b c <= 0 ->
        bytewise_compare a c <= 0).
Proof.
  induction a as [| x a IH]; intros [| y b] [| z c]; simpl; try lia.
  specialize (IH b c).
  destruct (N.compare_spec (Byte.to_N x) (Byte.to_N y)),
           (N.compare_spec (Byte.to_N y) (Byte.to_N z)),
           (N.compare_spec (Byte.to_N x) (Byte.to_N z));
    try lia; exact IH.
Qed.

#[global] Instance BytewiseComparator_TotalOrder : TotalOrder BytewiseComparator.
Proof.
  split; simpl.
  - apply bytewise_compare_refl.
  - intros a b H. rewrite bytewise_compare_antisym, H. reflexivity.
  - intros a b. rewrite (bytewise_compare_antisym a b). lia.
  - intros a b c. apply bytewise_compare_trans.
  - intros a b c. apply bytewise_compare_trans.
Qed.

(** ** Byte coding round trips *)

Lemma to_N_byte_of_N (n : N) : Byte.to_N (byte_of_N n) = (n mod 256)%N.
Proof.
  unfold byte_of_N. destruct (Byte.of_N (n mod 256)) as [b |] eqn:E.
  - apply Byte.to_of_N in E. exact E.
  - apply Byte.of_N_None_iff in E.
    pose proof (N.mod_upper_bound n 256). lia.
Qed.

Lemma to_N_byte_of_N_small (n : N) :
  (n < 256)%N -> Byte.to_N (byte_of_N n) = n.
Proof. intros H. rewrite to_N_byte_of_N. apply N.mod_small, H. Qed.

Lemma GetVarint_PutVarint_aux (fuel : nat) :
  forall (n : N) (r : bytes),
    (n < 2 ^ N.of_nat fuel)%N ->
    GetVarint (PutVarint_aux fuel n ++ r) = Some (n, r).
Proof.
  induction fuel as [| fuel IH]; intros n r Hn.
  - simpl in Hn. simpl. rewrite to_N_byte_of_N_small by lia.
    replace (n <? 128)%N with true by (symmetry; apply N.ltb_lt; lia).
    reflexivity.
  - simpl PutVarint_aux. destruct (N.ltb_spec n 128) as [Hs | Hb]; simpl.
    + rewrite to_N_byte_of_N_small by lia.
      replace (n <? 128)%N with true by (symmetry; apply N.ltb_lt; lia).
      reflexivity.
    + pose proof (N.mod_upper_bound n 128 ltac:(lia)) as Hm.
      pose proof (N.div_mod n 128 ltac:(lia)) as Hdm.
      assert (Hdiv : (n / 128 < 2 ^ N.of_nat fuel)%N).
      { rewrite Nat2N.inj_succ, N.pow_succ_r' in Hn.
        apply N.Div0.div_lt_upper_bound.
        assert (0 < 2 ^ N.of_nat fuel)%N
          by (apply N.neq_0_lt_0, N.pow_nonzero; lia).
        lia. }
      rewrite (IH _ r Hdiv).
      set (m := (n mod 128)%N) in *. set (q := (n / 128)%N) in *.
      clearbody m q.
      rewrite to_N_byte_of_N_small by lia.
      replace (128 + m <? 128)%N with false
        by (symmetry; apply N.ltb_ge; lia).
      f_equal. f_equal. lia.
Qed.

Lemma GetVarint_PutVarint (n : N) (r : bytes) :
  GetVarint (PutVarint n ++ r) = Some (n, r).
Proof.
  unfold PutVarint. apply GetVarint_PutVarint_aux.
  rewrite N2Nat.id. apply N.size_gt.
Qed.

(** A varint cut short does not decode: every byte but the last carries the
    continuation bit. *)
Lemma GetVarint_truncated_aux (fuel : nat) :
  forall (n : N) (k : nat),
    (k < length (PutVarint_aux fuel n))%nat ->
    GetVarint (firstn k (PutVarint_aux fuel n)) = None.
Proof.
  induction fuel as [| fuel IH]; intros n k Hk.
  - simpl in *. destruct k; [reflexivity | lia].
  - simpl in *. destruct (N.ltb_spec n 128) as [Hs | Hb]; simpl in *.
    + destruct k; [reflexivity | lia].
    + destruct k as [| k]; [reflexivity |]. simpl.
      pose proof (N.mod_upper_bound n 128 ltac:(lia)) as Hm.
      rewrite IH by lia.
      set (m := (n mod 128)%N) in *. clearbody m.
      rewrite to_N_byte_of_N_small by lia.
      replace (128 + m <? 128)%N with false
        by (symmetry; apply N.ltb_ge; lia).
      reflexivity.
Qed.

Lemma GetVarint_truncated (n : N) (k : nat) :
  (k < length (PutVarint n))%nat -> GetVarint (firstn k (PutVarint n)) = None.
Proof. apply GetVarint_truncated_aux. Qed.

Lemma GetVarint_app (l x : bytes) (n : N) (r : bytes) :
  GetVarint l = Some (n, r) -> GetVarint (l ++ x) = Some (n, r ++ x).
Proof.
  revert n r. induction l as [| b l IH]; intros n r H; [discriminate |].
  simpl in *. destruct (Byte.to_N b <? 128)%N.
  - inversion H; subst. reflexivity.
  - destruct (GetVarint l) as [[hi r'] |]; [| discriminate].
    inversion H; subst. rewrite (IH _ _ eq_refl). reflexivity.
Qed.

Lemma GetVarint_shorter (l : bytes) (n : N) (r : bytes) :
  GetVarint l = Some (n, r) -> (length r < length l)%nat.
Proof.
  revert n r. induction l as [| b l IH]; intros n r H; [discriminate |].
  simpl in *. destruct (Byte.to_N b <? 128)%N.
  - inversion H; subst. lia.
  - destruct (GetVarint l) as [[hi r'] |]; [| discriminate].
    inversion H; subst. specialize (IH _ _ eq_refl). lia.
Qed.

Lemma Checksum_bound (l : bytes) : (Checksum l < 4294967296)%N.
Proof.
  unfold Checksum. rewrite <- fold_left_rev_right.
  induction (rev l) as [| b l' IH]; simpl; [lia |].
  apply N.mod_upper_bound. lia.
Qed.

Lemma GetFixed32_PutFixed32 (n : N) (r : bytes) :
  (n < 4294967296)%N -> GetFixed32 (PutFixed32 n ++ r) = Some (n, r).
Proof.
  intros Hn. unfold PutFixed32, GetFixed32. simpl.
  rewrite !to_N_byte_of_N. f_equal. f_equal.
  replace (n / 65536)%N with (n / 256 / 256)%N
    by (rewrite N.Div0.div_div; reflexivity).
  replace (n / 16777216)%N with (n / 256 / 256 / 256)%N
    by (rewrite !N.Div0.div_div; reflexivity).
  pose proof (N.div_mod n 256 ltac:(lia)) as H1.
  pose proof (N.div_mod (n / 256) 256 ltac:(lia)) as H2.
  pose proof (N.div_mod (n / 256 / 256) 256 ltac:(lia)) as H3.
  pose proof (N.mod_upper_bound n 256 ltac:(lia)) as B1.
  pose proof (N.mod_upper_bound (n / 256) 256 ltac:(lia)) as B2.
  pose proof (N.mod_upper_bound (n / 256 / 256) 256 ltac:(lia)) as B3.
  assert (B4 : (n / 256 / 256 / 256 < 256)%N).
  { rewrite !N.Div0.div_div. apply N.Div0.div_lt_upper_bound. simpl. lia. }
  rewrite (N.mod_small (n / 256 / 256 / 256)) by exact B4.
  set (q3 := (n / 256 / 256 / 256)%N) in *.
  set (c := ((n / 256 / 256) mod 256)%N) in *.
  set (q2 := (n / 256 / 256)%N) in *.
  set (b := ((n / 256) mod 256)%N) in *.
  set (q1 := (n / 256)%N) in *.
  set (a := (n mod 256)%N) in *.
  clearbody q3 c q2 b q1 a. lia.
Qed.

Lemma GetLengthPrefixedSlice_Put (s r : bytes) :
  GetLengthPrefixedSlice (PutLengthPrefixedSlice s ++ r) = Some (s, r).
Proof.
  unfold GetLengthPrefixedSlice, PutLengthPrefixedSlice.
  rewrite <- app_assoc, GetVarint_PutVarint, Nat2N.id.
  replace (length s <=? length (s ++ r))%nat with true
    by (symmetry; apply Nat.leb_le; rewrite length_app; lia).
  rewrite take_app_length, drop_app_length. reflexivity.
Qed.

Lemma DecodeOp_EncodeOp (o : Op) (r : bytes) :
  DecodeOp (EncodeOp o ++ r) = Some (o, r).
Proof.
  destruct o as [k v | k]; simpl.
  - rewrite <- app_assoc, GetLengthPrefixedSlice_Put,
      GetLengthPrefixedSlice_Put. reflexivity.
  - rewrite GetLengthPrefixedSlice_Put. reflexivity.
Qed.

Lemma DecodeOps_EncodeOps (ops : list Op) :
  DecodeOps (length ops) (flat_map EncodeOp ops) = Some ops.
Proof.
  induction ops as [| o ops IH]; simpl; [reflexivity |].
  rewrite DecodeOp_EncodeOp, IH. reflexivity.
Qed.

Lemma DecodeBatch_EncodeBatch (seq : N) (ops : WriteBatch) :
  DecodeBatch (EncodeBatch seq ops) = Some (seq, ops).
Proof.
  unfold DecodeBatch, EncodeBatch.
  rewrite GetVarint_PutVarint, GetVarint_PutVarint, Nat2N.id,
    DecodeOps_EncodeOps. reflexivity.
Qed.

(** ** Log records *)

Lemma ReadRecord_LogRecord (p rest : bytes) :
  ReadRecord (LogRecord p ++ rest) = GoodRecord p rest.
Proof.
  unfold ReadRecord, LogRecord. rewrite <- !app_assoc.
  rewrite GetVarint_PutVarint, GetFixed32_PutFixed32 by apply Checksum_bound.
  rewrite Nat2N.id.
  replace (length p <=? length (p ++ rest))%nat with true
    by (symmetry; apply Nat.leb_le; rewrite length_app; lia).
  rewrite take_app_length, drop_app_length, N.eqb_refl. reflexivity.
Qed.

Lemma GetFixed32_short (l : bytes) :
  (length l < 4)%nat -> GetFixed32 l = None.
Proof.
  intros H. destruct l as [| a [| b [| c [| d l]]]]; simpl in *;
    try reflexivity; lia.
Qed.

(** A record cut short is not read: either its length prefix or checksum is
    incomplete, or fewer payload bytes follow than the prefix announces. *)
Lemma ReadRecord_truncated (p : bytes) (k : nat) :
  (k < length (LogRecord p))%nat ->
  ReadRecord (firstn k (LogRecord p)) = BadRecord.
Proof.
  intros Hk. unfold LogRecord in *. unfold ReadRecord.
  set (V := PutVarint (N.of_nat (length p))) in *.
  set (F := PutFixed32 (Checksum p)) in *.
  assert (HF : length F = 4%nat) by reflexivity.
  rewrite !length_app in Hk.
  destruct (Nat.lt_ge_cases k (length V)) as [Hv | Hv].
  - rewrite take_app_le by lia.
    unfold V. rewrite GetVarint_truncated by exact Hv. reflexivity.
  - rewrite take_app_ge by lia.
    unfold V at 1. rewrite GetVarint_PutVarint. fold V.
    destruct (Nat.lt_ge_cases (k - length V) 4) as [Hf | Hf].
    + rewrite GetFixed32_short; [reflexivity |].
      rewrite length_take, length_app. lia.
    + rewrite take_app_ge by lia.
      unfold F at 1. rewrite GetFixed32_PutFixed32 by apply Checksum_bound.
      rewrite Nat2N.id.
      replace (length p <=? length (take (k - length V - length F) p))%nat
        with false; [reflexivity |].
      symmetry. apply Nat.leb_gt. rewrite length_take. lia.
Qed.

Lemma ReadRecord_app (l x p rest : bytes) :
  ReadRecord l = GoodRecord p rest ->
  ReadRecord (l ++ x) = GoodRecord p (rest ++ x).
Proof.
  unfold ReadRecord. intros H.
  destruct (GetVarint l) as [[n r] |] eqn:Hv; [| discriminate].
  rewrite (GetVarint_app _ x _ _ Hv).
  destruct r as [| a [| b [| c [| d r1]]]]; try discriminate.
  simpl in *.
  destruct (Nat.leb_spec (N.to_nat n) (length r1)) as [Hle | Hgt];
    [| discriminate].
  replace (N.to_nat n <=? length (r1 ++ x))%nat with true
    by (symmetry; apply Nat.leb_le; rewrite length_app; lia).
  rewrite take_app_le by exact Hle.
  destruct (Checksum (take (N.to_nat n) r1) =? _)%N; [| discriminate].
  inversion H; subst. rewrite drop_app_le by exact Hle. reflexivity.
Qed.

Lemma ReadRecord_shorter (l p rest : bytes) :
  ReadRecord l = GoodRecord p rest -> (length rest < length l)%nat.
Proof.
  unfold ReadRecord. intros H.
  destruct (GetVarint l) as [[n r] |] eqn:Hv; [| discriminate].
  apply GetVarint_shorter in Hv.
  destruct r as [| a [| b [| c [| d r1]]]]; try discriminate.
  simpl in *.
  destruct (N.to_nat n <=? length r1)%nat; [| discriminate].
  destruct (Checksum (take (N.to_nat n) r1) =? _)%N; [| discriminate].
  inversion H; subst. rewrite length_drop. lia.
Qed.

(** ** Reading the log *)

(** Any fuel that covers the length of the log gives the same reading, so
    [RecoverLog] never stops for lack of fuel. *)
Lemma ReadBatches_fuel (fuel1 : nat) :
  forall (fuel2 : nat) (l : bytes),
    (length l <= fuel1)%nat -> (length l <= fuel2)%nat ->
    ReadBatches fuel1 l = ReadBatches fuel2 l.
Proof.
  induction fuel1 as [| f1 IH]; intros fuel2 l H1 H2.
  - destruct l; [| simpl in H1; lia].
    destruct fuel2; reflexivity.
  - destruct fuel2 as [| f2].
    + destruct l; [reflexivity | simpl in H2; lia].
    + simpl. destruct (ReadRecord l) as [p rest |] eqn:Hr; [| reflexivity].
      apply ReadRecord_shorter in Hr.
      destruct (DecodeBatch p); [| reflexivity].
      rewrite (IH f2 rest) by lia. reflexivity.
Qed.

Lemma RecoverLog_good (l p rest : bytes) (b : N * WriteBatch) :
  ReadRecord l = GoodRecord p rest ->
  DecodeBatch p = Some b ->
  RecoverLog l
  = (b :: fst (RecoverLog rest),
     (length l - length rest + snd (RecoverLog rest))%nat).
Proof.
  intros Hr Hd. unfold RecoverLog.
  pose proof (ReadRecord_shorter _ _ _ Hr) as Hlen.
  destruct (length l) as [| n] eqn:Hl; [lia |].
  simpl. rewrite Hr, Hd.
  rewrite (ReadBatches_fuel n (length rest) rest) by lia.
  destruct (ReadBatches (length rest) rest). simpl. rewrite ?Hl. reflexivity.
Qed.

Lemma RecoverLog_bad (l : bytes) :
  ReadRecord l = BadRecord -> RecoverLog l = ([], O).
Proof.
  intros Hr. unfold RecoverLog. destruct (length l); [reflexivity |].
  simpl. rewrite Hr. reflexivity.
Qed.

Lemma RecoverLog_undecodable (l p rest : bytes) :
  ReadRecord l = GoodRecord p rest -> DecodeBatch p = None ->
  RecoverLog l = ([], O).
Proof.
  intros Hr Hd. unfold RecoverLog. destruct (length l); [reflexivity |].
  simpl. rewrite Hr, Hd. reflexivity.
Qed.

(** A log read to its end stays readable when more is appended: the
    reading goes on into what was appended. *)
Lemma RecoverLog_app (n : nat) :
  forall l x : bytes,
    (length l <= n)%nat ->
    snd (RecoverLog l) = length l ->
    RecoverLog (l ++ x)
    = (fst (RecoverLog l) ++ fst (RecoverLog x),
       (length l + snd (RecoverLog x))%nat).
Proof.
  induction n as [| n IH]; intros l x Hn Hclean.
  - destruct l; [| simpl in Hn; lia]. simpl.
    destruct (RecoverLog x). reflexivity.
  - destruct l as [| a l']; [simpl; destruct (RecoverLog x); reflexivity |].
    set (l := a :: l') in *.
    destruct (ReadRecord l) as [p rest |] eqn:Hr.
    + destruct (DecodeBatch p) as [b |] eqn:Hd.
      * pose proof (ReadRecord_shorter _ _ _ Hr) as Hlen.
        rewrite (RecoverLog_good _ _ _ _ Hr Hd) in Hclean |- *.
        simpl in Hclean.
        rewrite (RecoverLog_good _ _ _ _ (ReadRecord_app _ x _ _ Hr) Hd).
        rewrite (IH rest x) by (unfold l in *; simpl in *; lia).
        cbn [fst snd app]. f_equal. rewrite !length_app.
        unfold l in *. simpl in *. lia.
      * rewrite (RecoverLog_undecodable _ _ _ Hr Hd) in Hclean.
        unfold l in Hclean. simpl in Hclean. lia.
    + rewrite (RecoverLog_bad _ Hr) in Hclean.
      unfold l in Hclean. simpl in Hclean. lia.
Qed.

Lemma RecoverLog_record (seq : N) (ops : WriteBatch) :
  RecoverLog (LogRecord (EncodeBatch seq ops))
  = ([(seq, ops)], length (LogRecord (EncodeBatch seq ops))).
Proof.
  pose proof (ReadRecord_LogRecord (EncodeBatch seq ops) []) as Hr.
  rewrite app_nil_r in Hr.
  rewrite (RecoverLog_good _ _ _ _ Hr (DecodeBatch_EncodeBatch seq ops)).
  simpl. f_equal. lia.
Qed.

Lemma RecoverLog_torn (p : bytes) (k : nat) :
  (k < length (LogRecord p))%nat ->
  RecoverLog (firstn k (LogRecord p)) = ([], O).
Proof. intros Hk. apply RecoverLog_bad, ReadRecord_truncated, Hk. Qed.

(** ** What a batch makes visible *)

Lemma Forall_MemTable_Insert `{Comparator} (P : Entry -> Prop) (e : Entry)
    (m : MemTable) :
  P e -> Forall P m -> Forall P (MemTable_Insert e m).
Proof.
  intros He Hm. induction Hm as [| x m Hx Hm IH]; simpl.
  - constructor; [exact He | constructor].
  - destruct (InternalKeyCompare x e); repeat constructor; assumption.
Qed.

Lemma find_Insert_other `{Comparator} (k : bytes) (snapshot : N) (e : Entry)
    (m : MemTable) :
  visible_at k snapshot e = false ->
  find (visible_at k snapshot) (MemTable_Insert e m)
  = find (visible_at k snapshot) m.
Proof.
  intros He. induction m as [| x m IH]; simpl.
  - rewrite He. reflexivity.
  - destruct (InternalKeyCompare x e); simpl; rewrite ?He, ?IH; reflexivity.
Qed.

Lemma MemTable_Get_Insert_newest `{C : Comparator} {TO : TotalOrder C}
    (k : bytes) (snapshot : N) (e : Entry) (m : MemTable) :
  Compare (userKey e) k = 0 ->
  (sequence e <= snapshot)%N ->
  Forall (fun x => (sequence x < sequence e)%N) m ->
  MemTable_Get (MemTable_Insert e m) k snapshot = answer_of e.
Proof.
  intros Hk Hs Hm. unfold MemTable_Get.
  assert (Hvis : visible_at k snapshot e = true).
  { unfold visible_at. rewrite Hk. simpl. apply N.leb_le, Hs. }
  induction Hm as [| x m Hx Hm IH]; simpl.
  - rewrite Hvis. reflexivity.
  - destruct (InternalKeyCompare x e) eqn:Hcmp; simpl;
      try (rewrite Hvis; reflexivity).
    replace (visible_at k snapshot x) with false; [exact IH |].
    symmetry. unfold visible_at. unfold InternalKeyCompare in Hcmp.
    destruct (Z.compare_spec (Compare (userKey x) (userKey e)) 0)
      as [Heq | Hlt | Hgt]; try discriminate.
    + change (sequence e < sequence x)%N in Hcmp. exfalso. lia.
    + assert (Compare (userKey x) k < 0)
        by (apply (Compare_trans_lt _ (userKey e)); lia).
      destruct (Z.eqb_spec (Compare (userKey x) k) 0); [lia | reflexivity].
Qed.

Lemma EntryOf_key (seq : N) (o : Op) : userKey (EntryOf seq o) = op_key o.
Proof. destruct o; reflexivity. Qed.

Lemma EntryOf_sequence (seq : N) (o : Op) : sequence (EntryOf seq o) = seq.
Proof. destruct o; reflexivity. Qed.

Lemma EntryOf_answer (seq : N) (o : Op) : answer_of (EntryOf seq o) = op_answer o.
Proof. destruct o; reflexivity. Qed.

(** After a batch has been applied, a lookup of a key the batch writes
    answers with the batch's last operation on that key. *)
Lemma MemTable_Get_ApplyBatch `{C : Comparator} {TO : TotalOrder C}
    (k : bytes) (snapshot : N) (ops : WriteBatch) :
  forall (seq : N) (m : MemTable),
    Forall (fun x => (sequence x < seq)%N) m ->
    (seq + N.of_nat (length ops) <= snapshot + 1)%N ->
    MemTable_Get (ApplyBatch seq ops m) k snapshot
    = match last_op_on k ops with
      | Some o => op_answer o
      | None => MemTable_Get m k snapshot
      end.
Proof.
  induction ops as [| o ops IH]; intros seq m Hm Hs; [reflexivity |].
  cbn [ApplyBatch last_op_on]. cbn [length] in Hs.
  rewrite IH.
  - destruct (last_op_on k ops); [reflexivity |].
    destruct (Z.eqb_spec (Compare (op_key o) k) 0) as [E | NE].
    + rewrite MemTable_Get_Insert_newest.
      * apply EntryOf_answer.
      * rewrite EntryOf_key. exact E.
      * rewrite EntryOf_sequence. lia.
      * rewrite EntryOf_sequence. exact Hm.
    + unfold MemTable_Get. rewrite find_Insert_other; [reflexivity |].
      unfold visible_at. rewrite EntryOf_key.
      destruct (Z.eqb_spec (Compare (op_key o) k) 0);
        [contradiction | reflexivity].
  - apply Forall_MemTable_Insert.
    + rewrite EntryOf_sequence. lia.
    + eapply Forall_impl; [exact Hm |]. intros x Hx. simpl in Hx. lia.
  - lia.
Qed.

Lemma ApplyBatch_bounded `{Comparator} (ops : WriteBatch) :
  forall (seq bound : N) (m : MemTable),
    Forall (fun x => (sequence x <= bound)%N) m ->
    (seq + N.of_nat (length ops) <= bound + 1)%N ->
    Forall (fun x => (sequence x <= bound)%N) (ApplyBatch seq ops m).
Proof.
  induction ops as [| o ops IH]; intros seq bound m Hm Hs; [exact Hm |].
  cbn [ApplyBatch]. cbn [length] in Hs. apply IH; [| lia].
  apply Forall_MemTable_Insert; [| exact Hm].
  rewrite EntryOf_sequence. lia.
Qed.

Lemma op_answer_not_Absent (o : Op) : op_answer o <> Absent.
Proof. destruct o; discriminate. Qed.

Lemma Lookup_after_Write (verify : bool) (wo : WriteOptions)
    (updates : WriteBatch) (db : DBImpl) (k : bytes) (o : Op) :
  TotalOrder (comparator (options_ db)) ->
  Forall (fun e => (sequence e <= last_sequence_ db)%N) (mem_ db) ->
  @last_op_on (comparator (options_ db)) k updates = Some o ->
  DBImpl_Lookup verify k (snd (DBImpl_Write true wo updates db)) = op_answer o.
Proof.
  intros TO Hm Hlast.
  assert (Hget : @MemTable_Get (comparator (options_ db))
                   (@ApplyBatch (comparator (options_ db))
                      (last_sequence_ db + 1)%N updates (mem_ db))
                   k (last_sequence_ db + N.of_nat (length updates))%N
                 = op_answer o).
  { rewrite MemTable_Get_ApplyBatch, Hlast; [reflexivity | | lia].
    eapply Forall_impl; [exact Hm |]. intros x Hx. simpl in Hx. lia. }
  pose proof (op_answer_not_Absent o) as Hna.
  unfold DBImpl_Write, LogAndInsert. simpl negb. cbv iota. cbn [snd].
  unfold MakeRoomForWrite. cbn [mem_ options_].
  match goal with |- context [if ?c then _ else _] => destruct c end.
  - unfold DBImpl_Lookup. cbn [mem_ options_ last_sequence_].
    rewrite Hget. destruct (op_answer o); try reflexivity. contradiction.
  - unfold DBImpl_Lookup, WriteLevel0Table. cbn [imm_].
    destruct (imm_ db);
      cbn [mem_ options_ last_sequence_ imm_];
      unfold MemTable_Get at 1; cbn [find]; rewrite Hget;
      destruct (op_answer o); try reflexivity; contradiction.
Qed.

(** ** Consistency of a database with its directory *)

Lemma RecoverLog_drop_app (start : nat) (L F : bytes) :
  (start <= length L)%nat ->
  snd (RecoverLog (skipn start L)) = (length L - start)%nat ->
  RecoverLog (skipn start (L ++ F))
  = (fst (RecoverLog (skipn start L)) ++ fst (RecoverLog F),
     (length L - start + snd (RecoverLog F))%nat).
Proof.
  intros Hstart Hclean. rewrite drop_app_le by exact Hstart.
  rewrite (RecoverLog_app (length (skipn start L))); [| lia |].
  - rewrite length_drop. reflexivity.
  - rewrite length_drop. exact Hclean.
Qed.

Lemma LastSequenceOf_record (last : N) (ops : WriteBatch) :
  (LastSequenceOf ((last + 1)%N, ops) <= last + N.of_nat (length ops))%N.
Proof. unfold LastSequenceOf. simpl. lia. Qed.

Lemma boundary_append (start : nat) (d : Disk) (last : N) (seq : N)
    (ops : WriteBatch) (synced : nat) :
  boundary start d ->
  batches_bounded start last d ->
  seq = (last + 1)%N ->
  let d' := {| manifest := manifest d; table_files := table_files d;
               log_file := log_file d ++ LogRecord (EncodeBatch seq ops);
               log_synced := synced |} in
  boundary start d'
  /\ batches_bounded start (last + N.of_nat (length ops)) d'.
Proof.
  intros [Hstart Hclean] Hb -> d'. unfold boundary, batches_bounded, d'.
  cbn [log_file]. rewrite (RecoverLog_drop_app _ _ _ Hstart Hclean).
  rewrite RecoverLog_record. cbn [fst snd]. rewrite length_app.
  split; [split; lia |].
  apply Forall_app. split.
  - eapply Forall_impl; [exact Hb |]. intros b Hle. simpl in Hle. lia.
  - constructor; [apply LastSequenceOf_record | constructor].
Qed.

Lemma consistent_LogAndInsert (wo : WriteOptions) (updates : WriteBatch)
    (db : DBImpl) :
  consistent db -> consistent (LogAndInsert wo updates db).
Proof.
  intros (r & Hr & Hname & Hbd & Hbb & Himm & Hsync & Hlast & Hmem).
  exists r. unfold LogAndInsert.
  cbn [disk_ manifest table_files options_ imm_ imm_log_end_ last_sequence_
       mem_ log_file log_synced].
  destruct (boundary_append _ _ _ _ updates
              (if sync wo
               then length (log_file (disk_ db)
                            ++ LogRecord (EncodeBatch (last_sequence_ db + 1)
                                            updates))
               else log_synced (disk_ db)) Hbd Hbb eq_refl) as [Hbd' Hbb'].
  split; [exact Hr |]. split; [exact Hname |].
  split; [exact Hbd' |]. split; [exact Hbb' |].
  split; [| split; [| split]].
  - intros Hsome. destruct (Himm Hsome) as [Hi1 Hi2].
    apply (boundary_append _ _ _ _ updates _ Hi1 Hi2 eq_refl).
  - destruct (sync wo); [lia |]. rewrite length_app. lia.
  - lia.
  - apply ApplyBatch_bounded; [| lia].
    eapply Forall_impl; [exact Hmem |]. intros e He. simpl in He. lia.
Qed.

Lemma ReplayManifest_app (files : list Table) (e1 e2 : list VersionEdit) :
  forall r0,
    ReplayManifest files (e1 ++ e2) r0
    = match ReplayManifest files e1 r0 with
      | Some r => ReplayManifest files e2 r
      | None => None
      end.
Proof.
  induction e1 as [| e e1 IH]; intros r0; simpl; [reflexivity |].
  destruct (ApplyEdit files e r0); [apply IH | reflexivity].
Qed.

Lemma find_number_fresh (t : Table) (files : list Table) (n : N) (t' : Table) :
  (forall x, In x files -> file_number x <> file_number t) ->
  find (has_number n) files = Some t' ->
  find (has_number n) (t :: files) = Some t'.
Proof.
  intros Hfresh Hfind. simpl. unfold has_number at 1.
  destruct (N.eqb_spec (file_number t) n) as [E | NE]; [| exact Hfind].
  apply find_some in Hfind. destruct Hfind as [Hin Hn].
  unfold has_number in Hn. apply N.eqb_eq in Hn.
  exfalso. apply (Hfresh _ Hin). congruence.
Qed.

(** Adding a table file under a fresh number does not change how the
    manifest replays. *)
Lemma ReplayManifest_fresh (t : Table) (files : list Table)
    (edits : list VersionEdit) :
  (forall x, In x files -> file_number x <> file_number t) ->
  forall r0 r,
    ReplayManifest files edits r0 = Some r ->
    ReplayManifest (t :: files) edits r0 = Some r.
Proof.
  intros Hfresh. induction edits as [| e edits IH]; intros r0 r H;
    [exact H |].
  cbn [ReplayManifest] in *.
  destruct (ApplyEdit files e r0) as [r1 |] eqn:He; [| discriminate].
  assert (He' : ApplyEdit (t :: files) e r0 = Some r1).
  { destruct e; try exact He. unfold ApplyEdit in *.
    destruct (find (has_number number) files) as [t' |] eqn:Hf;
      [| discriminate].
    rewrite (find_number_fresh _ _ _ _ Hfresh Hf). exact He. }
  rewrite He'. apply IH, H.
Qed.

Lemma NewFileNumber_fresh (d : Disk) :
  forall x, In x (table_files d) -> file_number x <> NewFileNumber d.
Proof.
  unfold NewFileNumber. intros x Hin.
  assert (file_number x
          <= fold_right (fun t acc => N.max (file_number t) acc) 0
                        (table_files d))%N; [| lia].
  induction (table_files d) as [| t ts IH]; [contradiction |].
  simpl. destruct Hin as [-> | Hin]; [lia |]. specialize (IH Hin). lia.
Qed.

Lemma boundary_end (d : Disk) : boundary (length (log_file d)) d.
Proof.
  unfold boundary. rewrite drop_all, Nat.sub_diag. split; [lia | reflexivity].
Qed.

Lemma batches_bounded_end (d : Disk) (last : N) :
  batches_bounded (length (log_file d)) last d.
Proof. unfold batches_bounded. rewrite drop_all. constructor. Qed.

Lemma boundary_drop (e : nat) (d d' : Disk) (last : N) :
  log_file d' = skipn e (log_file d) ->
  boundary e d -> batches_bounded e last d ->
  boundary 0 d' /\ batches_bounded 0 last d'.
Proof.
  intros Hlog [He Hclean] Hb. unfold boundary, batches_bounded.
  rewrite Hlog, drop_0, length_drop, Nat.sub_0_r.
  split; [split; [lia | exact Hclean] | exact Hb].
Qed.

Lemma consistent_WriteLevel0Table (db : DBImpl) :
  consistent db -> consistent (WriteLevel0Table db).
Proof.
  intros Hc. unfold WriteLevel0Table.
  destruct (imm_ db) as [m |] eqn:Himm_eq; [| exact Hc].
  destruct Hc as (r & Hr & Hname & Hbd & Hbb & Himm & Hsync & Hlast & Hmem).
  destruct Himm as [Hi1 Hi2]; [rewrite Himm_eq; discriminate |].
  set (t := BuildTable (block_size (options_ db)) (NewFileNumber (disk_ db)) m).
  exists {| r_comparator := r_comparator r;
            r_last_sequence := last_sequence_ db;
            r_levels := add_to_level 0 t (r_levels r) |}.
  cbn [disk_ manifest table_files options_ imm_ imm_log_end_ last_sequence_
       mem_ r_comparator r_last_sequence].
  split.
  - rewrite ReplayManifest_app.
    rewrite (ReplayManifest_fresh t _ _ (NewFileNumber_fresh (disk_ db)) _ _ Hr).
    cbn [ReplayManifest ApplyEdit find]. unfold has_number at 1.
    cbn [file_number t BuildTable]. rewrite N.eqb_refl. reflexivity.
  - split; [exact Hname |].
    match goal with
    | |- boundary 0 ?d' /\ _ =>
        destruct (boundary_drop (imm_log_end_ db) (disk_ db) d'
                    (last_sequence_ db) eq_refl Hi1 Hi2) as [Hb1 Hb2]
    end.
    split; [exact Hb1 |]. split; [exact Hb2 |].
    split; [intros Hne; contradiction |].
    split; [| split; [lia | exact Hmem]].
    cbn [log_file log_synced]. rewrite length_drop. lia.
Qed.

Lemma consistent_MakeRoomForWrite (db : DBImpl) :
  consistent db -> consistent (MakeRoomForWrite db).
Proof.
  intros Hc. unfold MakeRoomForWrite.
  match goal with |- context [if ?c then _ else _] => destruct c end;
    [exact Hc |].
  apply consistent_WriteLevel0Table in Hc.
  destruct Hc as (r & Hr & Hname & Hbd & Hbb & Himm & Hsync & Hlast & Hmem).
  exists r.
  cbn [disk_ manifest table_files options_ imm_ imm_log_end_ last_sequence_
       mem_ log_file log_synced].
  split; [exact Hr |]. split; [exact Hname |]. split; [exact Hbd |].
  split; [exact Hbb |]. split; [| split; [exact Hsync |]; split;
                                    [exact Hlast | constructor]].
  intros _. split; [apply boundary_end | apply batches_bounded_end].
Qed.

(** A successful write keeps the database consistent with its directory. *)
Lemma consistent_Write (good : bool) (wo : WriteOptions)
    (updates : WriteBatch) (db : DBImpl) :
  consistent db -> consistent (snd (DBImpl_Write good wo updates db)).
Proof.
  intros Hc. unfold DBImpl_Write. destruct good; simpl; [| exact Hc].
  apply consistent_MakeRoomForWrite, consistent_LogAndInsert, Hc.
Qed.

(** A newly created database is consistent with its directory. *)
Lemma consistent_NewDB (name : string) (options : Options) :
  consistent (NewDB name options).
Proof.
  eexists. unfold NewDB. cbn.
  split; [reflexivity |]. cbn.
  split; [reflexivity |].
  split; [split; [lia | reflexivity] |].
  split; [constructor |].
  split; [intros H; contradiction |].
  split; [lia |]. split; [lia | constructor].
Qed.

(** ** The log after a write *)

Lemma MakeRoomForWrite_log (db : DBImpl) :
  exists e,
    log_file (disk_ (MakeRoomForWrite db)) = skipn e (log_file (disk_ db))
    /\ log_synced (disk_ (MakeRoomForWrite db))
       = (log_synced (disk_ db) - e)%nat
    /\ (e = O \/ (imm_ db <> None /\ e = imm_log_end_ db))
    /\ options_ (MakeRoomForWrite db) = options_ db
    /\ last_sequence_ (MakeRoomForWrite db) = last_sequence_ db.
Proof.
  unfold MakeRoomForWrite, WriteLevel0Table.
  destruct (_ <=? _).
  { exists O. rewrite Nat.sub_0_r. repeat split. left. reflexivity. }
  destruct (imm_ db) eqn:Himm.
  - exists (imm_log_end_ db). repeat split. right. split; [discriminate | reflexivity].
  - exists O. rewrite Nat.sub_0_r. repeat split. left. reflexivity.
Qed.

(** What a successful write leaves in the log: the batch's record at its
    end, after the records no table covers yet ([e] bytes were dropped when
    a pending flush completed), and the whole log fsynced when [sync] was
    set. *)
Lemma Write_log (wo : WriteOptions) (updates : WriteBatch) (db : DBImpl) :
  let db' := snd (DBImpl_Write true wo updates db) in
  let log' := log_file (disk_ db)
              ++ LogRecord (EncodeBatch (last_sequence_ db + 1)%N updates) in
  exists e,
    log_file (disk_ db') = skipn e log'
    /\ log_synced (disk_ db')
       = ((if sync wo then length log' else log_synced (disk_ db)) - e)%nat
    /\ (e = O \/ (imm_ db <> None /\ e = imm_log_end_ db))
    /\ options_ db' = options_ db
    /\ last_sequence_ db'
       = (last_sequence_ db + N.of_nat (length updates))%N.
Proof.
  intros db' log'. unfold db', log', DBImpl_Write. simpl negb. cbv iota.
  cbn [snd].
  destruct (MakeRoomForWrite_log (LogAndInsert wo updates db))
    as (e & -> & -> & He & -> & ->).
  exists e. repeat split. exact He.
Qed.

(** ** Crashes *)

Lemma RecoverLog_eta (l : bytes) :
  RecoverLog l = (fst (RecoverLog l), snd (RecoverLog l)).
Proof. destruct (RecoverLog l); reflexivity. Qed.

(** The directory left by a crash in the middle of a write recovers exactly
    as the one left by a crash before the write began. *)
Lemma crash_images_agree (db : DBImpl) (updates : WriteBatch)
    (written keep : nat) :
  boundary 0 (disk_ db) ->
  (log_synced (disk_ db) <= length (log_file (disk_ db)))%nat ->
  (written
   < length (LogRecord (EncodeBatch (last_sequence_ db + 1)%N updates)))%nat ->
  let d1 := CrashImage keep (TornWrite written updates db) in
  let d2 := CrashImage keep (disk_ db) in
  let rec := RecoverLog (log_file d2) in
  RecoverLog (log_file d1) = rec
  /\ firstn (snd rec) (log_file d1) = firstn (snd rec) (log_file d2)
  /\ Nat.min (log_synced d1) (snd rec) = Nat.min (log_synced d2) (snd rec).
Proof.
  intros [_ Hclean] Hsync Hw. cbv zeta.
  unfold CrashImage, TornWrite. cbn [log_file log_synced].
  rewrite drop_0, Nat.sub_0_r in Hclean.
  set (L := log_file (disk_ db)) in *.
  set (R := LogRecord (EncodeBatch (last_sequence_ db + 1)%N updates)) in *.
  destruct (Nat.le_gt_cases keep (length L)) as [Hk | Hk].
  - (* the crash cuts inside the old log: the torn record is gone *)
    assert (Hn : Nat.max (log_synced (disk_ db))
                         (Nat.min keep (length (L ++ take written R)))
                 = Nat.max (log_synced (disk_ db)) (Nat.min keep (length L)))
      by (rewrite length_app; lia).
    rewrite Hn.
    rewrite (take_app_le L) by lia. repeat split.
  - (* the crash keeps the old log and a strict prefix of the record *)
    assert (Hn2 : Nat.max (log_synced (disk_ db)) (Nat.min keep (length L))
                  = length L) by lia.
    rewrite Hn2, firstn_all.
    set (n1 := Nat.max (log_synced (disk_ db))
                       (Nat.min keep (length (L ++ take written R)))).
    assert (Hn1 : (length L <= n1)%nat)
      by (unfold n1; rewrite length_app; lia).
    rewrite (take_app_ge L) by exact Hn1.
    rewrite take_take.
    assert (Htorn : (Nat.min (n1 - length L) written < length R)%nat) by lia.
    rewrite (RecoverLog_app (length L) L) by (lia || exact Hclean).
    pose proof (RecoverLog_torn _ _ Htorn) as Ht. fold R in Ht.
    rewrite Ht. cbn [fst snd].
    rewrite app_nil_r, Nat.add_0_r, <- Hclean, <- RecoverLog_eta.
    split; [reflexivity |]. rewrite Hclean.
    rewrite take_app_length, firstn_all. split; [reflexivity | lia].
Qed.

Lemma Open_after_torn_write (good : bool) (options : Options) (name : string)
    (db : DBImpl) (updates : WriteBatch) (written keep : nat) :
  consistent db ->
  (written
   < length (LogRecord (EncodeBatch (last_sequence_ db + 1)%N updates)))%nat ->
  DBImpl_Open good options name
    (Some (CrashImage keep (TornWrite written updates db)))
  = DBImpl_Open good options name (Some (CrashImage keep (disk_ db))).
Proof.
  intros (r & Hr & _ & Hbd & _ & _ & Hsync & _) Hw.
  unfold DBImpl_Open. destruct good; [| reflexivity]. simpl negb. cbv iota.
  destruct (error_if_exists options); [reflexivity |].
  change (manifest (CrashImage keep (TornWrite written updates db)))
    with (manifest (disk_ db)).
  change (table_files (CrashImage keep (TornWrite written updates db)))
    with (table_files (disk_ db)).
  change (manifest (CrashImage keep (disk_ db))) with (manifest (disk_ db)).
  change (table_files (CrashImage keep (disk_ db)))
    with (table_files (disk_ db)).
  rewrite Hr.
  destruct (negb (String.eqb (r_comparator r) _)); [reflexivity |].
  destruct (crash_images_agree db updates written keep Hbd Hsync Hw)
    as (H1 & H2 & H3).
  cbv zeta in H1, H2, H3. rewrite H1, H2, H3. reflexivity.
Qed.

Lemma tail_read (start : nat) (d : Disk) (last : N) (updates : WriteBatch) :
  boundary start d ->
  let R := LogRecord (EncodeBatch (last + 1)%N updates) in
  RecoverLog (skipn start (log_file d ++ R))
  = (fst (RecoverLog (skipn start (log_file d))) ++ [((last + 1)%N, updates)],
     (length (log_file d ++ R) - start)%nat)
  /\ (start <= length (log_file d ++ R))%nat.
Proof.
  intros [Hstart Hclean] R. unfold R.
  rewrite (RecoverLog_drop_app _ _ _ Hstart Hclean), RecoverLog_record.
  cbn [fst snd]. rewrite length_app. split; [f_equal; lia | lia].
Qed.

(** After a successful write the manifest still replays, and the log ends
    with the batch just written. *)
Lemma Write_recovery (wo : WriteOptions) (updates : WriteBatch) (db : DBImpl) :
  consistent db ->
  let db' := snd (DBImpl_Write true wo updates db) in
  exists r' bs,
    ReplayManifest (table_files (disk_ db')) (manifest (disk_ db'))
                   Recovered_empty = Some r'
    /\ r_comparator r' = @Name (comparator (options_ db))
    /\ RecoverLog (log_file (disk_ db'))
       = (bs ++ [((last_sequence_ db + 1)%N, updates)],
          length (log_file (disk_ db')))
    /\ Forall (fun b => (LastSequenceOf b <= last_sequence_ db)%N) bs
    /\ (r_last_sequence r'
        <= last_sequence_ db + N.of_nat (length updates))%N.
Proof.
  intros (r & Hr & Hname & Hbd & Hbb & Himm & Hsync & Hlast & Hmem) db'.
  unfold db', DBImpl_Write. simpl negb. cbv iota. cbn [snd].
  unfold MakeRoomForWrite.
  assert (Hplain :
    exists r' bs,
      ReplayManifest (table_files (disk_ (LogAndInsert wo updates db)))
        (manifest (disk_ (LogAndInsert wo updates db))) Recovered_empty
      = Some r'
      /\ r_comparator r' = @Name (comparator (options_ db))
      /\ RecoverLog (log_file (disk_ (LogAndInsert wo updates db)))
         = (bs ++ [((last_sequence_ db + 1)%N, updates)],
            length (log_file (disk_ (LogAndInsert wo updates db))))
      /\ Forall (fun b => (LastSequenceOf b <= last_sequence_ db)%N) bs
      /\ (r_last_sequence r'
          <= last_sequence_ db + N.of_nat (length updates))%N).
  { exists r, (fst (RecoverLog (log_file (disk_ db)))).
    destruct (tail_read _ _ (last_sequence_ db) updates Hbd) as [Ht Hs].
    unfold LogAndInsert. cbn [disk_ manifest table_files log_file].
    rewrite !drop_0, Nat.sub_0_r in Ht.
    repeat split; try assumption. lia. }
  destruct (_ <=? _); [exact Hplain |].
  unfold WriteLevel0Table. cbn [disk_].
  destruct (imm_ (LogAndInsert wo updates db)) as [m |] eqn:Himm_eq;
    [| exact Hplain].
  unfold LogAndInsert in Himm_eq. cbn [imm_] in Himm_eq.
  destruct Himm as [Hi1 Hi2]; [rewrite Himm_eq; discriminate |].
  set (db1 := LogAndInsert wo updates db).
  set (t := BuildTable (block_size (options_ db1))
                       (NewFileNumber (disk_ db1)) m).
  exists {| r_comparator := r_comparator r;
            r_last_sequence := last_sequence_ db1;
            r_levels := add_to_level 0 t (r_levels r) |},
         (fst (RecoverLog (skipn (imm_log_end_ db) (log_file (disk_ db))))).
  destruct (tail_read _ _ (last_sequence_ db) updates Hi1) as [Ht Hs].
  cbn [disk_ manifest table_files log_file r_comparator r_last_sequence].
  split.
  - rewrite ReplayManifest_app.
    assert (Hr1 : ReplayManifest (table_files (disk_ db1))
                    (manifest (disk_ db1)) Recovered_empty = Some r)
      by exact Hr.
    rewrite (ReplayManifest_fresh t _ _ (NewFileNumber_fresh (disk_ db1))
               _ _ Hr1).
    cbn [ReplayManifest ApplyEdit find]. unfold has_number at 1.
    cbn [file_number t BuildTable]. rewrite N.eqb_refl. reflexivity.
  - split; [exact Hname |]. split.
    + unfold db1, LogAndInsert. cbn [imm_log_end_ disk_ log_file].
      rewrite Ht, length_drop. reflexivity.
    + split; [exact Hi2 |]. unfold db1, LogAndInsert. cbn [last_sequence_]. lia.
Qed.

Lemma ReplayBatches_app `{Comparator} (bs : list (N * WriteBatch))
    (b : N * WriteBatch) (m : MemTable) (last : N) :
  ReplayBatches (bs ++ [b]) m last
  = (ApplyBatch (fst b) (snd b) (fst (ReplayBatches bs m last)),
     N.max (snd (ReplayBatches bs m last)) (LastSequenceOf b)).
Proof. unfold ReplayBatches. rewrite fold_left_app. reflexivity. Qed.

Lemma ReplayBatches_bounded `{Comparator} (bound : N)
    (bs : list (N * WriteBatch)) :
  Forall (fun b => (LastSequenceOf b <= bound)%N) bs ->
  forall (m : MemTable) (last : N),
    Forall (fun e => (sequence e <= bound)%N) m ->
    Forall (fun e => (sequence e <= bound)%N) (fst (ReplayBatches bs m last)).
Proof.
  induction 1 as [| b bs Hb _ IH]; intros m last Hm; [exact Hm |].
  unfold ReplayBatches. cbn [fold_left]. apply IH. cbn [fst].
  destruct b as [seq ops]. unfold LastSequenceOf in Hb. cbn [fst snd] in *.
  destruct ops as [| o ops]; [exact Hm |].
  apply ApplyBatch_bounded; [exact Hm |]. cbn [length] in *. lia.
Qed.

(** Once the batch's record is durable (the write was synced, or the record
    had reached the disk), a crash loses none of the batch: [Open] succeeds
    on what the crash left and every key the batch writes reads as the
    batch's last operation on it. *)
Lemma Open_after_durable_write (verify : bool) (wo : WriteOptions)
    (updates : WriteBatch) (db : DBImpl) (name : string) (keep : nat) :
  consistent db ->
  TotalOrder (comparator (options_ db)) ->
  error_if_exists (options_ db) = false ->
  let db' := snd (DBImpl_Write true wo updates db) in
  sync wo = true \/ (length (log_file (disk_ db')) <= keep)%nat ->
  exists db'',
    DBImpl_Open true (options_ db) name (Some (CrashImage keep (disk_ db')))
    = (Status_OK, Some db'')
    /\ forall k o,
         @last_op_on (comparator (options_ db)) k updates = Some o ->
         DBImpl_Lookup verify k db'' = op_answer o.
Proof.
  intros Hc TO Hexists db' Hdurable.
  destruct (Write_recovery wo updates db Hc)
    as (r' & bs & Hr' & Hname & Hrec & Hbs & Hlast).
  fold db' in Hr', Hrec.
  destruct (Write_log wo updates db) as (e & Hlog & Hsynced & _).
  fold db' in Hlog, Hsynced.
  assert (Hkeep : Nat.max (log_synced (disk_ db'))
                          (Nat.min keep (length (log_file (disk_ db'))))
                  = length (log_file (disk_ db'))).
  { destruct Hdurable as [Hs | Hk].
    - rewrite Hsynced, Hs, Hlog, length_drop. lia.
    - assert (log_synced (disk_ db') <= length (log_file (disk_ db')))%nat;
        [| lia].
      destruct (consistent_Write true wo updates db Hc)
        as (? & _ & _ & _ & _ & _ & H & _).
      exact H. }
  unfold DBImpl_Open, CrashImage. simpl negb. cbv iota.
  rewrite Hexists. cbn [manifest table_files log_file log_synced].
  rewrite Hr', Hname, String.eqb_refl. simpl negb. cbv iota.
  rewrite Hkeep, firstn_all, Hrec. cbn [fst snd].
  eexists. split; [reflexivity |].
  intros k o Ho. unfold DBImpl_Lookup.
  cbn [mem_ imm_ options_ last_sequence_].
  rewrite ReplayBatches_app. cbn [fst snd].
  rewrite MemTable_Get_ApplyBatch, Ho.
  - pose proof (op_answer_not_Absent o).
    destruct (op_answer o); try reflexivity. contradiction.
  - eapply Forall_impl.
    + apply (ReplayBatches_bounded (last_sequence_ db) bs Hbs).
      constructor.
    + intros x Hx. simpl in Hx. lia.
  - unfold LastSequenceOf. cbn [fst snd]. lia.
Qed.

(** ** Batches and sync through the binding *)

Lemma as_WriteBatch_open (jbatch : JavaWriteBatch) (env : JNIEnv)
    (b : WriteBatch) :
  batch_nativeHandle jbatch <> 0 ->
  heap env !! batch_nativeHandle jbatch = Some (ObjWriteBatch b) ->
  as_WriteBatch (batch_nativeHandle jbatch) env = Some (b, env).
Proof.
  intros Hnz Hb. unfold as_WriteBatch. rewrite Hb.
  destruct (decide (batch_nativeHandle jbatch = 0));
    [contradiction | reflexivity].
Qed.

Lemma write_result (jdb : JavaDB) (env : JNIEnv) (db : DBImpl)
    (jbatch : JavaWriteBatch) (b : WriteBatch) (jsync : bool) :
  is_open jdb env db ->
  batch_nativeHandle jbatch <> 0 ->
  heap env !! batch_nativeHandle jbatch = Some (ObjWriteBatch b) ->
  storage_failing env = false ->
  Java_org_tron_leveldb_DB_write jdb jbatch jsync env
  = Some (tt,
          set_heap
            (<[nativeDb jdb
               := ObjDB (snd (DBImpl_Write true {| sync := jsync |} b db))]>
               (heap env)) env).
Proof.
  intros Hopen Hnz Hb Hio. unfold Java_org_tron_leveldb_DB_write. not_null.
  rewrite (bind_run _ _ _ _ _ (as_WriteBatch_open _ _ _ Hnz Hb)).
  erewrite bind_run by (apply DB_Write_open, Hopen).
  rewrite Hio. reflexivity.
Qed.

(** C2: [Write] applies a batch atomically.  On an open store consistent
    with its directory: when the storage accepts the record, every key the
    batch writes reads afterwards as the batch's last operation on it, and
    once the record is durable (the write was synced, or the record had
    reached the disk) the same holds after a crash and reopening; when the
    storage fails, [write] raises an exception and the store is untouched;
    and a crash in the middle of the write, with only part of the record
    appended, reopens exactly as a crash before the write began: none of
    the batch's operations shows. *)
Theorem write_batch_atomic
    (jdb : JavaDB) (env : JNIEnv) (db : DBImpl) (jbatch : JavaWriteBatch)
    (b : WriteBatch) (jsync : bool) :
  is_open jdb env db ->
  batch_nativeHandle jbatch <> 0 ->
  heap env !! batch_nativeHandle jbatch = Some (ObjWriteBatch b) ->
  TotalOrder (comparator (options_ db)) ->
  consistent db ->
  let db' := snd (DBImpl_Write true {| sync := jsync |} b db) in
  let env' := set_heap (<[nativeDb jdb := ObjDB db']> (heap env)) env in
  let record := LogRecord (EncodeBatch (last_sequence_ db + 1)%N b) in
  (storage_failing env = false ->
     Java_org_tron_leveldb_DB_write jdb jbatch jsync env = Some (tt, env')
     /\ (forall k o,
           @last_op_on (comparator (options_ db)) k b = Some o ->
           Java_org_tron_leveldb_DB_get jdb k env'
           = Some (java_value (op_answer o), env'))
     /\ (forall name keep verify,
           error_if_exists (options_ db) = false ->
           jsync = true \/ (length (log_file (disk_ db')) <= keep)%nat ->
           exists db'',
             DBImpl_Open true (options_ db) name
                         (Some (CrashImage keep (disk_ db')))
             = (Status_OK, Some db'')
             /\ forall k o,
                  @last_op_on (comparator (options_ db)) k b = Some o ->
                  DBImpl_Lookup verify k db'' = op_answer o))
  /\ (storage_failing env = true ->
        Java_org_tron_leveldb_DB_write jdb jbatch jsync env
        = Some (tt,
                set_pending
                  (Some {| exception_class := RuntimeException;
                           message := "IO error: log append failed" |}) env))
  /\ (forall good options name written keep,
        (written < length record)%nat ->
        DBImpl_Open good options name
                    (Some (CrashImage keep (TornWrite written b db)))
        = DBImpl_Open good options name
                      (Some (CrashImage keep (disk_ db)))).
Proof.
  intros Hopen Hnz Hb TO Hc db' env' record. split; [| split].
  - intros Hio. split; [apply (write_result _ _ _ _ _ _ Hopen Hnz Hb Hio) |].
    split.
    + intros k o Ho. unfold env'.
      rewrite (get_result _ _ _ _ (is_open_update _ _ _ db' Hopen)).
      destruct Hc as (r & _ & _ & _ & _ & _ & _ & _ & Hmem).
      unfold db'. rewrite (Lookup_after_Write _ _ _ _ k o TO Hmem Ho).
      destruct o; reflexivity.
    + intros name keep verify Hexists Hdurable.
      apply (Open_after_durable_write verify {| sync := jsync |} b db name
               keep Hc TO Hexists).
      exact Hdurable.
  - intros Hio. apply (write_failing_result _ _ _ _ _ _ Hopen Hio Hnz Hb).
  - intros good options name written keep Hw.
    apply Open_after_torn_write; assumption.
Qed.


(** ** Consistency after opening *)

Lemma GetVarint_prefix (l : bytes) :
  forall (n : N) (r : bytes),
    GetVarint l = Some (n, r) ->
    exists pre, l = pre ++ r /\ forall x, GetVarint (pre ++ x) = Some (n, x).
Proof.
  induction l as [| b l IH]; intros n r H; [discriminate |].
  simpl in H. destruct (Byte.to_N b <? 128)%N eqn:Hb.
  - inversion H; subst. exists [b]. split; [reflexivity |].
    intros x. simpl. rewrite Hb. reflexivity.
  - destruct (GetVarint l) as [[hi r'] |]; [| discriminate].
    inversion H; subst. destruct (IH _ _ eq_refl) as (pre & Hl & Hx).
    exists (b :: pre). split; [rewrite Hl at 1; reflexivity |].
    intros x. simpl. rewrite Hb, Hx. reflexivity.
Qed.

(** A record that reads well is a prefix of the input, and reads the same
    whatever follows it. *)
Lemma ReadRecord_prefix (l p rest : bytes) :
  ReadRecord l = GoodRecord p rest ->
  exists P, l = P ++ rest /\ forall x, ReadRecord (P ++ x) = GoodRecord p x.
Proof.
  unfold ReadRecord. intros H.
  destruct (GetVarint l) as [[n r] |] eqn:Hv; [| discriminate].
  destruct (GetVarint_prefix _ _ _ Hv) as (pre & Hl & Hx).
  destruct r as [| a [| b [| c [| d r1]]]]; try discriminate.
  simpl in H.
  destruct (Nat.leb_spec (N.to_nat n) (length r1)) as [Hle | Hgt];
    [| discriminate].
  destruct (Checksum (take (N.to_nat n) r1) =? _)%N eqn:Hcrc; [| discriminate].
  inversion H; subst p rest.
  exists (pre ++ [a; b; c; d] ++ take (N.to_nat n) r1). split.
  - rewrite Hl at 1. rewrite <- !app_assoc. simpl.
    rewrite take_drop. reflexivity.
  - intros x. rewrite <- !app_assoc, Hx. simpl.
    replace (N.to_nat n <=? length (take (N.to_nat n) r1 ++ x))%nat with true
      by (symmetry; apply Nat.leb_le; rewrite length_app, length_take; lia).
    assert (Hlen : length (take (N.to_nat n) r1) = N.to_nat n)
      by (rewrite length_take; lia).
    assert (Ht : take (N.to_nat n) (take (N.to_nat n) r1 ++ x)
                 = take (N.to_nat n) r1).
    { rewrite take_app_le by lia. rewrite take_take. f_equal. lia. }
    assert (Hd : drop (N.to_nat n) (take (N.to_nat n) r1 ++ x) = x).
    { rewrite drop_app_ge by lia. rewrite Hlen, Nat.sub_diag. reflexivity. }
    rewrite Ht, Hd, Hcrc. reflexivity.
Qed.

(** The bytes recovery consumes are a prefix of the log that reads to its
    end and yields the same batches. *)
Lemma RecoverLog_prefix (n : nat) :
  forall l : bytes,
    (length l <= n)%nat ->
    (snd (RecoverLog l) <= length l)%nat
    /\ RecoverLog (firstn (snd (RecoverLog l)) l) = RecoverLog l.
Proof.
  induction n as [| n IH]; intros l Hn.
  - destruct l; [| simpl in Hn; lia]. split; [simpl; lia | reflexivity].
  - destruct (ReadRecord l) as [p rest |] eqn:Hr.
    + destruct (DecodeBatch p) as [b |] eqn:Hd.
      * pose proof (ReadRecord_shorter _ _ _ Hr) as Hlen.
        destruct (ReadRecord_prefix _ _ _ Hr) as (P & Hl & HP).
        destruct (IH rest ltac:(lia)) as [Hc Hrest].
        rewrite (RecoverLog_good _ _ _ _ Hr Hd). cbn [fst snd].
        assert (HPlen : (length l - length rest = length P)%nat)
          by (rewrite Hl, length_app; lia).
        rewrite HPlen. split; [rewrite Hl, length_app; lia |].
        rewrite Hl at 1. rewrite take_app_ge by lia.
        replace (length P + snd (RecoverLog rest) - length P)%nat
          with (snd (RecoverLog rest)) by lia.
        rewrite (RecoverLog_good _ _ _ _ (HP _) Hd), Hrest.
        f_equal. rewrite length_app, length_take. lia.
      * rewrite (RecoverLog_undecodable _ _ _ Hr Hd).
        split; [simpl; lia | reflexivity].
    + rewrite (RecoverLog_bad _ Hr). split; [simpl; lia | reflexivity].
Qed.

Lemma ReplayBatches_last `{Comparator} (bs : list (N * WriteBatch)) :
  forall (m : MemTable) (last : N),
    (last <= snd (ReplayBatches bs m last))%N
    /\ Forall (fun b => (LastSequenceOf b <= snd (ReplayBatches bs m last))%N)
              bs.
Proof.
  induction bs as [| b bs IH]; intros m last; [split; [simpl; lia | constructor] |].
  unfold ReplayBatches. cbn [fold_left fst snd].
  destruct (IH (ApplyBatch (fst b) (snd b) m)
               (N.max last (LastSequenceOf b))) as [Hge Hall].
  unfold ReplayBatches in Hge, Hall. split; [lia |].
  constructor; [lia | exact Hall].
Qed.

(** Whatever the directory holds, a database that [Open] returns is
    consistent with it. *)
Lemma consistent_Open (good : bool) (options : Options) (name : string)
    (dir : option Disk) (st : Status) (db : DBImpl) :
  DBImpl_Open good options name dir = (st, Some db) -> consistent db.
Proof.
  unfold DBImpl_Open. destruct good; [| discriminate]. simpl negb. cbv iota.
  destruct dir as [d |].
  - destruct (error_if_exists options); [discriminate |].
    destruct (ReplayManifest _ _ _) as [r |] eqn:Hr; [| discriminate].
    destruct (String.eqb_spec (r_comparator r) (@Name (comparator options)))
      as [Hname | Hname]; [| discriminate].
    simpl negb. cbv iota. intros H. inversion H; subst st db. clear H.
    destruct (RecoverLog_prefix (length (log_file d)) (log_file d) (le_n _))
      as [Hc Hpre].
    destruct (ReplayBatches_last (H := comparator options)
                (fst (RecoverLog (log_file d))) [] (r_last_sequence r))
      as [Hge Hall].
    exists r. cbn [disk_ manifest table_files options_ imm_ last_sequence_
                   mem_ log_file log_synced].
    split; [exact Hr |]. split; [exact Hname |].
    split; [| split; [| split; [| split; [| split]]]].
    + unfold boundary. cbn [log_file]. rewrite drop_0, Hpre, length_take.
      split; lia.
    + unfold batches_bounded. cbn [log_file]. rewrite drop_0, Hpre.
      exact Hall.
    + intros Hne. contradiction.
    + rewrite length_take. lia.
    + exact Hge.
    + apply (ReplayBatches_bounded _ _ Hall). constructor.
  - destruct (create_if_missing options); [| discriminate].
    intros H. inversion H; subst. apply consistent_NewDB.
Qed.

(** ** The sources stay sorted *)

Lemma BuildBlocks_entries (block_size : Z) (es : list Entry) :
  forall (cur : list Entry) (cur_size : Z),
    flat_map block_entries (BuildBlocks block_size cur cur_size es)
    = rev cur ++ es.
Proof.
  induction es as [| e es IH]; intros cur cur_size; simpl.
  - destruct cur; simpl; rewrite ?app_nil_r; reflexivity.
  - destruct (block_size <=? cur_size + EntrySize e); simpl.
    + rewrite IH. simpl. rewrite <- app_assoc. reflexivity.
    + rewrite IH. simpl. rewrite <- app_assoc. reflexivity.
Qed.

(** A table returns the entries it was built from, in their order. *)
Lemma TableEntries_BuildTable (block_size : Z) (number : N) (es : list Entry) :
  TableEntries (BuildTable block_size number es) = es.
Proof. unfold TableEntries, BuildTable. simpl. apply BuildBlocks_entries. Qed.

Lemma concat_add_to_level_0 {A} (x : A) (ls : list (list A)) :
  concat (add_to_level 0 x ls) = x :: concat ls.
Proof. destruct ls; reflexivity. Qed.

Lemma sorted_sources_NewDB (name : string) (options : Options) :
  sorted_sources (NewDB name options).
Proof. unfold sorted_sources. repeat constructor. Qed.

(** A write keeps every source sorted: insertion keeps the memtable in
    order and a flush builds its table from a sorted memtable. *)
Lemma sorted_sources_Write (good : bool) (wo : WriteOptions)
    (updates : WriteBatch) (db : DBImpl) :
  TotalOrder (comparator (options_ db)) ->
  sorted_sources db ->
  sorted_sources (snd (DBImpl_Write good wo updates db)).
Proof.
  intros TO Hs. unfold DBImpl_Write. destruct good; [| exact Hs].
  simpl negb. cbv iota. cbn [snd].
  unfold sorted_sources, Sources in Hs.
  apply Forall_cons in Hs. destruct Hs as [Hmem Hrest].
  apply Forall_app in Hrest. destruct Hrest as [Himm Htabs].
  assert (Hmem' : Sorted (@ikey_le (comparator (options_ db)))
                    (@ApplyBatch (comparator (options_ db))
                       (last_sequence_ db + 1)%N updates (mem_ db)))
    by (apply ApplyBatch_Sorted, Hmem).
  unfold MakeRoomForWrite, LogAndInsert. cbn [mem_ options_].
  destruct (_ <=? _).
  - unfold sorted_sources, Sources. cbn [mem_ imm_ current_ options_].
    constructor; [exact Hmem' |]. apply Forall_app. split; assumption.
  - unfold WriteLevel0Table. cbn [imm_].
    destruct (imm_ db) as [m |];
      unfold sorted_sources, Sources; cbn [mem_ imm_ current_ options_].
    + constructor; [constructor |]. constructor; [exact Hmem' |].
      rewrite concat_add_to_level_0. cbn [map].
      constructor; [| exact Htabs].
      rewrite TableEntries_BuildTable. inversion Himm; assumption.
    + constructor; [constructor |]. constructor; [exact Hmem' | exact Htabs].
Qed.

Lemma In_concat_add_to_level {A} (x y : A) (level : nat) :
  forall ls : list (list A),
    In y (concat (add_to_level level x ls)) -> y = x \/ In y (concat ls).
Proof.
  induction level as [| level IH]; intros [| l ls] Hin; simpl in *.
  - destruct Hin as [-> | []]. left. reflexivity.
  - destruct Hin as [-> | Hin]; [left; reflexivity | right; exact Hin].
  - destruct (IH [] Hin) as [-> | []]. left. reflexivity.
  - apply in_app_or in Hin. destruct Hin as [Hin | Hin].
    + right. apply in_or_app. left. exact Hin.
    + destruct (IH ls Hin) as [-> | H]; [left; reflexivity |].
      right. apply in_or_app. right. exact H.
Qed.

Lemma In_concat_remove_from_level (y : Table) (n : N) (level : nat) :
  forall ls ls' : Version,
    remove_from_level level n ls = Some ls' ->
    In y (concat ls') -> In y (concat ls).
Proof.
  induction level as [| level IH]; intros [| l ls] ls' H Hin; simpl in *;
    try discriminate.
  - destruct (existsb (has_number n) l); [| discriminate].
    inversion H; subst. simpl in Hin. apply in_app_or in Hin.
    apply in_or_app. destruct Hin as [Hin | Hin]; [left | right; exact Hin].
    apply list_elem_of_In in Hin. apply list_elem_of_filter in Hin.
    apply list_elem_of_In. tauto.
  - destruct (remove_from_level level n ls) as [r' |] eqn:Hr; [| discriminate].
    inversion H; subst. simpl in Hin. apply in_app_or in Hin.
    apply in_or_app. destruct Hin as [Hin | Hin]; [left; exact Hin | right].
    apply (IH _ _ Hr Hin).
Qed.

(** The version the manifest replays to only holds tables that are files
    of the directory. *)
Lemma ReplayManifest_tables (files : list Table) (edits : list VersionEdit) :
  forall r0 r,
    ReplayManifest files edits r0 = Some r ->
    (forall t, In t (concat (r_levels r0)) -> In t files) ->
    forall t, In t (concat (r_levels r)) -> In t files.
Proof.
  induction edits as [| e edits IH]; intros r0 r H H0.
  - inversion H; subst. exact H0.
  - cbn [ReplayManifest] in H.
    destruct (ApplyEdit files e r0) as [r1 |] eqn:He; [| discriminate].
    apply (IH _ _ H). intros t Hin.
    destruct e; cbn [ApplyEdit] in He; try discriminate.
    + inversion He; subst. apply H0, Hin.
    + inversion He; subst. apply H0, Hin.
    + destruct (find (has_number number) files) as [t' |] eqn:Hf;
        [| discriminate].
      inversion He; subst. cbn [r_levels] in Hin.
      destruct (In_concat_add_to_level _ _ _ _ Hin) as [-> | Hin'];
        [| apply H0, Hin'].
      apply find_some in Hf. tauto.
    + destruct (remove_from_level level number (r_levels r0)) as [ls |] eqn:Hrm;
        [| discriminate].
      inversion He; subst. cbn [r_levels] in Hin.
      apply H0. apply (In_concat_remove_from_level _ _ _ _ _ Hrm Hin).
Qed.

Lemma ReplayBatches_Sorted `{C : Comparator} {TO : TotalOrder C}
    (bs : list (N * WriteBatch)) :
  forall (m : MemTable) (last : N),
    Sorted ikey_le m -> Sorted ikey_le (fst (ReplayBatches bs m last)).
Proof.
  induction bs as [| b bs IH]; intros m last Hm; [exact Hm |].
  unfold ReplayBatches. cbn [fold_left]. apply IH.
  cbn [fst]. apply ApplyBatch_Sorted, Hm.
Qed.

(** When the table files of the directory are sorted, so are the sources
    of the database that [Open] returns. *)
Lemma sorted_sources_Open (good : bool) (options : Options) (name : string)
    (dir : option Disk) (st : Status) (db : DBImpl) :
  TotalOrder (comparator options) ->
  (forall d, dir = Some d -> @tables_sorted (comparator options) d) ->
  DBImpl_Open good options name dir = (st, Some db) ->
  sorted_sources db.
Proof.
  intros TO Htabs. unfold DBImpl_Open. destruct good; [| discriminate].
  simpl negb. cbv iota. destruct dir as [d |].
  - specialize (Htabs d eq_refl).
    destruct (error_if_exists options); [discriminate |].
    destruct (ReplayManifest _ _ _) as [r |] eqn:Hr; [| discriminate].
    destruct (negb _); [discriminate |].
    intros H. inversion H; subst st db. clear H.
    unfold sorted_sources, Sources. cbn [mem_ imm_ current_ options_ app].
    constructor.
    + apply (ReplayBatches_Sorted (C := comparator options)). constructor.
    + apply Forall_forall. intros es Hin. apply list_elem_of_In in Hin.
      apply in_map_iff in Hin. destruct Hin as (t & <- & Hin).
      unfold tables_sorted in Htabs. rewrite Forall_forall in Htabs.
      apply Htabs, list_elem_of_In.
      apply (ReplayManifest_tables _ _ _ _ Hr); [| exact Hin].
      intros t' [].
  - destruct (create_if_missing options); [| discriminate].
    intros H. inversion H; subst. apply sorted_sources_NewDB.
Qed.

(** A write keeps the table files of the directory sorted. *)
Lemma tables_sorted_Write (good : bool) (wo : WriteOptions)
    (updates : WriteBatch) (db : DBImpl) :
  sorted_sources db ->
  @tables_sorted (comparator (options_ db)) (disk_ db) ->
  @tables_sorted (comparator (options_ db))
    (disk_ (snd (DBImpl_Write good wo updates db))).
Proof.
  intros Hs Ht. unfold DBImpl_Write. destruct good; [| exact Ht].
  simpl negb. cbv iota. cbn [snd].
  unfold MakeRoomForWrite, LogAndInsert. cbn [mem_ options_].
  destruct (_ <=? _); [exact Ht |].
  unfold WriteLevel0Table. cbn [imm_ disk_].
  destruct (imm_ db) as [m |] eqn:Himm; [| exact Ht].
  unfold tables_sorted. cbn [table_files disk_ options_].
  constructor; [| exact Ht].
  rewrite TableEntries_BuildTable.
  unfold sorted_sources, Sources in Hs. rewrite Himm in Hs.
  apply Forall_cons in Hs. destruct Hs as [_ Hs].
  apply Forall_cons in Hs. destruct Hs as [Hm _]. exact Hm.
Qed.

(** ** The concrete store: the hypotheses hold and the theorems apply *)

Ltac by_evaluation :=
  first
    [ reflexivity
    | discriminate
    | solve [vm_compute; first [reflexivity | lia | discriminate]]
    | solve [vm_compute; repeat constructor; discriminate] ].

Ltac example_consistent :=
  eexists; split; [vm_compute; reflexivity |];
  split; [reflexivity |];
  split; [split; [vm_compute; lia | vm_compute; reflexivity] |];
  split; [vm_compute; repeat constructor; discriminate |];
  split; [intros H; exfalso; apply H; reflexivity |];
  split; [vm_compute; lia |];
  split; [vm_compute; discriminate |];
  vm_compute; repeat constructor; discriminate.

(** The key "a", whose older value sits in the level-1 table, reads as the
    value just put, and as absent once deleted. *)
Lemma put_get_delete_get_witness :
  is_open example_jdb example_env example_db
  /\ storage_failing example_env = false
  /\ (exists env1,
        Java_org_tron_leveldb_DB_put___3B_3B example_jdb (key "a") (key "new")
          example_env = Some (tt, env1)
        /\ Java_org_tron_leveldb_DB_get example_jdb (key "a") env1
           = Some (Some (key "new"), env1)
        /\ pending env1 = pending example_env)
  /\ (exists env2,
        Java_org_tron_leveldb_DB_delete example_jdb (key "a") true example_env
        = Some (tt, env2)
        /\ Java_org_tron_leveldb_DB_get example_jdb (key "a") env2
           = Some (None, env2)
        /\ pending env2 = pending example_env).
Proof.
  split; [split; by_evaluation |]. split; [by_evaluation |].
  apply (put_get_delete_get example_jdb example_env example_db
           (key "a") (key "new") true).
  - split; by_evaluation.
  - by_evaluation.
  - exact BytewiseComparator_TotalOrder.
Defined.

Lemma closed_store_operations_fail_witness :
  is_open example_jdb example_env example_db
  /\ exists jdb' env',
       Java_org_tron_leveldb_DB_close example_jdb example_env
       = Some (jdb', env')
       /\ Java_org_tron_leveldb_DB_get jdb' (key "a") env'
          = Some (None, set_pending (Some IllegalState) env').
Proof.
  split; [split; by_evaluation |].
  destruct (closed_store_operations_fail example_jdb example_env example_db)
    as (jdb' & env' & Hclose & _ & _ & _ & Hget & _).
  - split; by_evaluation.
  - exists jdb', env'. split; [exact Hclose | apply Hget].
Defined.

Lemma get_absent_key_returns_null_witness :
  is_open example_jdb example_env example_db
  /\ IsNotFound (fst (DBImpl_Get (get_options example_jdb) (key "zz")
                        example_db)) = true
  /\ Java_org_tron_leveldb_DB_get example_jdb (key "zz") example_env
     = Some (None, example_env).
Proof.
  split; [split; by_evaluation |]. split; [by_evaluation |].
  apply (get_absent_key_returns_null example_jdb example_env example_db
           (key "zz")).
  - split; by_evaluation.
  - by_evaluation.
Defined.

Lemma put_delete_discard_engine_failure_witness :
  is_open example_jdb example_env_failing example_db
  /\ storage_failing example_env_failing = true
  /\ code (fst (DBImpl_Put false WriteOptions_default (key "k") (key "v")
                  example_db)) = kIOError
  /\ Java_org_tron_leveldb_DB_put___3B_3B example_jdb (key "k") (key "v")
       example_env_failing = Some (tt, example_env_failing)
  /\ Java_org_tron_leveldb_DB_delete example_jdb (key "k") true
       example_env_failing = Some (tt, example_env_failing).
Proof.
  split; [split; by_evaluation |]. split; [by_evaluation |].
  destruct (put_delete_discard_engine_failure example_jdb example_env_failing
              example_db (key "k") (key "v") true example_jbatch example_batch)
    as (H1 & _ & H2 & _ & H3 & _).
  - split; by_evaluation.
  - by_evaluation.
  - by_evaluation.
  - by_evaluation.
  - split; [exact H1 |]. split; [exact H2 | exact H3].
Defined.

Lemma peekNext_then_next_witness :
  iter_open example_jiter example_env example_iterator
  /\ Iterator_Valid example_iterator = true
  /\ exists kv env',
       Java_org_tron_leveldb_DBIterator_peekNext example_jiter example_env
       = Some (Some kv, example_env)
       /\ Java_org_tron_leveldb_DBIterator_next example_jiter example_env
          = Some (Some kv, env')
       /\ iter_open example_jiter env'
            (Iterator_at example_iterator (S (it_pos example_iterator))).
Proof.
  split; [split; by_evaluation |]. split; [by_evaluation |].
  destruct (peekNext_then_next example_jiter example_env example_iterator)
    as (kv & env' & _ & Hpeek & Hnext & Hopen & _).
  - split; by_evaluation.
  - by_evaluation.
  - exists kv, env'. split; [exact Hpeek |]. split; [exact Hnext | exact Hopen].
Defined.

Lemma iteration_order_witness :
  is_open example_jdb example_env example_db
  /\ sorted_sources example_db
  /\ exists jiter env1 view,
       Java_org_tron_leveldb_DB_iterator example_jdb
         {| verifyChecksums := false; fillCache := true |} example_env
       = Some (Some jiter, env1)
       /\ (exists env2, iterate_forward (S (length view)) jiter env1
                        = Some (view, env2))
       /\ @strictly_increasing BytewiseComparator view
       /\ (exists env3, iterate_backward (S (length view)) jiter env1
                        = Some (rev view, env3)).
Proof.
  split; [split; by_evaluation |].
  assert (Hsorted : sorted_sources example_db).
  { unfold sorted_sources. vm_compute Sources.
    repeat constructor; vm_compute; discriminate. }
  split; [exact Hsorted |].
  destruct (iteration_order example_jdb example_env example_db
              {| verifyChecksums := false; fillCache := true |})
    as (jiter & env1 & view & Hit & Hfwd & Hinc & _ & Hbwd).
  - split; by_evaluation.
  - exact BytewiseComparator_TotalOrder.
  - exact Hsorted.
  - exists jiter, env1, view. split; [exact Hit |].
    split; [apply Hfwd; lia |]. split; [exact Hinc | apply Hbwd; lia].
Defined.

Lemma write_batch_atomic_witness :
  is_open example_jdb example_env example_db
  /\ consistent example_db
  /\ (exists env',
        Java_org_tron_leveldb_DB_write example_jdb example_jbatch true
          example_env = Some (tt, env')
        /\ Java_org_tron_leveldb_DB_get example_jdb (key "x") env'
           = Some (Some (key "1"), env')
        /\ Java_org_tron_leveldb_DB_get example_jdb (key "y") env'
           = Some (Some (key "2"), env'))
  /\ (forall written keep,
        (written
         < length (LogRecord (EncodeBatch (last_sequence_ example_db + 1)%N
                                example_batch)))%nat ->
        DBImpl_Open true example_options "/data/db"
          (Some (CrashImage keep (TornWrite written example_batch example_db)))
        = DBImpl_Open true example_options "/data/db"
            (Some (CrashImage keep (disk_ example_db)))).
Proof.
  split; [split; by_evaluation |].
  assert (Hc : consistent example_db) by example_consistent.
  split; [exact Hc |].
  destruct (write_batch_atomic example_jdb example_env example_db
              example_jbatch example_batch true)
    as (Hok & _ & Hcrash).
  - split; by_evaluation.
  - by_evaluation.
  - by_evaluation.
  - exact BytewiseComparator_TotalOrder.
  - exact Hc.
  - destruct Hok as (Hwrite & Hget & _); [by_evaluation |].
    split.
    + eexists. split; [exact Hwrite |].
      split; [apply (Hget (key "x") (OpPut (key "x") (key "1"))); by_evaluation
             | apply (Hget (key "y") (OpPut (key "y") (key "2")));
               by_evaluation].
    + intros written keep Hw. apply Hcrash, Hw.
Defined.


(** At its first entry the iterator of the example answers true to both
    questions. *)
Lemma hasNext_hasPrev_agree_witness :
  iter_open example_jiter example_env example_iterator
  /\ Java_org_tron_leveldb_DBIterator_hasNext example_jiter example_env
     = Some (true, example_env)
  /\ Java_org_tron_leveldb_DBIterator_hasPrev example_jiter example_env
     = Some (true, example_env)
  /\ it_view example_iterator !! it_pos example_iterator
     = Some (key "a", key "old").
Proof.
  assert (Hopen : iter_open example_jiter example_env example_iterator)
    by (split; by_evaluation).
  split; [exact Hopen |].
  destruct (hasNext_hasPrev_agree example_jiter example_env)
    as (_ & Hvalid & _).
  destruct (Hvalid example_iterator Hopen) as (Hn & Hp & _).
  split; [rewrite Hn; reflexivity |].
  split; [rewrite Hp; reflexivity | reflexivity].
Defined.

(** ** Scenarios *)

(** [Put("a","1",sync=true)], kill the process, restart: [Get("a")] returns
    "1", whatever part of the unsynced log the crash loses. *)
Example synced_put_survives_crash :
  value_of
    (after_crash 0
       (jdb ← open_example;
        Java_org_tron_leveldb_DB_put___3B_3BZ jdb (key "a") (key "1") true)
       (jdb ← open_example; Java_org_tron_leveldb_DB_get jdb (key "a"))
       empty_env)
  = Some (Some (key "1")).
Proof. vm_compute. reflexivity. Qed.

(** Without [sync] the same write is lost when the crash comes before the
    record reaches the disk. *)
Example unsynced_put_may_be_lost :
  value_of
    (after_crash 0
       (jdb ← open_example;
        Java_org_tron_leveldb_DB_put___3B_3BZ jdb (key "a") (key "1") false)
       (jdb ← open_example; Java_org_tron_leveldb_DB_get jdb (key "a"))
       empty_env)
  = Some None.
Proof. vm_compute. reflexivity. Qed.

(** [Put("a","1")], [Delete("a")], [Get("a")] returns NotFound. *)
Example put_delete_get :
  value_of
    ((jdb ← open_example;
      _ ← Java_org_tron_leveldb_DB_put___3B_3B jdb (key "a") (key "1");
      _ ← Java_org_tron_leveldb_DB_delete jdb (key "a") false;
      Java_org_tron_leveldb_DB_get jdb (key "a")) empty_env)
  = Some None.
Proof. vm_compute. reflexivity. Qed.

(** A crash ten bytes into the record of the batch {x=1, y=2}: after the
    restart neither "x" nor "y" is there, and "b", written before, is. *)
Example torn_batch_shows_nothing :
  value_of
    ((jdb ← open_example;
      x ← Java_org_tron_leveldb_DB_get jdb (key "x");
      y ← Java_org_tron_leveldb_DB_get jdb (key "y");
      b ← Java_org_tron_leveldb_DB_get jdb (key "b");
      mret (x, y, b))
       (env_with (CrashImage 1000 (TornWrite 10 example_batch example_db))
                 false))
  = Some (None, None, Some (key "2")).
Proof. vm_compute. reflexivity. Qed.

(** The memtable of the example overflows its budget of 64 bytes twice
    during these writes, so one memtable is flushed to a level-0 table and
    another is pending; reads and iteration see all of it. *)
Example flush_keeps_entries :
  value_of
    ((jdb ← open_example;
      _ ← Java_org_tron_leveldb_DB_put___3B_3B jdb (key "k1")
            (key "0123456789012345678901234567890123456789");
      _ ← Java_org_tron_leveldb_DB_put___3B_3B jdb (key "k2")
            (key "0123456789012345678901234567890123456789");
      _ ← Java_org_tron_leveldb_DB_put___3B_3B jdb (key "k3")
            (key "0123456789012345678901234567890123456789");
      _ ← Java_org_tron_leveldb_DB_put___3B_3B jdb (key "k4")
            (key "0123456789012345678901234567890123456789");
      _ ← Java_org_tron_leveldb_DB_put___3B_3B jdb (key "k0") (key "v");
      files ← Java_org_tron_leveldb_DB_getProperty jdb
                "leveldb.num-files-at-level0";
      v ← Java_org_tron_leveldb_DB_get jdb (key "k1");
      it ← Java_org_tron_leveldb_DB_iterator jdb
             {| verifyChecksums := true; fillCache := true |};
      keys ← match it with
             | Some jiter => iterate_forward 10 jiter
             | None => mret []
             end;
      mret (files, v, map fst keys)) empty_env)
  = Some (Some "1",
          Some (key "0123456789012345678901234567890123456789"),
          [key "k0"; key "k1"; key "k2"; key "k3"; key "k4"]).
Proof. vm_compute. reflexivity. Qed.

(** The four ways [init] ends. *)
Example init_creates :
  value_of (open_example empty_env)
  = Some {| nativeDb := 1; nativeComparator := 0; nativeLogger := 0;
            verifyChecksumsSet := false |}
  /\ raised (open_example empty_env) = None.
Proof. split; vm_compute; reflexivity. Qed.

Example init_missing_directory :
  raised (Java_org_tron_leveldb_DB_init new_jdb "/data/db"
            {| createIfMissing := false; paranoidChecks := false;
               compressionType_persistentId := 1; blockSize := 4096;
               writeBufferSize := 64; cacheSize := 0; maxOpenFiles := 1000;
               jcomparator := None; jlogger := None |} empty_env)
  = Some FileNotFoundException.
Proof. vm_compute. reflexivity. Qed.

Example init_storage_failure :
  raised (open_example (env_with corrupt_directory true))
  = Some RuntimeException.
Proof. vm_compute. reflexivity. Qed.

Example init_corrupt_manifest :
  raised (open_example (env_with corrupt_directory false))
  = Some IOException.
Proof. vm_compute. reflexivity. Qed.

(* ===================================================================== *)
(** * Part III: further properties of the binding                         *)
(* ===================================================================== *)

(** ** Handles of different kinds are different addresses *)

Lemma as_WriteBatch_batch_open (jbatch : JavaWriteBatch) (env : JNIEnv)
    (b : WriteBatch) :
  batch_open jbatch env b ->
  as_WriteBatch (batch_nativeHandle jbatch) env = Some (b, env).
Proof. intros [Hnz Hb]. apply (as_WriteBatch_open _ _ _ Hnz Hb). Qed.

Lemma is_open_other_insert (jdb : JavaDB) (env : JNIEnv) (db : DBImpl)
    (p : Z) (o : NativeObject) :
  is_open jdb env db -> p <> nativeDb jdb ->
  is_open jdb (set_heap (<[p := o]> (heap env)) env) db.
Proof.
  intros [Hnz Hdb] Hp. split; [exact Hnz |]. simpl.
  rewrite lookup_insert_ne; [exact Hdb | exact Hp].
Qed.

Lemma is_open_other_delete (jdb : JavaDB) (env : JNIEnv) (db : DBImpl)
    (p : Z) :
  is_open jdb env db -> p <> nativeDb jdb ->
  is_open jdb (set_heap (delete p (heap env)) env) db.
Proof.
  intros [Hnz Hdb] Hp. split; [exact Hnz |]. simpl.
  rewrite lookup_delete_ne; [exact Hdb | exact Hp].
Qed.

Lemma iter_not_db (jdb : JavaDB) (jiter : JavaDBIterator) (env : JNIEnv)
    (db : DBImpl) (it : Iterator) :
  is_open jdb env db -> iter_open jiter env it ->
  iter_nativeHandle jiter <> nativeDb jdb.
Proof.
  intros [_ Hdb] [_ Hit] E. rewrite E, Hdb in Hit. discriminate Hit.
Qed.

Lemma batch_not_db (jdb : JavaDB) (jbatch : JavaWriteBatch) (env : JNIEnv)
    (db : DBImpl) (b : WriteBatch) :
  is_open jdb env db -> batch_open jbatch env b ->
  batch_nativeHandle jbatch <> nativeDb jdb.
Proof.
  intros [_ Hdb] [_ Hb] E. rewrite E, Hdb in Hb. discriminate Hb.
Qed.

Lemma iter_open_other_insert (jiter : JavaDBIterator) (env : JNIEnv)
    (it : Iterator) (p : Z) (o : NativeObject) :
  iter_open jiter env it -> p <> iter_nativeHandle jiter ->
  iter_open jiter (set_heap (<[p := o]> (heap env)) env) it.
Proof.
  intros [Hnz Hit] Hp. split; [exact Hnz |]. simpl.
  rewrite lookup_insert_ne; [exact Hit | exact Hp].
Qed.

Lemma batch_open_other_insert (jbatch : JavaWriteBatch) (env : JNIEnv)
    (b : WriteBatch) (p : Z) (o : NativeObject) :
  batch_open jbatch env b -> p <> batch_nativeHandle jbatch ->
  batch_open jbatch (set_heap (<[p := o]> (heap env)) env) b.
Proof.
  intros [Hnz Hb] Hp. split; [exact Hnz |]. simpl.
  rewrite lookup_insert_ne; [exact Hb | exact Hp].
Qed.

Lemma batch_open_update (jbatch : JavaWriteBatch) (env : JNIEnv)
    (b' : WriteBatch) :
  batch_nativeHandle jbatch <> 0 ->
  batch_open jbatch
    (set_heap (<[batch_nativeHandle jbatch := ObjWriteBatch b']> (heap env))
              env) b'.
Proof. intros Hnz. split; [exact Hnz |]. simpl. apply lookup_insert_eq. Qed.

(** ** Closed iterators and batches *)

Lemma iterator_close_result (jiter : JavaDBIterator) (env : JNIEnv)
    (it : Iterator) :
  iter_open jiter env it ->
  Java_org_tron_leveldb_DBIterator_close jiter env
  = Some ({| iter_nativeHandle := 0 |},
          set_heap (delete (iter_nativeHandle jiter) (heap env)) env).
Proof.
  intros Hopen. unfold Java_org_tron_leveldb_DBIterator_close. not_null.
  erewrite bind_run; [reflexivity |].
  rewrite (bind_run _ _ _ _ _ (as_Iterator_open _ _ _ Hopen)). reflexivity.
Qed.

Lemma batch_close_result (jbatch : JavaWriteBatch) (env : JNIEnv)
    (b : WriteBatch) :
  batch_open jbatch env b ->
  Java_org_tron_leveldb_WriteBatch_close jbatch env
  = Some ({| batch_nativeHandle := 0 |},
          set_heap (delete (batch_nativeHandle jbatch) (heap env)) env).
Proof.
  intros Hopen. unfold Java_org_tron_leveldb_WriteBatch_close.
  destruct (decide (batch_nativeHandle jbatch = 0)) as [E | _];
    [destruct Hopen; contradiction |].
  erewrite bind_run; [reflexivity |].
  rewrite (bind_run _ _ _ _ _ (as_WriteBatch_batch_open _ _ _ Hopen)).
  reflexivity.
Qed.

(** X1: closing an open iterator deletes the native iterator and zeroes the
    handle; afterwards every iterator operation (seekToFirst, hasNext, next,
    peekNext, seekToLast, hasPrev, prev, peekPrev, seek) raises
    IllegalStateException with the message of [throw_it_not_open], returns
    false or null, and changes nothing else; closing again does nothing; a
    store that was open stays open and unchanged. *)
Theorem closed_iterator_operations_fail
    (jiter : JavaDBIterator) (env : JNIEnv) (it : Iterator) :
  iter_open jiter env it ->
  exists jiter' env',
    Java_org_tron_leveldb_DBIterator_close jiter env = Some (jiter', env')
    /\ iter_nativeHandle jiter' = 0
    /\ heap env' = delete (iter_nativeHandle jiter) (heap env)
    /\ pending env' = pending env
    /\ (forall jdb db, is_open jdb env db -> is_open jdb env' db)
    /\ Java_org_tron_leveldb_DBIterator_close jiter' env'
       = Some (jiter', env')
    /\ let thrown := set_pending (Some IteratorNotOpen) env' in
       Java_org_tron_leveldb_DBIterator_seekToFirst jiter' env'
       = Some (tt, thrown)
       /\ Java_org_tron_leveldb_DBIterator_hasNext jiter' env'
          = Some (false, thrown)
       /\ Java_org_tron_leveldb_DBIterator_next jiter' env'
          = Some (None, thrown)
       /\ Java_org_tron_leveldb_DBIterator_peekNext jiter' env'
          = Some (None, thrown)
       /\ Java_org_tron_leveldb_DBIterator_seekToLast jiter' env'
          = Some (tt, thrown)
       /\ Java_org_tron_leveldb_DBIterator_hasPrev jiter' env'
          = Some (false, thrown)
       /\ Java_org_tron_leveldb_DBIterator_prev jiter' env'
          = Some (tt, thrown)
       /\ Java_org_tron_leveldb_DBIterator_peekPrev jiter' env'
          = Some (None, thrown)
       /\ (forall key,
             Java_org_tron_leveldb_DBIterator_seek jiter' key env'
             = Some (tt, thrown)).
Proof.
  intros Hopen. eexists _, _.
  split; [apply (iterator_close_result _ _ _ Hopen) |].
  split; [reflexivity |]. split; [reflexivity |]. split; [reflexivity |].
  split.
  - intros jdb db Hdb. apply is_open_other_delete; [exact Hdb |].
    apply (iter_not_db _ _ _ _ _ Hdb Hopen).
  - split; [reflexivity |]. cbv zeta. repeat split; reflexivity.
Qed.

Lemma closed_iterator_operations_fail_witness :
  iter_open example_jiter example_env example_iterator
  /\ exists jiter' env',
       Java_org_tron_leveldb_DBIterator_close example_jiter example_env
       = Some (jiter', env')
       /\ Java_org_tron_leveldb_DBIterator_next jiter' env'
          = Some (None, set_pending (Some IteratorNotOpen) env')
       /\ is_open example_jdb env' example_db.
Proof.
  split; [split; by_evaluation |].
  destruct (closed_iterator_operations_fail example_jiter example_env
              example_iterator)
    as (jiter' & env' & Hclose & _ & _ & _ & Hdb & _ & _ & _ & Hnext & _).
  - split; by_evaluation.
  - exists jiter', env'. split; [exact Hclose |]. split; [exact Hnext |].
    apply Hdb. split; by_evaluation.
Defined.

(** X2: closing an open batch deletes the native batch and zeroes the
    handle; afterwards [put] and [delete] on it raise IllegalStateException
    with the message of [throw_batch_not_open] and change nothing else;
    closing again does nothing; a store that was open stays open and
    unchanged. *)
Theorem closed_batch_operations_fail
    (jbatch : JavaWriteBatch) (env : JNIEnv) (b : WriteBatch) :
  batch_open jbatch env b ->
  exists jbatch' env',
    Java_org_tron_leveldb_WriteBatch_close jbatch env = Some (jbatch', env')
    /\ batch_nativeHandle jbatch' = 0
    /\ heap env' = delete (batch_nativeHandle jbatch) (heap env)
    /\ pending env' = pending env
    /\ (forall jdb db, is_open jdb env db -> is_open jdb env' db)
    /\ Java_org_tron_leveldb_WriteBatch_close jbatch' env'
       = Some (jbatch', env')
    /\ let thrown := set_pending (Some BatchNotOpen) env' in
       (forall key val,
           Java_org_tron_leveldb_WriteBatch_put jbatch' key val env'
           = Some (tt, thrown))
       /\ (forall key,
             Java_org_tron_leveldb_WriteBatch_delete jbatch' key env'
             = Some (tt, thrown)).
Proof.
  intros Hopen. eexists _, _.
  split; [apply (batch_close_result _ _ _ Hopen) |].
  split; [reflexivity |]. split; [reflexivity |]. split; [reflexivity |].
  split.
  - intros jdb db Hdb. apply is_open_other_delete; [exact Hdb |].
    apply (batch_not_db _ _ _ _ _ Hdb Hopen).
  - split; [reflexivity |]. cbv zeta. split; intros; reflexivity.
Qed.

Lemma closed_batch_operations_fail_witness :
  batch_open example_jbatch example_env example_batch
  /\ exists jbatch' env',
       Java_org_tron_leveldb_WriteBatch_close example_jbatch example_env
       = Some (jbatch', env')
       /\ Java_org_tron_leveldb_WriteBatch_put jbatch' (key "k") (key "v") env'
          = Some (tt, set_pending (Some BatchNotOpen) env').
Proof.
  split; [split; by_evaluation |].
  destruct (closed_batch_operations_fail example_jbatch example_env
              example_batch)
    as (jbatch' & env' & Hclose & _ & _ & _ & _ & _ & Hput & _).
  - split; by_evaluation.
  - exists jbatch', env'. split; [exact Hclose | apply Hput].
Defined.

(** X3: [close] on a store is safe to repeat: on an open store, closing
    twice is closing once, and the second call raises nothing and changes
    nothing. *)
Theorem close_twice (jdb : JavaDB) (env : JNIEnv) (db : DBImpl) :
  is_open jdb env db ->
  exists jdb' env',
    Java_org_tron_leveldb_DB_close jdb env = Some (jdb', env')
    /\ pending env' = pending env
    /\ Java_org_tron_leveldb_DB_close jdb' env' = Some (jdb', env')
    /\ (jdb1 ← Java_org_tron_leveldb_DB_close jdb;
        Java_org_tron_leveldb_DB_close jdb1) env
       = Java_org_tron_leveldb_DB_close jdb env.
Proof.
  intros Hopen. pose proof (close_result _ _ _ Hopen) as Hclose.
  eexists _, _. split; [exact Hclose |]. split; [reflexivity |].
  split; [reflexivity |].
  rewrite (bind_run _ _ _ _ _ Hclose), Hclose. reflexivity.
Qed.

Lemma close_twice_witness :
  is_open example_jdb example_env example_db
  /\ exists jdb' env',
       Java_org_tron_leveldb_DB_close example_jdb example_env
       = Some (jdb', env')
       /\ Java_org_tron_leveldb_DB_close jdb' env' = Some (jdb', env').
Proof.
  split; [split; by_evaluation |].
  destruct (close_twice example_jdb example_env example_db)
    as (jdb' & env' & H1 & _ & H2 & _).
  - split; by_evaluation.
  - exists jdb', env'. split; [exact H1 | exact H2].
Defined.

(** X4: [peekPrev] returns what [peekNext] returns, in every state of every
    iterator, open or closed: both read the entry at the current position
    and neither looks at the entry before it. *)
Theorem peekPrev_is_peekNext (jiter : JavaDBIterator) (env : JNIEnv) :
  Java_org_tron_leveldb_DBIterator_peekPrev jiter env
  = Java_org_tron_leveldb_DBIterator_peekNext jiter env.
Proof.
  unfold Java_org_tron_leveldb_DBIterator_peekPrev,
    Java_org_tron_leveldb_DBIterator_peekNext.
  destruct (decide (iter_nativeHandle jiter = 0)); reflexivity.
Qed.

(** X5: [put(key, value)] is [put(key, value, false)]: the overload without
    the flag writes with default write options, which do not sync, whatever
    the store and the environment. *)
Theorem put_without_flag_is_unsynced
    (jdb : JavaDB) (k v : bytes) (env : JNIEnv) :
  Java_org_tron_leveldb_DB_put___3B_3B jdb k v env
  = Java_org_tron_leveldb_DB_put___3B_3BZ jdb k v false env.
Proof.
  unfold Java_org_tron_leveldb_DB_put___3B_3B,
    Java_org_tron_leveldb_DB_put___3B_3BZ.
  destruct (decide (nativeDb jdb = 0)); reflexivity.
Qed.

(** ** Reads and checksums *)

(** X6: a checksum failure met by [get] is not masked: when the engine's
    [Get] answers Corruption on an open store, the binding returns null and
    raises IOException with the text of the status; nothing else changes. *)
Theorem get_surfaces_corruption
    (jdb : JavaDB) (env : JNIEnv) (db : DBImpl) (key : bytes) :
  is_open jdb env db ->
  IsCorruption (fst (DBImpl_Get (get_options jdb) key db)) = true ->
  Java_org_tron_leveldb_DB_get jdb key env
  = Some (None,
          set_pending
            (Some {| exception_class := IOException;
                     message :=
                       ToString (fst (DBImpl_Get (get_options jdb) key db)) |})
            env).
Proof.
  intros Hopen Hc. rewrite (get_result _ _ _ _ Hopen).
  unfold DBImpl_Get in *.
  replace (verify_checksums (get_options jdb) || paranoid_checks (options_ db))
    with (verifyChecksumsSet jdb || paranoid_checks (options_ db)) in *
    by (unfold get_options; destruct (verifyChecksumsSet jdb); reflexivity).
  destruct (DBImpl_Lookup _ key db); try discriminate Hc. reflexivity.
Qed.

Lemma get_surfaces_corruption_witness :
  is_open verifying_jdb corrupt_env corrupt_db
  /\ IsCorruption (fst (DBImpl_Get (get_options verifying_jdb) (key "a")
                          corrupt_db)) = true
  /\ raised (Java_org_tron_leveldb_DB_get verifying_jdb (key "a") corrupt_env)
     = Some IOException
  /\ value_of (Java_org_tron_leveldb_DB_get verifying_jdb (key "a")
                 corrupt_env) = Some None.
Proof.
  split; [split; by_evaluation |]. split; [by_evaluation |].
  rewrite (get_surfaces_corruption verifying_jdb corrupt_env corrupt_db
             (key "a")).
  - split; reflexivity.
  - split; by_evaluation.
  - by_evaluation.
Defined.

(** ** Batches *)

Lemma batch_add_result (jbatch : JavaWriteBatch) (env : JNIEnv)
    (b : WriteBatch) (o : Op) :
  batch_open jbatch env b ->
  batch_add jbatch o env
  = Some (tt,
          set_heap (<[batch_nativeHandle jbatch := ObjWriteBatch (b ++ [o])]>
                      (heap env)) env).
Proof.
  intros Hopen. pose proof Hopen as [Hnz _].
  destruct o as [k v | k]; unfold batch_add.
  - unfold Java_org_tron_leveldb_WriteBatch_put.
    destruct (decide (batch_nativeHandle jbatch = 0)); [contradiction |].
    rewrite (bind_run _ _ _ _ _ (as_WriteBatch_batch_open _ _ _ Hopen)).
    unfold GetArrayLength. rewrite !Slice_all. reflexivity.
  - unfold Java_org_tron_leveldb_WriteBatch_delete.
    destruct (decide (batch_nativeHandle jbatch = 0)); [contradiction |].
    rewrite (bind_run _ _ _ _ _ (as_WriteBatch_batch_open _ _ _ Hopen)).
    unfold GetArrayLength. rewrite !Slice_all. reflexivity.
Qed.

Lemma last_op_on_snoc `{C : Comparator} (b : WriteBatch) (o : Op) :
  Compare (op_key o) (op_key o) = 0 ->
  last_op_on (op_key o) (b ++ [o]) = Some o.
Proof.
  intros Hrefl. induction b as [| x b IH].
  - simpl. rewrite Hrefl. reflexivity.
  - simpl. rewrite IH. reflexivity.
Qed.

Lemma get_value_depends_on_store (jdb : JavaDB) (env env' : JNIEnv)
    (db : DBImpl) (k : bytes) :
  is_open jdb env db -> is_open jdb env' db ->
  value_of (Java_org_tron_leveldb_DB_get jdb k env')
  = value_of (Java_org_tron_leveldb_DB_get jdb k env).
Proof.
  intros H H'. rewrite (get_result _ _ _ _ H), (get_result _ _ _ _ H').
  destruct (DBImpl_Lookup _ k db); reflexivity.
Qed.

(** X7: an operation added to an open batch ([put] or [delete] of
    WriteBatch) goes to the end of the batch and is not visible in the store
    until the batch is written; after [write], on a store whose storage
    accepts the record, [get] of the operation's key answers with it (the
    value put, or null for a delete); [write] leaves the batch as it was,
    operations included. *)
Theorem batch_add_write_get
    (jdb : JavaDB) (jbatch : JavaWriteBatch) (env : JNIEnv) (db : DBImpl)
    (b : WriteBatch) (o : Op) (jsync : bool) :
  is_open jdb env db ->
  batch_open jbatch env b ->
  storage_failing env = false ->
  TotalOrder (comparator (options_ db)) ->
  consistent db ->
  exists env1 env2,
    batch_add jbatch o env = Some (tt, env1)
    /\ batch_open jbatch env1 (b ++ [o])
    /\ is_open jdb env1 db
    /\ (forall k,
          value_of (Java_org_tron_leveldb_DB_get jdb k env1)
          = value_of (Java_org_tron_leveldb_DB_get jdb k env))
    /\ Java_org_tron_leveldb_DB_write jdb jbatch jsync env1 = Some (tt, env2)
    /\ Java_org_tron_leveldb_DB_get jdb (op_key o) env2
       = Some (java_value (op_answer o), env2)
    /\ batch_open jbatch env2 (b ++ [o]).
Proof.
  intros Hdb Hb Hio TO Hc.
  pose proof (batch_not_db _ _ _ _ _ Hdb Hb) as Hne.
  pose proof Hb as [Hnz Hbl].
  eexists _, _. split; [apply (batch_add_result _ _ _ _ Hb) |].
  set (env1 := set_heap _ env).
  assert (Hb1 : batch_open jbatch env1 (b ++ [o]))
    by (apply batch_open_update, Hnz).
  assert (Hdb1 : is_open jdb env1 db)
    by (apply is_open_other_insert; assumption).
  split; [exact Hb1 |]. split; [exact Hdb1 |].
  split; [intros k; apply (get_value_depends_on_store _ _ _ _ _ Hdb Hdb1) |].
  destruct Hb1 as [Hnz1 Hbl1].
  split; [apply (write_result _ _ _ _ _ _ Hdb1 Hnz1 Hbl1 Hio) |].
  split.
  - rewrite (get_result _ _ _ _ (is_open_update _ _ _ _ Hdb1)).
    destruct Hc as (r & _ & _ & _ & _ & _ & _ & _ & Hmem).
    rewrite (Lookup_after_Write _ _ _ _ (op_key o) o TO Hmem
               (last_op_on_snoc b o (Compare_refl _))).
    destruct o; reflexivity.
  - apply batch_open_other_insert; [split; assumption |].
    intros E. apply Hne. symmetry. exact E.
Qed.

Lemma batch_add_write_get_witness :
  is_open example_jdb example_env example_db
  /\ batch_open example_jbatch example_env example_batch
  /\ consistent example_db
  /\ exists env1 env2,
       Java_org_tron_leveldb_WriteBatch_delete example_jbatch (key "a")
         example_env = Some (tt, env1)
       /\ Java_org_tron_leveldb_DB_get example_jdb (key "a") env1
          = Some (Some (key "old"), env1)
       /\ Java_org_tron_leveldb_DB_write example_jdb example_jbatch false env1
          = Some (tt, env2)
       /\ Java_org_tron_leveldb_DB_get example_jdb (key "a") env2
          = Some (None, env2).
Proof.
  split; [split; by_evaluation |]. split; [split; by_evaluation |].
  assert (Hc : consistent example_db) by example_consistent.
  split; [exact Hc |].
  destruct (batch_add_write_get example_jdb example_jbatch example_env
              example_db example_batch (OpDelete (key "a")) false)
    as (env1 & env2 & Hadd & _ & Hdb1 & _ & Hwrite & Hget & _).
  - split; by_evaluation.
  - split; by_evaluation.
  - reflexivity.
  - exact BytewiseComparator_TotalOrder.
  - exact Hc.
  - exists env1, env2. split; [exact Hadd |].
    split; [| split; [exact Hwrite | exact Hget]].
    rewrite (get_result _ _ _ _ Hdb1). reflexivity.
Defined.

(** X8: on an open store [createWriteBatch] returns a batch object whose
    handle is a new non-null address holding an empty batch; the store and
    every other native object are as before and no exception is raised. *)
Theorem createWriteBatch_fresh (jdb : JavaDB) (env : JNIEnv) (db : DBImpl) :
  is_open jdb env db ->
  exists jbatch env',
    Java_org_tron_leveldb_DB_createWriteBatch jdb env
    = Some (Some jbatch, env')
    /\ batch_open jbatch env' []
    /\ heap env !! batch_nativeHandle jbatch = None
    /\ (forall p, p <> batch_nativeHandle jbatch ->
                  heap env' !! p = heap env !! p)
    /\ is_open jdb env' db
    /\ pending env' = pending env.
Proof.
  intros Hopen. unfold Java_org_tron_leveldb_DB_createWriteBatch. not_null.
  pose proof (is_fresh ({[0]} ∪ dom (heap env))) as Hfresh.
  set (p := fresh ({[0]} ∪ dom (heap env))) in *.
  assert (Hnew : new_object (ObjWriteBatch []) env
                 = Some (p, set_heap (<[p := ObjWriteBatch []]> (heap env))
                                     env)) by reflexivity.
  rewrite (bind_run _ _ _ _ _ Hnew).
  assert (Hp0 : p <> 0) by (intros E; apply Hfresh; rewrite E; set_solver).
  assert (Hfree : heap env !! p = None).
  { apply not_elem_of_dom. intros E. apply Hfresh. set_solver. }
  eexists _, _. split; [reflexivity |].
  split; [split; [exact Hp0 | simpl; apply lookup_insert_eq] |].
  split; [exact Hfree |].
  split; [intros q Hq; simpl in *; apply lookup_insert_ne; intros E;
          apply Hq; symmetry; exact E |].
  split; [| reflexivity].
  apply is_open_other_insert; [exact Hopen |].
  intros E. destruct Hopen as [_ Hdb]. rewrite <- E, Hfree in Hdb.
  discriminate Hdb.
Qed.

Lemma createWriteBatch_fresh_witness :
  is_open example_jdb example_env example_db
  /\ exists jbatch env',
       Java_org_tron_leveldb_DB_createWriteBatch example_jdb example_env
       = Some (Some jbatch, env')
       /\ batch_open jbatch env' []
       /\ is_open example_jdb env' example_db.
Proof.
  split; [split; by_evaluation |].
  destruct (createWriteBatch_fresh example_jdb example_env example_db)
    as (jbatch & env' & Hc & Hb & _ & _ & Hdb & _).
  - split; by_evaluation.
  - exists jbatch, env'. split; [exact Hc |]. split; [exact Hb | exact Hdb].
Defined.

(** ** Iterators and later writes *)

Lemma iter_open_set_pending (jiter : JavaDBIterator) (env : JNIEnv)
    (it : Iterator) (t : option Throwable) :
  iter_open jiter env it -> iter_open jiter (set_pending t env) it.
Proof. intros H. exact H. Qed.

(** X9: an open iterator is not affected by later writes through the
    store: after [put], [delete] or [write], whether the storage accepts
    them or not, the iterator is in the state it was in, and a forward walk
    yields the entries of the view fixed when it was created. *)
Theorem iterator_unaffected_by_writes
    (jdb : JavaDB) (jiter : JavaDBIterator) (jbatch : JavaWriteBatch)
    (env : JNIEnv) (db : DBImpl) (it : Iterator) (b : WriteBatch)
    (k v : bytes) (jsync : bool) (fuel : nat) :
  is_open jdb env db ->
  iter_open jiter env it ->
  batch_open jbatch env b ->
  (length (it_view it) < fuel)%nat ->
  let untouched (r : option (unit * JNIEnv)) :=
    exists env',
      r = Some (tt, env')
      /\ iter_open jiter env' it
      /\ exists env'',
           iterate_forward fuel jiter env' = Some (it_view it, env'') in
  untouched (Java_org_tron_leveldb_DB_put___3B_3BZ jdb k v jsync env)
  /\ untouched (Java_org_tron_leveldb_DB_delete jdb k jsync env)
  /\ untouched (Java_org_tron_leveldb_DB_write jdb jbatch jsync env).
Proof.
  intros Hdb Hit Hb Hfuel untouched.
  pose proof (iter_not_db _ _ _ _ _ Hdb Hit) as Hne.
  assert (Hne' : nativeDb jdb <> iter_nativeHandle jiter) by congruence.
  assert (Hu : forall db',
             untouched
               (Some (tt, set_heap (<[nativeDb jdb := ObjDB db']> (heap env))
                                   env))).
  { intros db'. eexists. split; [reflexivity |].
    pose proof (iter_open_other_insert _ _ _ _ (ObjDB db') Hit Hne') as Hit'.
    split; [exact Hit' |].
    apply (iterate_forward_all _ _ _ _ Hit' Hfuel). }
  split; [| split].
  - rewrite (put_sync_result _ _ _ _ _ _ Hdb). apply Hu.
  - rewrite (delete_result _ _ _ _ _ Hdb). apply Hu.
  - destruct Hb as [Hnz Hbl].
    destruct (storage_failing env) eqn:Hio.
    + rewrite (write_failing_result _ _ _ _ _ _ Hdb Hio Hnz Hbl).
      eexists. split; [reflexivity |].
      pose proof (iter_open_set_pending _ _ _
                    (Some {| exception_class := "java/lang/RuntimeException";
                             message := "IO error: log append failed" |})
                    Hit) as Hit'.
      split; [exact Hit' |].
      apply (iterate_forward_all _ _ _ _ Hit' Hfuel).
    + rewrite (write_result _ _ _ _ _ _ Hdb Hnz Hbl Hio). apply Hu.
Qed.

Lemma iterator_unaffected_by_writes_witness :
  is_open example_jdb example_env example_db
  /\ iter_open example_jiter example_env example_iterator
  /\ batch_open example_jbatch example_env example_batch
  /\ exists env' env'',
       Java_org_tron_leveldb_DB_put___3B_3BZ example_jdb (key "b") (key "new")
         false example_env = Some (tt, env')
       /\ iterate_forward 4 example_jiter env'
          = Some ([(key "a", key "old"); (key "b", key "2");
                   (key "c", key "3")], env'').
Proof.
  split; [split; by_evaluation |]. split; [split; by_evaluation |].
  split; [split; by_evaluation |].
  destruct (iterator_unaffected_by_writes example_jdb example_jiter
              example_jbatch example_env example_db example_iterator
              example_batch (key "b") (key "new") false 4)
    as ((env' & Hput & _ & env'' & Hwalk) & _).
  - split; by_evaluation.
  - split; by_evaluation.
  - split; by_evaluation.
  - vm_compute. lia.
  - exists env', env''. split; [exact Hput | exact Hwalk].
Defined.

(** ** Moving an iterator *)

Lemma seek_result (jiter : JavaDBIterator) (env : JNIEnv) (it : Iterator)
    (target : bytes) :
  iter_open jiter env it ->
  Java_org_tron_leveldb_DBIterator_seek jiter target env
  = Some (tt, set_heap (<[iter_nativeHandle jiter
                          := ObjIterator (Iterator_Seek target it)]>
                          (heap env)) env).
Proof.
  intros Hopen. unfold Java_org_tron_leveldb_DBIterator_seek. not_null.
  unfold GetArrayLength. rewrite Slice_all.
  apply (Iter_update_open _ _ _ _ _ Hopen). reflexivity.
Qed.

Lemma first_at_or_after_before `{Comparator} (target : bytes)
    (l : list (bytes * bytes)) :
  forall (i : nat) (kv : bytes * bytes),
    (i < first_at_or_after target l)%nat -> l !! i = Some kv ->
    Compare (fst kv) target < 0.
Proof.
  induction l as [| x l IH]; intros i kv Hi Hl; [discriminate Hl |].
  simpl in Hi. destruct (Z.leb_spec 0 (Compare (fst x) target)) as [E | E];
    [lia |].
  destruct i as [| i].
  - simpl in Hl. inversion Hl; subst. exact E.
  - simpl in Hl. apply (IH i kv); [lia | exact Hl].
Qed.

Lemma first_at_or_after_at `{Comparator} (target : bytes)
    (l : list (bytes * bytes)) (kv : bytes * bytes) :
  l !! first_at_or_after target l = Some kv -> 0 <= Compare (fst kv) target.
Proof.
  induction l as [| x l IH]; [discriminate |].
  simpl. destruct (Z.leb_spec 0 (Compare (fst x) target)) as [E | E].
  - simpl. intros Hl. inversion Hl; subst. exact E.
  - simpl. exact IH.
Qed.

Lemma hasNext_at (jiter : JavaDBIterator) (env : JNIEnv) (it : Iterator) :
  iter_open jiter env it ->
  Java_org_tron_leveldb_DBIterator_hasNext jiter env
  = Some (match it_view it !! it_pos it with
          | Some _ => true
          | None => false
          end, env).
Proof.
  intros Hopen. rewrite (hasNext_is_Valid _ _ _ Hopen). f_equal. f_equal.
  destruct (it_view it !! it_pos it) as [kv |] eqn:E.
  - apply (lookup_Valid _ _ E).
  - unfold Iterator_Valid. apply Nat.ltb_ge. apply lookup_ge_None. exact E.
Qed.

(** X10: [seek(key)] moves an open iterator to the first entry whose key is
    not before [key] in the iterator's comparator order: every entry it
    passes over has a smaller key; when there is such an entry, [hasNext]
    answers true and [peekNext] returns it; when every key is smaller,
    [hasNext] answers false. *)
Theorem seek_finds_first_key_not_before
    (jiter : JavaDBIterator) (env : JNIEnv) (it : Iterator) (target : bytes) :
  iter_open jiter env it ->
  exists env' p,
    Java_org_tron_leveldb_DBIterator_seek jiter target env = Some (tt, env')
    /\ iter_open jiter env' (Iterator_at it p)
    /\ (forall i kv,
          (i < p)%nat -> it_view it !! i = Some kv ->
          @Compare (it_comparator it) (fst kv) target < 0)
    /\ match it_view it !! p with
       | Some kv =>
           0 <= @Compare (it_comparator it) (fst kv) target
           /\ Java_org_tron_leveldb_DBIterator_hasNext jiter env'
              = Some (true, env')
           /\ Java_org_tron_leveldb_DBIterator_peekNext jiter env'
              = Some (Some kv, env')
       | None =>
           Java_org_tron_leveldb_DBIterator_hasNext jiter env'
           = Some (false, env')
       end.
Proof.
  intros Hopen. pose proof Hopen as [Hnz _].
  eexists _, _. split; [apply (seek_result _ _ _ _ Hopen) |].
  pose proof (iter_open_update jiter env (Iterator_Seek target it) Hnz)
    as Hopen'.
  split; [exact Hopen' |]. split.
  - intros i kv Hi Hl.
    apply (first_at_or_after_before (H := it_comparator it) target
             (it_view it) i kv Hi Hl).
  - rewrite (hasNext_at _ _ _ Hopen'). cbn [Iterator_Seek Iterator_at it_view
                                            it_pos].
    destruct (it_view it !! _) as [kv |] eqn:E; [| reflexivity].
    split; [apply (first_at_or_after_at (H := it_comparator it) _ _ _ E) |].
    split; [reflexivity |].
    apply (peekNext_result _ _ _ _ Hopen'). exact E.
Qed.

Lemma seek_finds_first_key_not_before_witness :
  iter_open example_jiter example_env example_iterator
  /\ exists env',
       Java_org_tron_leveldb_DBIterator_seek example_jiter (key "b")
         example_env = Some (tt, env')
       /\ Java_org_tron_leveldb_DBIterator_peekNext example_jiter env'
          = Some (Some (key "b", key "2"), env').
Proof.
  split; [split; by_evaluation |].
  destruct (seek_finds_first_key_not_before example_jiter example_env
              example_iterator (key "b"))
    as (env' & p & Hseek & _ & _ & Hat).
  - split; by_evaluation.
  - exists env'. split; [exact Hseek |].
    assert (Hp : Some (tt, env')
                 = Some (tt,
                         set_heap
                           (<[iter_nativeHandle example_jiter
                              := ObjIterator
                                   (Iterator_Seek (key "b") example_iterator)]>
                              (heap example_env)) example_env)).
    { rewrite <- Hseek. apply seek_result. split; by_evaluation. }
    inversion Hp; subst env'. reflexivity.
Defined.

(** X11: [prev] steps an open iterator at a valid position back by one:
    from a position after the first, [peekNext] then returns the entry
    before, and a following [next] returns that entry and brings the
    iterator back to where it was; from the first entry, [prev] leaves the
    iterator at no entry, where [hasPrev] and [hasNext] both answer
    false. *)
Theorem prev_steps_back
    (jiter : JavaDBIterator) (env : JNIEnv) (it : Iterator)
    (kv : bytes * bytes) :
  iter_open jiter env it ->
  it_view it !! it_pos it = Some kv ->
  exists env',
    Java_org_tron_leveldb_DBIterator_prev jiter env = Some (tt, env')
    /\ match it_pos it with
       | S q =>
           exists kv',
             it_view it !! q = Some kv'
             /\ iter_open jiter env' (Iterator_at it q)
             /\ Java_org_tron_leveldb_DBIterator_peekNext jiter env'
                = Some (Some kv', env')
             /\ exists env'',
                  Java_org_tron_leveldb_DBIterator_next jiter env'
                  = Some (Some kv', env'')
                  /\ iter_open jiter env'' it
       | O =>
           Java_org_tron_leveldb_DBIterator_hasPrev jiter env'
           = Some (false, env')
           /\ Java_org_tron_leveldb_DBIterator_hasNext jiter env'
              = Some (false, env')
       end.
Proof.
  intros Hopen Hkv. pose proof Hopen as [Hnz _].
  pose proof (lookup_Valid _ _ Hkv) as Hvalid.
  eexists. split; [apply (prev_result _ _ _ Hopen Hvalid) |].
  destruct (it_pos it) as [| q] eqn:Hpos.
  - pose proof (iter_open_update jiter env
                  (Iterator_at it (length (it_view it))) Hnz) as Hopen'.
    rewrite (hasPrev_is_Valid _ _ _ Hopen'), (hasNext_is_Valid _ _ _ Hopen').
    unfold Iterator_Valid. cbn [Iterator_at it_pos it_view].
    rewrite Nat.ltb_irrefl. split; reflexivity.
  - pose proof (iter_open_update jiter env (Iterator_at it q) Hnz) as Hopen'.
    assert (Hq : (q < length (it_view it))%nat).
    { apply lookup_lt_Some in Hkv. lia. }
    destruct (lookup_lt_is_Some_2 _ _ Hq) as [kv' Hkv'].
    exists kv'. split; [exact Hkv' |]. split; [exact Hopen' |].
    split; [apply (peekNext_result _ _ _ _ Hopen'); exact Hkv' |].
    eexists. split; [apply (next_result _ _ _ _ Hopen'); exact Hkv' |].
    assert (Heq : Iterator_at (Iterator_at it q)
                    (S (it_pos (Iterator_at it q))) = it)
      by (destruct it; simpl in *; subst; reflexivity).
    rewrite Heq. apply iter_open_update, Hnz.
Qed.

Lemma prev_steps_back_witness :
  iter_open example_jiter example_env example_iterator
  /\ it_view example_iterator !! it_pos example_iterator
     = Some (key "a", key "old")
  /\ exists env',
       Java_org_tron_leveldb_DBIterator_prev example_jiter example_env
       = Some (tt, env')
       /\ Java_org_tron_leveldb_DBIterator_hasPrev example_jiter env'
          = Some (false, env').
Proof.
  split; [split; by_evaluation |]. split; [by_evaluation |].
  destruct (prev_steps_back example_jiter example_env example_iterator
              (key "a", key "old"))
    as (env' & Hprev & Hat).
  - split; by_evaluation.
  - by_evaluation.
  - exists env'. split; [exact Hprev |].
    change (it_pos example_iterator) with O in Hat. apply Hat.
Defined.

(** X12: [seekToFirst] puts an open iterator on the first entry of its view
    and [seekToLast] on the last one: on a view with entries [hasNext]
    (and [hasPrev]) then answer true and [peekNext] (and [peekPrev]) return
    that entry; after [seekToLast], [next] returns the last entry and
    [hasNext] turns false; on an empty view both seeks leave [hasNext] and
    [hasPrev] false. *)
Theorem seek_to_ends (jiter : JavaDBIterator) (env : JNIEnv) (it : Iterator) :
  iter_open jiter env it ->
  (exists env1,
      Java_org_tron_leveldb_DBIterator_seekToFirst jiter env = Some (tt, env1)
      /\ match it_view it with
         | [] =>
             Java_org_tron_leveldb_DBIterator_hasNext jiter env1
             = Some (false, env1)
         | kv :: _ =>
             Java_org_tron_leveldb_DBIterator_hasNext jiter env1
             = Some (true, env1)
             /\ Java_org_tron_leveldb_DBIterator_peekNext jiter env1
                = Some (Some kv, env1)
         end)
  /\ (exists env2,
        Java_org_tron_leveldb_DBIterator_seekToLast jiter env = Some (tt, env2)
        /\ match last (it_view it) with
           | None =>
               Java_org_tron_leveldb_DBIterator_hasPrev jiter env2
               = Some (false, env2)
           | Some kv =>
               Java_org_tron_leveldb_DBIterator_hasPrev jiter env2
               = Some (true, env2)
               /\ Java_org_tron_leveldb_DBIterator_peekPrev jiter env2
                  = Some (Some kv, env2)
               /\ exists env3,
                    Java_org_tron_leveldb_DBIterator_next jiter env2
                    = Some (Some kv, env3)
                    /\ Java_org_tron_leveldb_DBIterator_hasNext jiter env3
                       = Some (false, env3)
           end).
Proof.
  intros Hopen. pose proof Hopen as [Hnz _]. split.
  - eexists. split; [apply (seekToFirst_result _ _ _ Hopen) |].
    pose proof (iter_open_update jiter env (Iterator_at it 0) Hnz) as Hopen'.
    rewrite (hasNext_at _ _ _ Hopen'). cbn [Iterator_at it_view it_pos].
    destruct (it_view it) as [| kv l] eqn:Hview; [reflexivity |].
    split; [reflexivity |].
    apply (peekNext_result _ _ _ _ Hopen').
    cbn [Iterator_at it_view it_pos]. rewrite Hview. reflexivity.
  - eexists. split; [apply (seekToLast_result _ _ _ Hopen) |].
    pose proof (iter_open_update jiter env
                  (Iterator_at it (length (it_view it) - 1)) Hnz) as Hopen'.
    rewrite (hasPrev_is_Valid _ _ _ Hopen').
    rewrite last_lookup.
    replace (pred (length (it_view it))) with (length (it_view it) - 1)%nat
      by lia.
    destruct (it_view it !! (length (it_view it) - 1)%nat) as [kv |] eqn:E.
    + split; [rewrite (lookup_Valid _ kv); [reflexivity | exact E] |].
      split; [apply (peekPrev_result _ _ _ _ Hopen'); exact E |].
      eexists. split; [apply (next_result _ _ _ _ Hopen'); exact E |].
      match goal with
      | |- context [set_heap (<[_ := ObjIterator ?i]> _) _] =>
          pose proof (iter_open_update jiter
                        (set_heap
                           (<[iter_nativeHandle jiter
                              := ObjIterator
                                   (Iterator_at it
                                      (length (it_view it) - 1))]>
                              (heap env)) env) i Hnz) as Hopen''
      end.
      rewrite (hasNext_is_Valid _ _ _ Hopen'').
      unfold Iterator_Valid. cbn [Iterator_at it_pos it_view].
      apply lookup_lt_Some in E.
      replace (S (length (it_view it) - 1)) with (length (it_view it)) by lia.
      rewrite Nat.ltb_irrefl. reflexivity.
    + f_equal. f_equal. unfold Iterator_Valid.
      cbn [Iterator_at it_pos it_view]. apply Nat.ltb_ge.
      apply lookup_ge_None. exact E.
Qed.

Lemma seek_to_ends_witness :
  iter_open example_jiter example_env example_iterator
  /\ exists env2,
       Java_org_tron_leveldb_DBIterator_seekToLast example_jiter example_env
       = Some (tt, env2)
       /\ Java_org_tron_leveldb_DBIterator_peekPrev example_jiter env2
          = Some (Some (key "c", key "3"), env2).
Proof.
  split; [split; by_evaluation |].
  destruct (seek_to_ends example_jiter example_env example_iterator)
    as (_ & env2 & Hseek & Hat).
  - split; by_evaluation.
  - exists env2. split; [exact Hseek |].
    change (last (it_view example_iterator))
      with (Some (key "c", key "3")) in Hat.
    apply Hat.
Defined.

(** X13: [next], [peekNext], [peekPrev] and [prev] do not test [Valid()]
    before they call [key()], [value()], [Next()] or [Prev()]: on an open
    iterator that is at no entry (new, run off either end, or sought past
    the last key) none of them raises a Java exception; each calls the
    engine with the requirement of the call not met, and the run has no
    defined result. *)
Theorem stepping_invalid_iterator_undefined
    (jiter : JavaDBIterator) (env : JNIEnv) (it : Iterator) :
  iter_open jiter env it ->
  Iterator_Valid it = false ->
  Java_org_tron_leveldb_DBIterator_next jiter env = None
  /\ Java_org_tron_leveldb_DBIterator_peekNext jiter env = None
  /\ Java_org_tron_leveldb_DBIterator_peekPrev jiter env = None
  /\ Java_org_tron_leveldb_DBIterator_prev jiter env = None.
Proof.
  intros Hopen Hinvalid.
  assert (Hkey : Iter_read (iter_nativeHandle jiter) Iterator_key env = None).
  { unfold Iter_read.
    rewrite (bind_run _ _ _ _ _ (as_Iterator_open _ _ _ Hopen)).
    unfold Iterator_key. unfold Iterator_Valid in Hinvalid.
    apply Nat.ltb_ge in Hinvalid.
    rewrite (proj2 (lookup_ge_None _ _) Hinvalid). reflexivity. }
  assert (Hrun : forall B (f : bytes -> JNI B),
             (Iter_read (iter_nativeHandle jiter) Iterator_key ≫= f) env
             = None).
  { intros B f. unfold mbind, JNI_bind. rewrite Hkey. reflexivity. }
  unfold Java_org_tron_leveldb_DBIterator_next,
    Java_org_tron_leveldb_DBIterator_peekNext,
    Java_org_tron_leveldb_DBIterator_peekPrev,
    Java_org_tron_leveldb_DBIterator_prev.
  destruct (decide (iter_nativeHandle jiter = 0)) as [E | _];
    [destruct Hopen; contradiction |].
  split; [apply Hrun |]. split; [apply Hrun |]. split; [apply Hrun |].
  unfold Iter_update.
  rewrite (bind_run _ _ _ _ _ (as_Iterator_open _ _ _ Hopen)).
  unfold Iterator_Prev. rewrite Hinvalid. reflexivity.
Qed.

Lemma stepping_invalid_iterator_undefined_witness :
  let fresh_iterator := DBImpl_NewIterator ReadOptions_default example_db in
  let env :=
    set_heap (<[3 := ObjIterator fresh_iterator]> (heap example_env))
             example_env in
  iter_open example_jiter env fresh_iterator
  /\ Iterator_Valid fresh_iterator = false
  /\ Java_org_tron_leveldb_DBIterator_hasNext example_jiter env
     = Some (false, env)
  /\ Java_org_tron_leveldb_DBIterator_next example_jiter env = None.
Proof.
  intros fresh_iterator env.
  assert (Hopen : iter_open example_jiter env fresh_iterator)
    by (split; by_evaluation).
  split; [exact Hopen |]. split; [reflexivity |].
  split; [rewrite (hasNext_is_Valid _ _ _ Hopen); reflexivity |].
  apply (stepping_invalid_iterator_undefined example_jiter env
           fresh_iterator Hopen).
  reflexivity.
Defined.

(** ** Opening with Java options *)

Lemma DBImpl_Open_options (good : bool) (options : Options) (name : string)
    (dir : option Disk) (s : Status) (db : DBImpl) :
  DBImpl_Open good options name dir = (s, Some db) ->
  options_ db = options /\ dbname_ db = name.
Proof.
  unfold DBImpl_Open. destruct good; simpl; [| discriminate].
  destruct dir as [d |].
  - destruct (error_if_exists options); [discriminate |].
    destruct (ReplayManifest _ _ _) as [r |]; [| discriminate].
    destruct (negb _); [discriminate |].
    intros H. inversion H; subst. split; reflexivity.
  - destruct (create_if_missing options); [| discriminate].
    intros H. inversion H; subst. split; reflexivity.
Qed.

Lemma DB_Open_opened (options : Options) (name : string) (env : JNIEnv) :
  (exists db p,
      p <> 0 /\ heap env !! p = None
      /\ options_ db = options /\ dbname_ db = name
      /\ DB_Open options name env
         = Some ((Status_OK, p),
                 {| pending := pending env;
                    heap := <[p := ObjDB db]> (heap env);
                    filesystem := filesystem env;
                    locks := {[name]} ∪ locks env;
                    storage_failing := storage_failing env |}))
  \/ (exists s, DB_Open options name env = Some ((s, 0), env)
               /\ (code s = kInvalidArgument \/ code s = kIOError
                   \/ code s = kCorruption)).
Proof.
  unfold DB_Open. destruct (decide (name ∈ locks env)).
  { right. eexists. split; [reflexivity |]. right. left. reflexivity. }
  destruct (DBImpl_Open_cases (negb (storage_failing env)) options name
              (filesystem env !! name)) as [[db H] | [s [H Hs]]]; rewrite H.
  - left. exists db, (fresh ({[0]} ∪ dom (heap env))).
    pose proof (is_fresh ({[0]} ∪ dom (heap env))) as Hfresh.
    destruct (DBImpl_Open_options _ _ _ _ _ _ H) as [Ho Hn].
    split; [| split; [| split; [exact Ho | split; [exact Hn | reflexivity]]]].
    + intros E. apply Hfresh. rewrite E. set_solver.
    + apply not_elem_of_dom. intros E. apply Hfresh. set_solver.
  - right. exists s. split; [reflexivity | exact Hs].
Qed.

(** How [init] ends: with the handle of a new database that runs with the
    options built from the Java options, or with an exception pending and
    the Java object as the first half left it. *)
Lemma init_result (jdb : JavaDB) (jfile : string) (joptions : JavaOptions)
    (env : JNIEnv) :
  exists r2 env2,
    init_options jdb joptions env = Some (r2, env2)
    /\ ((exists db p,
            p <> 0 /\ heap env2 !! p = None
            /\ options_ db = snd r2 /\ dbname_ db = jfile
            /\ Java_org_tron_leveldb_DB_init jdb jfile joptions env
               = Some (set_nativeDb p (fst r2),
                       {| pending := pending env2;
                          heap := <[p := ObjDB db]> (heap env2);
                          filesystem := filesystem env2;
                          locks := {[jfile]} ∪ locks env2;
                          storage_failing := storage_failing env2 |}))
        \/ (exists t,
              Java_org_tron_leveldb_DB_init jdb jfile joptions env
              = Some (fst r2, set_pending (Some t) env2))).
Proof.
  destruct (init_options_runs jdb joptions env) as (r2 & env2 & Hr2 & _ & _).
  exists r2, env2. split; [exact Hr2 |]. rewrite init_unfold.
  rewrite (bind_run _ _ _ _ _ Hr2).
  destruct (DB_Open_opened (snd r2) jfile env2)
    as [(db & p & Hnz & Hfree & Ho & Hn & Hopen) | (s & Hopen & Hs)];
    rewrite (bind_run _ _ _ _ _ Hopen).
  - left. exists db, p. repeat (split; [assumption |]). reflexivity.
  - right. destruct s as [c m]. simpl in Hs.
    unfold IsInvalidArgument, check, ok, IsNotFound, IsCorruption. simpl.
    destruct Hs as [-> | [-> | ->]]; simpl; eexists; reflexivity.
Qed.

Lemma to_size_t_jint (z : Z) : jint z -> to_size_t z = as_unsigned z.
Proof.
  unfold jint, to_size_t, as_unsigned. intros Hz.
  destruct (Z.leb_spec 0 z).
  - apply Z.mod_small. lia.
  - symmetry. apply (Z.mod_unique_pos z _ (-1)); lia.
Qed.

Lemma to_size_t_jlong (z : Z) : jlong z -> to_size_t z = as_unsigned z.
Proof.
  unfold jlong, to_size_t, as_unsigned. intros Hz.
  destruct (Z.leb_spec 0 z).
  - apply Z.mod_small. lia.
  - symmetry. apply (Z.mod_unique_pos z _ (-1)); lia.
Qed.

Lemma init_options_fields (jdb : JavaDB) (joptions : JavaOptions)
    (env env2 : JNIEnv) (r2 : JavaDB * Options) :
  init_options jdb joptions env = Some (r2, env2) ->
  create_if_missing (snd r2) = createIfMissing joptions
  /\ paranoid_checks (snd r2) = paranoidChecks joptions
  /\ error_if_exists (snd r2) = false
  /\ compression (snd r2) = compressionType_persistentId joptions
  /\ max_open_files (snd r2) = maxOpenFiles joptions
  /\ block_size (snd r2) = to_size_t (blockSize joptions)
  /\ write_buffer_size (snd r2) = to_size_t (writeBufferSize joptions)
  /\ block_cache (snd r2) = to_size_t (cacheSize joptions)
  /\ comparator (snd r2)
     = match jcomparator joptions with
       | Some jc => JavaComparator jc
       | None => BytewiseComparator
       end.
Proof.
  unfold init_options.
  destruct (jcomparator joptions), (jlogger joptions); intros H;
    inversion H; subst; repeat split; reflexivity.
Qed.

(** X14: a store that [init] has opened runs with the options of the Java
    object: [createIfMissing] and [paranoidChecks] as given,
    [error_if_exists] never set, the comparator wrapped when there is one
    and the bytewise default otherwise; the sizes are converted to
    [size_t] without a range check, so a negative [blockSize],
    [writeBufferSize] or [cacheSize] reaches the engine as a size above
    2^63; the directory is the path given. *)
Theorem init_passes_options
    (jdb jdb' : JavaDB) (jfile : string) (joptions : JavaOptions)
    (env env' : JNIEnv) (db : DBImpl) :
  nativeDb jdb = 0 ->
  jint (blockSize joptions) ->
  jint (writeBufferSize joptions) ->
  jlong (cacheSize joptions) ->
  Java_org_tron_leveldb_DB_init jdb jfile joptions env = Some (jdb', env') ->
  is_open jdb' env' db ->
  dbname_ db = jfile
  /\ create_if_missing (options_ db) = createIfMissing joptions
  /\ paranoid_checks (options_ db) = paranoidChecks joptions
  /\ error_if_exists (options_ db) = false
  /\ compression (options_ db) = compressionType_persistentId joptions
  /\ max_open_files (options_ db) = maxOpenFiles joptions
  /\ block_size (options_ db) = as_unsigned (blockSize joptions)
  /\ write_buffer_size (options_ db) = as_unsigned (writeBufferSize joptions)
  /\ block_cache (options_ db) = as_unsigned (cacheSize joptions)
  /\ comparator (options_ db)
     = match jcomparator joptions with
       | Some jc => JavaComparator jc
       | None => BytewiseComparator
       end.
Proof.
  intros Hclosed Hb Hw Hc Hinit [Hnz Hdb].
  destruct (init_options_runs jdb joptions env) as (r & e & Hr & Hr0 & _).
  destruct (init_result jdb jfile joptions env)
    as (r2 & env2 & Hr2 & [(db0 & p & _ & _ & Ho & Hn & H) | (t & H)]);
    rewrite H in Hinit; inversion Hinit; subst jdb' env'; clear Hinit;
    rewrite Hr in Hr2; inversion Hr2; subst r e; clear Hr2.
  - simpl in Hdb. rewrite lookup_insert_eq in Hdb. inversion Hdb; subst db0.
    destruct (init_options_fields _ _ _ _ _ Hr)
      as (F1 & F2 & F3 & F4 & F5 & F6 & F7 & F8 & F9).
    rewrite Ho, <- (to_size_t_jint _ Hb), <- (to_size_t_jint _ Hw),
      <- (to_size_t_jlong _ Hc).
    repeat (split; [assumption |]). exact F9.
  - exfalso. apply Hnz. rewrite Hr0. exact Hclosed.
Qed.

Lemma init_passes_options_witness :
  exists jdb' env' db,
    Java_org_tron_leveldb_DB_init new_jdb "/data/db"
      example_joptions_comparator empty_env = Some (jdb', env')
    /\ is_open jdb' env' db
    /\ block_size (options_ db) = 18446744073709551615
    /\ write_buffer_size (options_ db) = 64
    /\ comparator (options_ db) = JavaComparator example_jcomparator.
Proof.
  destruct (init_result new_jdb "/data/db" example_joptions_comparator
              empty_env)
    as (r2 & env2 & _ & [(db & p & Hnz & _ & _ & _ & Hinit) | (t & Hinit)]).
  - eexists _, _, db. split; [exact Hinit |].
    assert (Hopen : is_open (set_nativeDb p (fst r2))
                      {| pending := pending env2;
                         heap := <[p := ObjDB db]> (heap env2);
                         filesystem := filesystem env2;
                         locks := {["/data/db"]} ∪ locks env2;
                         storage_failing := storage_failing env2 |} db)
      by (split; [exact Hnz | simpl; apply lookup_insert_eq]).
    split; [exact Hopen |].
    destruct (init_passes_options new_jdb (set_nativeDb p (fst r2))
                "/data/db" example_joptions_comparator empty_env
                {| pending := pending env2;
                   heap := <[p := ObjDB db]> (heap env2);
                   filesystem := filesystem env2;
                   locks := {["/data/db"]} ∪ locks env2;
                   storage_failing := storage_failing env2 |} db
                eq_refl) as (_ & _ & _ & _ & _ & _ & Hb & Hw & _ & Hc);
      [ unfold jint; simpl; lia | unfold jint; simpl; lia
      | unfold jlong; simpl; lia | exact Hinit | exact Hopen | ].
    split; [exact Hb |]. split; [exact Hw | exact Hc].
  - exfalso.
    assert (Hr : raised (Java_org_tron_leveldb_DB_init new_jdb "/data/db"
                           example_joptions_comparator empty_env) = None)
      by (vm_compute; reflexivity).
    rewrite Hinit in Hr. discriminate Hr.
Defined.

Lemma init_options_comparator (jdb : JavaDB) (joptions : JavaOptions)
    (jc : DBComparator) (env env2 : JNIEnv) (r2 : JavaDB * Options) :
  jcomparator joptions = Some jc ->
  init_options jdb joptions env = Some (r2, env2) ->
  nativeComparator (fst r2) <> 0
  /\ heap env2 !! nativeComparator (fst r2) = Some (ObjComparator jc)
  /\ nativeDb (fst r2) = nativeDb jdb.
Proof.
  intros Hjc. unfold init_options. rewrite Hjc.
  pose proof (is_fresh ({[0]} ∪ dom (heap env))) as Hp.
  assert (Hp0 : fresh ({[0]} ∪ dom (heap env)) <> 0)
    by (intros E; apply Hp; rewrite E; set_solver).
  destruct (jlogger joptions) as [jl |]; intros H;
    unfold mbind, mret, JNI_bind, JNI_ret, new_object in H;
    cbn [fst snd set_heap heap set_nativeComparator set_nativeLogger
         nativeComparator] in H;
    inversion H; subst; clear H;
    cbn [fst snd set_heap heap set_nativeComparator set_nativeLogger
         nativeComparator nativeDb].
  - split; [exact Hp0 |]. split; [| reflexivity].
    rewrite lookup_insert_ne; [apply lookup_insert_eq |].
    intros E.
    apply (is_fresh ({[0]} ∪ dom (<[fresh ({[0]} ∪ dom (heap env))
                                   := ObjComparator jc]> (heap env)))).
    rewrite E. apply elem_of_union_r, elem_of_dom.
    rewrite lookup_insert_eq. eauto.
  - split; [exact Hp0 |]. split; [apply lookup_insert_eq | reflexivity].
Qed.

(** X15: the comparator wrapper that [init] allocates for a Java comparator
    is never freed by the binding: after [init], whether the engine's
    [Open] succeeded or failed, the field [nativeComparator] holds the
    address of the wrapper, and after [close] the wrapper is still
    allocated at that address. *)
Theorem comparator_wrapper_outlives_store
    (jdb : JavaDB) (jfile : string) (joptions : JavaOptions)
    (jc : DBComparator) (env : JNIEnv) :
  nativeDb jdb = 0 ->
  jcomparator joptions = Some jc ->
  exists jdb' env' jdb'' env'',
    Java_org_tron_leveldb_DB_init jdb jfile joptions env = Some (jdb', env')
    /\ nativeComparator jdb' <> 0
    /\ heap env' !! nativeComparator jdb' = Some (ObjComparator jc)
    /\ Java_org_tron_leveldb_DB_close jdb' env' = Some (jdb'', env'')
    /\ nativeDb jdb'' = 0
    /\ nativeComparator jdb'' = nativeComparator jdb'
    /\ heap env'' !! nativeComparator jdb'' = Some (ObjComparator jc).
Proof.
  intros Hclosed Hjc.
  destruct (init_result jdb jfile joptions env)
    as (r2 & env2 & Hr2 & [(db & p & Hnz & Hfree & _ & _ & H) | (t & H)]);
    destruct (init_options_comparator _ _ _ _ _ _ Hjc Hr2)
      as (Hc0 & Hcl & Hdb0).
  - assert (Hne : nativeComparator (fst r2) <> p).
    { intros E. rewrite E, Hfree in Hcl. discriminate Hcl. }
    set (env' := {| pending := pending env2;
                    heap := <[p := ObjDB db]> (heap env2);
                    filesystem := filesystem env2;
                    locks := {[jfile]} ∪ locks env2;
                    storage_failing := storage_failing env2 |}) in *.
    assert (Hopen : is_open (set_nativeDb p (fst r2)) env' db)
      by (split; [exact Hnz | simpl; apply lookup_insert_eq]).
    eexists _, _, _, _. split; [exact H |].
    split; [exact Hc0 |].
    split; [simpl; rewrite lookup_insert_ne; [exact Hcl | congruence] |].
    split; [apply (close_result _ _ _ Hopen) |].
    split; [reflexivity |]. split; [reflexivity |].
    simpl. rewrite lookup_delete_ne by congruence.
    rewrite lookup_insert_ne; [exact Hcl | congruence].
  - assert (Hclose : Java_org_tron_leveldb_DB_close (fst r2)
                       (set_pending (Some t) env2)
                     = Some (set_nativeDb 0 (fst r2),
                             set_pending (Some t) env2)).
    { unfold Java_org_tron_leveldb_DB_close.
      destruct (decide (nativeDb (fst r2) = 0)); [reflexivity | congruence]. }
    eexists _, _, _, _. split; [exact H |].
    split; [exact Hc0 |]. split; [exact Hcl |].
    split; [exact Hclose |].
    split; [reflexivity |]. split; [reflexivity | exact Hcl].
Qed.

Lemma comparator_wrapper_outlives_store_witness :
  exists jdb' env' jdb'' env'',
    Java_org_tron_leveldb_DB_init new_jdb "/data/db"
      example_joptions_comparator empty_env = Some (jdb', env')
    /\ Java_org_tron_leveldb_DB_close jdb' env' = Some (jdb'', env'')
    /\ heap env'' !! nativeComparator jdb''
       = Some (ObjComparator example_jcomparator).
Proof.
  destruct (comparator_wrapper_outlives_store new_jdb "/data/db"
              example_joptions_comparator example_jcomparator empty_env
              eq_refl eq_refl)
    as (jdb' & env' & jdb'' & env'' & Hinit & _ & _ & Hclose & _ & _ & Hc).
  exists jdb', env', jdb'', env''.
  split; [exact Hinit |]. split; [exact Hclose | exact Hc].
Defined.

(** ** The comparator wrapper *)

(** X16: [JavaComparator] hands the engine exactly the order of the Java
    comparator: [Compare] returns what the Java [compare] returns on the
    same bytes, [Name] is the Java name, the separator and successor are
    those of the Java object; so a Java comparator that obeys the order
    laws gives the engine a total order. *)
Theorem JavaComparator_total_order (jc : DBComparator) :
  java_total_order jc ->
  TotalOrder (JavaComparator jc)
  /\ (forall a b, @Compare (JavaComparator jc) a b = jcompare jc a b)
  /\ @Name (JavaComparator jc) = jname jc
  /\ (forall start limit,
        @FindShortestSeparator (JavaComparator jc) start limit
        = jfindShortestSeparator jc start limit)
  /\ (forall k, @FindShortSuccessor (JavaComparator jc) k
                = jfindShortSuccessor jc k).
Proof.
  intros (Hrefl & Heq & Hlt & Htlt & Htle).
  assert (Hcmp : forall a b, @Compare (JavaComparator jc) a b = jcompare jc a b)
    by (intros a b; simpl; rewrite !Slice_all; reflexivity).
  split; [| split; [exact Hcmp | split; [reflexivity | split]]].
  - constructor; intros; rewrite ?Hcmp in *; eauto.
  - intros start limit. simpl. rewrite !Slice_all. reflexivity.
  - intros k. simpl. rewrite Slice_all. reflexivity.
Qed.

Lemma JavaComparator_total_order_witness :
  java_total_order example_jcomparator
  /\ TotalOrder (JavaComparator example_jcomparator)
  /\ @Compare (JavaComparator example_jcomparator) (key "a") (key "b") = -1.
Proof.
  assert (H : java_total_order example_jcomparator).
  { split; [exact (@Compare_refl BytewiseComparator _) |].
    split; [exact (@Compare_eq BytewiseComparator _) |].
    split; [exact (@Compare_lt_gt BytewiseComparator _) |].
    split; [exact (@Compare_trans_lt BytewiseComparator _)
           | exact (@Compare_trans_le BytewiseComparator _)]. }
  split; [exact H |].
  destruct (JavaComparator_total_order example_jcomparator H)
    as (HT & Hc & _).
  split; [exact HT |]. rewrite Hc. reflexivity.
Defined.

(** ** Properties and the logger *)

(** X17: on an open store [getProperty] never returns null and never
    raises: it returns the string the engine wrote, and the empty string
    when the engine does not know the property, since the boolean that
    [GetProperty] returns is dropped. *)
Theorem getProperty_never_null
    (jdb : JavaDB) (env : JNIEnv) (db : DBImpl) (name : string) :
  is_open jdb env db ->
  Java_org_tron_leveldb_DB_getProperty jdb name env
  = Some (Some (snd (DBImpl_GetProperty name db)), env)
  /\ (fst (DBImpl_GetProperty name db) = false ->
      Java_org_tron_leveldb_DB_getProperty jdb name env
      = Some (Some EmptyString, env)).
Proof.
  intros Hopen.
  assert (H : Java_org_tron_leveldb_DB_getProperty jdb name env
              = Some (Some (snd (DBImpl_GetProperty name db)), env)).
  { assert (Hin : DB_GetProperty (nativeDb jdb) name env
                  = Some (DBImpl_GetProperty name db, env)).
    { unfold DB_GetProperty.
      rewrite (bind_run _ _ _ _ _ (as_DB_open _ _ _ Hopen)). reflexivity. }
    unfold Java_org_tron_leveldb_DB_getProperty. not_null.
    rewrite (bind_run _ _ _ _ _ Hin). reflexivity. }
  split; [exact H |]. rewrite H. unfold DBImpl_GetProperty.
  destruct (String.prefix _ name); [| reflexivity].
  destruct (digit_of _); [discriminate | reflexivity].
Qed.

Lemma getProperty_never_null_witness :
  is_open example_jdb example_env example_db
  /\ Java_org_tron_leveldb_DB_getProperty example_jdb
       "leveldb.num-files-at-level1" example_env
     = Some (Some "1", example_env)
  /\ Java_org_tron_leveldb_DB_getProperty example_jdb "no.such.property"
       example_env
     = Some (Some EmptyString, example_env).
Proof.
  split; [split; by_evaluation |].
  destruct (getProperty_never_null example_jdb example_env example_db
              "leveldb.num-files-at-level1") as [H1 _];
    [split; by_evaluation |].
  destruct (getProperty_never_null example_jdb example_env example_db
              "no.such.property") as [_ H2];
    [split; by_evaluation |].
  split; [rewrite H1; reflexivity | apply H2; reflexivity].
Defined.

Lemma NewStringUTF_length (buffer : bytes) :
  (length (NewStringUTF buffer) <= length buffer)%nat.
Proof.
  induction buffer as [| c r IH]; [reflexivity |].
  simpl. destruct (decide (c = x00)); simpl; lia.
Qed.

Lemma NewStringUTF_prefix (buffer : bytes) :
  exists rest, buffer = NewStringUTF buffer ++ rest.
Proof.
  induction buffer as [| c r [rest IH]]; [exists []; reflexivity |].
  simpl. destruct (decide (c = x00)).
  - exists (c :: r). reflexivity.
  - exists rest. simpl. rewrite <- IH. reflexivity.
Qed.

Lemma NewStringUTF_no_NUL (buffer : bytes) : ~ In x00 (NewStringUTF buffer).
Proof.
  induction buffer as [| c r IH]; [intros [] |].
  simpl. destruct (decide (c = x00)); [intros [] |].
  intros [E | E]; [congruence | exact (IH E)].
Qed.

Lemma NewStringUTF_id (buffer : bytes) :
  ~ In x00 buffer -> NewStringUTF buffer = buffer.
Proof.
  induction buffer as [| c r IH]; [reflexivity |].
  intros Hn. simpl. destruct (decide (c = x00)) as [E | _].
  - exfalso. apply Hn. left. exact E.
  - f_equal. apply IH. intros Hin. apply Hn. right. exact Hin.
Qed.

(** X18: the message that [JavaLogger::Logv] hands to the Java logger is a
    prefix of the formatted text, at most 1023 bytes long (the buffer has
    1024 and keeps one for the terminator) and without a NUL; a text of at
    most 1023 bytes without a NUL arrives whole, a longer one is cut
    without notice. *)
Theorem Logv_truncates (text : bytes) :
  (length (JavaLogger_Logv text) <= 1023)%nat
  /\ (exists rest, text = JavaLogger_Logv text ++ rest)
  /\ ~ In x00 (JavaLogger_Logv text)
  /\ ((length text <= 1023)%nat -> ~ In x00 text ->
      JavaLogger_Logv text = text)
  /\ ((1023 < length text)%nat -> ~ In x00 text ->
      JavaLogger_Logv text = firstn 1023 text).
Proof.
  unfold JavaLogger_Logv, vsnprintf. cbv zeta.
  change (1024 - 1)%nat with 1023%nat.
  split; [| split; [| split; [| split]]].
  - pose proof (NewStringUTF_length (firstn 1023 text)) as H.
    rewrite length_firstn in H. lia.
  - destruct (NewStringUTF_prefix (firstn 1023 text)) as [rest H].
    exists (rest ++ skipn 1023 text).
    rewrite app_assoc, <- H. symmetry. apply firstn_skipn.
  - apply NewStringUTF_no_NUL.
  - intros Hlen Hn. rewrite firstn_all2 by exact Hlen.
    apply NewStringUTF_id, Hn.
  - intros _ Hn. apply NewStringUTF_id. intros Hin. apply Hn.
    rewrite <- (firstn_skipn 1023 text). apply in_or_app. left. exact Hin.
Qed.

Lemma Logv_truncates_witness :
  JavaLogger_Logv (key "Compacting 4@0 + 1@1 files")
  = key "Compacting 4@0 + 1@1 files"
  /\ length (JavaLogger_Logv (repeat x61 2000)) = 1023%nat.
Proof.
  destruct (Logv_truncates (key "Compacting 4@0 + 1@1 files"))
    as (_ & _ & _ & Hshort & _).
  destruct (Logv_truncates (repeat x61 2000)) as (_ & _ & _ & _ & Hlong).
  split.
  - apply Hshort; [vm_compute; lia |].
    vm_compute. intros H. repeat (destruct H as [H | H]; [discriminate H |]).
    exact H.
  - rewrite Hlong.
    + rewrite length_firstn, repeat_length. reflexivity.
    + rewrite repeat_length. lia.
    + intros H. apply repeat_spec in H. discriminate H.
Defined.

(** ** Two iterators *)

Lemma iter_open_other_delete (jiter : JavaDBIterator) (env : JNIEnv)
    (it : Iterator) (p : Z) :
  iter_open jiter env it -> p <> iter_nativeHandle jiter ->
  iter_open jiter (set_heap (delete p (heap env)) env) it.
Proof.
  intros [Hnz Hit] Hp. split; [exact Hnz |]. simpl.
  rewrite lookup_delete_ne; [exact Hit | exact Hp].
Qed.

(** X19: iterators are independent: moving or closing one open iterator
    ([seekToFirst], [seekToLast], [seek], [next], [prev], [close]) leaves
    every other open iterator at the entry it was at. *)
Theorem iterators_are_independent
    (j1 j2 : JavaDBIterator) (env : JNIEnv) (it1 it2 : Iterator) :
  iter_open j1 env it1 ->
  iter_open j2 env it2 ->
  iter_nativeHandle j1 <> iter_nativeHandle j2 ->
  (exists env',
      Java_org_tron_leveldb_DBIterator_seekToFirst j1 env = Some (tt, env')
      /\ iter_open j2 env' it2)
  /\ (exists env',
        Java_org_tron_leveldb_DBIterator_seekToLast j1 env = Some (tt, env')
        /\ iter_open j2 env' it2)
  /\ (forall target, exists env',
        Java_org_tron_leveldb_DBIterator_seek j1 target env = Some (tt, env')
        /\ iter_open j2 env' it2)
  /\ (Iterator_Valid it1 = true ->
      (exists kv env',
          Java_org_tron_leveldb_DBIterator_next j1 env = Some (Some kv, env')
          /\ iter_open j2 env' it2)
      /\ (exists env',
            Java_org_tron_leveldb_DBIterator_prev j1 env = Some (tt, env')
            /\ iter_open j2 env' it2))
  /\ (exists j1' env',
        Java_org_tron_leveldb_DBIterator_close j1 env = Some (j1', env')
        /\ iter_open j2 env' it2).
Proof.
  intros H1 H2 Hne.
  assert (Hkeep : forall it',
             iter_open j2
               (set_heap (<[iter_nativeHandle j1 := ObjIterator it']>
                            (heap env)) env) it2)
    by (intros it'; apply iter_open_other_insert; assumption).
  split; [eexists; split; [apply (seekToFirst_result _ _ _ H1) | apply Hkeep] |].
  split; [eexists; split; [apply (seekToLast_result _ _ _ H1) | apply Hkeep] |].
  split; [intros target; eexists;
          split; [apply (seek_result _ _ _ _ H1) | apply Hkeep] |].
  split.
  - intros Hvalid. destruct (Valid_lookup _ Hvalid) as [kv Hkv]. split.
    + exists kv. eexists.
      split; [apply (next_result _ _ _ _ H1 Hkv) | apply Hkeep].
    + eexists. split; [apply (prev_result _ _ _ H1 Hvalid) | apply Hkeep].
  - eexists _, _. split; [apply (iterator_close_result _ _ _ H1) |].
    apply iter_open_other_delete; assumption.
Qed.

Lemma iterators_are_independent_witness :
  let other := {| iter_nativeHandle := 4 |} in
  let env :=
    set_heap
      (<[4 := ObjIterator
                (DBImpl_NewIterator ReadOptions_default example_db)]>
         (heap example_env)) example_env in
  iter_open example_jiter env example_iterator
  /\ iter_open other env (DBImpl_NewIterator ReadOptions_default example_db)
  /\ exists env',
       Java_org_tron_leveldb_DBIterator_seekToLast other env = Some (tt, env')
       /\ Java_org_tron_leveldb_DBIterator_peekNext example_jiter env'
          = Some (Some (key "a", key "old"), env').
Proof.
  intros other env.
  assert (H1 : iter_open example_jiter env example_iterator)
    by (split; by_evaluation).
  assert (H2 : iter_open other env
                 (DBImpl_NewIterator ReadOptions_default example_db))
    by (split; by_evaluation).
  split; [exact H1 |]. split; [exact H2 |].
  destruct (iterators_are_independent other example_jiter env _ _ H2 H1)
    as (_ & (env' & Hseek & Hkept) & _).
  - vm_compute. discriminate.
  - exists env'. split; [exact Hseek |].
    apply (peekNext_result _ _ _ _ Hkept). reflexivity.
Defined.

(** ** A new iterator *)

(** X20: on an open store [iterator] returns a new open iterator and leaves
    the store open and unchanged; the new iterator is at no entry, so
    [hasNext] and [hasPrev] answer false until one of the seeks has
    positioned it, whatever the store holds. *)
Theorem new_iterator_is_unpositioned
    (jdb : JavaDB) (env : JNIEnv) (db : DBImpl) (jro : JavaReadOptions) :
  is_open jdb env db ->
  exists jiter env',
    Java_org_tron_leveldb_DB_iterator jdb jro env = Some (Some jiter, env')
    /\ iter_nativeHandle jiter <> 0
    /\ is_open jdb env' db
    /\ pending env' = pending env
    /\ Java_org_tron_leveldb_DBIterator_hasNext jiter env'
       = Some (false, env')
    /\ Java_org_tron_leveldb_DBIterator_hasPrev jiter env'
       = Some (false, env').
Proof.
  intros Hopen. unfold Java_org_tron_leveldb_DB_iterator. not_null.
  pose proof (is_fresh ({[0]} ∪ dom (heap env))) as Hfresh.
  set (p := fresh ({[0]} ∪ dom (heap env))) in *.
  set (it := DBImpl_NewIterator (getReadOptions jro) db).
  assert (Hnew : DB_NewIterator (nativeDb jdb) (getReadOptions jro) env
                 = Some (p, set_heap (<[p := ObjIterator it]> (heap env)) env)).
  { unfold DB_NewIterator.
    rewrite (bind_run _ _ _ _ _ (as_DB_open _ _ _ Hopen)). reflexivity. }
  rewrite (bind_run _ _ _ _ _ Hnew).
  assert (Hp0 : p <> 0) by (intros E; apply Hfresh; rewrite E; set_solver).
  assert (Hio : iter_open {| iter_nativeHandle := p |}
                  (set_heap (<[p := ObjIterator it]> (heap env)) env) it)
    by (split; [exact Hp0 | simpl; apply lookup_insert_eq]).
  eexists _, _. split; [reflexivity |]. split; [exact Hp0 |].
  split.
  { apply is_open_other_insert; [exact Hopen |].
    intros E. destruct Hopen as [_ Hdb]. apply Hfresh. rewrite E.
    apply elem_of_union_r, elem_of_dom. eauto. }
  split; [reflexivity |].
  rewrite (hasNext_is_Valid _ _ _ Hio), (hasPrev_is_Valid _ _ _ Hio).
  unfold Iterator_Valid, it, DBImpl_NewIterator. cbn [it_pos it_view].
  rewrite Nat.ltb_irrefl. split; reflexivity.
Qed.

Lemma new_iterator_is_unpositioned_witness :
  is_open example_jdb example_env example_db
  /\ exists jiter env',
       Java_org_tron_leveldb_DB_iterator example_jdb
         {| verifyChecksums := false; fillCache := true |} example_env
       = Some (Some jiter, env')
       /\ Java_org_tron_leveldb_DBIterator_hasNext jiter env'
          = Some (false, env').
Proof.
  split; [split; by_evaluation |].
  destruct (new_iterator_is_unpositioned example_jdb example_env example_db
              {| verifyChecksums := false; fillCache := true |})
    as (jiter & env' & Hit & _ & _ & _ & Hnext & _).
  - split; by_evaluation.
  - exists jiter, env'. split; [exact Hit | exact Hnext].
Defined.
